(** * nstd::queue and nstd::queue_trivial (queue.hpp): a shallow embedding

    The header declares two containers over one malloc'ed block that is used
    as a ring: [queue<T, INT_TYPE>], which calls the element type's
    assignment operators, default constructor and destructor, and
    [queue_trivial<T, INT_TYPE>], which copies raw memory.

    Modelling choices.
    - [INT_TYPE] is [int], the default of the template parameter: 32 bits,
      two's complement.  The one product that can leave the type on a
      reachable instance, [capacity_ *= 2], is reduced into the type by
      [int], as the compiled code does.
    - [%] is the truncating remainder [Z.rem]; a zero divisor is undefined
      behaviour and is reported as such.
    - A block returned by [malloc] is a list of slots.  A slot holds [None]
      when it is raw or its element has been destroyed (general variant) or
      when its bytes are indeterminate (trivial variant).  The null pointer
      is the block without slots.  [malloc] returns the null pointer for a
      request it cannot hold, such as the negative count of slots a wrapped
      [capacity_] makes; the [abort()] taken on a null result is the fault
      [Aborted].
    - A reference [T&] into the buffer is the index of the slot it denotes.
    - [assert] is enabled; a failed assertion is the fault
      [AssertionFailed].
    - Every call the containers make on the allocator and on [T]'s special
      member functions is appended to the log of the instance. *)

From stdpp Require Import base list.
From Stdlib Require Import ZArith Lia.

Local Open Scope Z_scope.

(** ** Outcomes of a member function *)

Inductive fault : Type :=
| AssertionFailed
| Aborted
| UndefinedBehaviour.

Inductive result (A : Type) : Type :=
| Ok (a : A)
| Fail (f : fault).

Arguments Ok {A} a.
Arguments Fail {A} f.

Definition bind {A B : Type} (m : result A) (k : A -> result B) : result B :=
  match m with
  | Ok a => k a
  | Fail f => Fail f
  end.

Notation "'let*' x ':=' m 'in' k" := (bind m (fun x => k))
  (at level 10, x pattern, m at level 100, k at level 200).

Definition assert (b : bool) : result unit :=
  if b then Ok tt else Fail AssertionFailed.

(** The largest [int]. *)
Abbreviation INT_MAX := 2147483647 (only parsing).

(** The [int] that the compiled code leaves for the mathematical result
    [z]. *)
Definition int (z : Z) : Z := (z + 2147483648) mod 4294967296 - 2147483648.

(** [a % b] on [INT_TYPE]. *)
Definition crem (a b : Z) : result Z :=
  if b =? 0 then Fail UndefinedBehaviour else Ok (Z.rem a b).

(** ** Calls observed on the allocator and on the element type *)

Inductive event : Type :=
| Malloc (n : Z)
| Memcpy (n : Z)
| Free
| Construct
| CopyAssign
| MoveAssign
| Destruct.

Definition is_malloc (e : event) : bool :=
  match e with Malloc _ => true | _ => false end.

Definition is_construct (e : event) : bool :=
  match e with Construct => true | _ => false end.

Definition is_destruct (e : event) : bool :=
  match e with Destruct => true | _ => false end.

Fixpoint count (p : event -> bool) (l : list event) : Z :=
  match l with
  | [] => 0
  | e :: l' => (if p e then 1 else 0) + count p l'
  end.

(** Number of blocks the instance has allocated so far. *)
Definition allocations (l : list event) : Z := count is_malloc l.

(** Constructor calls minus destructor calls. *)
Definition balance (l : list event) : Z :=
  count is_construct l - count is_destruct l.

(** ** Blocks of slots *)

Abbreviation block T := (list (option T)) (only parsing).

(** A block of [n] raw slots. *)
Definition raw {T : Type} (n : Z) : block T := replicate (Z.to_nat n) None.

(** [(T* )malloc(sizeof(T) * n)] for the [int] [n]: [None] is the null
    pointer.  A negative [n] converts to a size no block can have. *)
Definition malloc {T : Type} (n : Z) : option (block T) :=
  if n <? 0 then None else Some (raw n).

Definition is_null {T : Type} (b : block T) : bool :=
  match b with [] => true | _ => false end.

Definition in_bounds {T : Type} (b : block T) (k : Z) : bool :=
  (0 <=? k) && (k <? Z.of_nat (length b)).

(** [buffer_[k]] as a reference. *)
Definition ref {T : Type} (b : block T) (k : Z) : result Z :=
  if in_bounds b k then Ok k else Fail UndefinedBehaviour.

(** What the slot at index [k] of the block holds. *)
Definition slot {T : Type} (b : block T) (k : Z) : option T :=
  default None (b !! Z.to_nat k).

(** The contents of [buffer_[k]]. *)
Definition read {T : Type} (b : block T) (k : Z) : result (option T) :=
  if in_bounds b k then Ok (slot b k) else Fail UndefinedBehaviour.

(** [buffer_[k]] receives new contents. *)
Definition store {T : Type} (b : block T) (k : Z) (v : option T)
  : result (block T) :=
  if in_bounds b k then Ok (<[Z.to_nat k := v]> b)
  else Fail UndefinedBehaviour.

(** [memcpy(dst, src, sizeof(T) * n)]: the first [n] slots of [src] land on
    the first [n] slots of [dst].  A copy of no slot from the null block is
    taken to be harmless. *)
Definition memcpy {T : Type} (dst src : block T) (n : Z) : result (block T) :=
  if (0 <=? n) && (n <=? Z.of_nat (length src)) && (n <=? Z.of_nat (length dst))
  then Ok (take (Z.to_nat n) src ++ drop (Z.to_nat n) dst)
  else Fail UndefinedBehaviour.

(** ** The members both structs declare *)

Record state (T : Type) : Type := mk_state {
  buffer_ : block T;
  front_ : Z;
  back_ : Z;
  capacity_ : Z;
  size_ : Z;
  log_ : list event
}.

Arguments mk_state {T} _ _ _ _ _ _.
Arguments buffer_ {T} _.
Arguments front_ {T} _.
Arguments back_ {T} _.
Arguments capacity_ {T} _.
Arguments size_ {T} _.
Arguments log_ {T} _.

(** ** struct queue *)

Module queue.

Module iterator.

Record t (T : Type) : Type := mk {
  buffer_ : block T;
  front_ : Z;
  capacity_ : Z;
  offset_ : Z
}.

Arguments mk {T} _ _ _ _.
Arguments buffer_ {T} _.
Arguments front_ {T} _.
Arguments capacity_ {T} _.
Arguments offset_ {T} _.

Section members.
Context {T : Type}.

Definition ctor (buffer : block T) (front offset capacity : Z) : t T :=
  mk buffer front capacity offset.

(** [operator*] and [operator->] *)
Definition deref (it : t T) : result Z :=
  let* k := crem (offset_ it + front_ it) (capacity_ it) in
  ref (buffer_ it) k.

(** [operator++] (prefix) *)
Definition incr (it : t T) : t T :=
  mk (buffer_ it) (front_ it) (capacity_ it) (offset_ it + 1).

(** [operator++(int)] (postfix): the old position and the advanced one. *)
Definition post_incr (it : t T) : t T * t T := (it, incr it).

(** [operator==] *)
Definition eqb (a b : t T) : bool := offset_ a =? offset_ b.

(** [operator!=] *)
Definition neqb (a b : t T) : bool := negb (offset_ a =? offset_ b).

End members.
End iterator.

Section members.
Context {T : Type}.
(** The value [T()] of a default-constructed element. *)
Variable T_default : T.

Definition t : Type := state T.

(** [queue()] *)
Definition ctor : t := mk_state [] 0 0 0 0 [].

(** The loop of [should_reallocate], entered at index [i] with [n]
    iterations left. *)
Fixpoint move_elements (n : nat) (i : Z) (q : t) (buffer_new : block T)
  : result (block T) :=
  match n with
  | O => Ok buffer_new
  | S n' =>
      let* index_rolling := crem (front_ q + i) (size_ q) in
      let* v := read (buffer_ q) index_rolling in
      let* buffer_new' := store buffer_new i v in
      move_elements n' (i + 1) q buffer_new'
  end.

Definition should_reallocate (q : t) : result t :=
  if capacity_ q =? size_ q then
    let capacity_new :=
      if capacity_ q =? 0 then 2 else int (capacity_ q * 2) in
    match malloc capacity_new with
    | None => Fail Aborted
    | Some buffer_new =>
        let* buffer_new :=
          move_elements (Z.to_nat (size_ q)) 0 q buffer_new in
        Ok (mk_state buffer_new 0 (size_ q) capacity_new (size_ q)
              (log_ q ++ Malloc capacity_new
                      :: replicate (Z.to_nat (size_ q)) MoveAssign ++ [Free]))
    end
  else Ok q.

Definition begin_ (q : t) : iterator.t T :=
  iterator.ctor (buffer_ q) (front_ q) 0 (capacity_ q).

Definition end_ (q : t) : iterator.t T :=
  iterator.ctor (buffer_ q) (front_ q) (size_ q) (capacity_ q).

(** [push_back(const T&)] *)
Definition push_back (q : t) (data : T) : result t :=
  let* q := should_reallocate q in
  let* buffer := store (buffer_ q) (back_ q) (Some data) in
  let* back := crem (back_ q + 1) (capacity_ q) in
  Ok (mk_state buffer (front_ q) back (capacity_ q) (size_ q + 1)
        (log_ q ++ [CopyAssign])).

(** [emplace_back()]: the queue and the reference it returns. *)
Definition emplace_back (q : t) : result (t * Z) :=
  let* q := should_reallocate q in
  let* data := ref (buffer_ q) (back_ q) in
  let* buffer := store (buffer_ q) data (Some T_default) in
  let* back := crem (back_ q + 1) (capacity_ q) in
  Ok (mk_state buffer (front_ q) back (capacity_ q) (size_ q + 1)
        (log_ q ++ [Construct]), data).

(** [push_back(T&&)] *)
Definition push_back_move (q : t) (data : T) : result t :=
  let* q := should_reallocate q in
  let* buffer := store (buffer_ q) (back_ q) (Some data) in
  let* back := crem (back_ q + 1) (capacity_ q) in
  Ok (mk_state buffer (front_ q) back (capacity_ q) (size_ q + 1)
        (log_ q ++ [MoveAssign])).

Definition front (q : t) : result Z :=
  let* _ := assert (negb (size_ q =? 0)) in
  ref (buffer_ q) (front_ q).

Definition back (q : t) : result Z :=
  let* _ := assert (negb (size_ q =? 0)) in
  let* last := crem (back_ q + (size_ q - 1)) (capacity_ q) in
  ref (buffer_ q) last.

Definition pop (q : t) : result t :=
  let* _ := assert (negb (size_ q =? 0)) in
  let* buffer := store (buffer_ q) (front_ q) None in
  let* front := crem (front_ q + 1) (capacity_ q) in
  Ok (mk_state buffer front (back_ q) (capacity_ q) (size_ q - 1)
        (log_ q ++ [Destruct])).

(** The loop of [clear]: [fuel] bounds the number of iterations. *)
Fixpoint pop_while (fuel : nat) (q : t) : result t :=
  match fuel with
  | O => Ok q
  | S fuel' =>
      if 0 <? size_ q then let* q' := pop q in pop_while fuel' q' else Ok q
  end.

Definition clear (q : t) : result t :=
  let* q := pop_while (Z.to_nat (size_ q)) q in
  Ok (mk_state (buffer_ q) 0 0 (capacity_ q) (size_ q) (log_ q)).

Definition size (q : t) : Z := size_ q.

Definition empty (q : t) : Z := Z.b2z (size_ q =? 0).

(** [operator[]] *)
Definition subscript (q : t) (i : Z) : result Z :=
  let* _ := assert ((i >=? 0) && (i <? size_ q)) in
  let* index_rolling := crem (front_ q + i) (capacity_ q) in
  ref (buffer_ q) index_rolling.

(** The loop of [~queue]. *)
Fixpoint destroy_elements (n : nat) (i : Z) (q : t) (buffer : block T)
  : result (block T) :=
  match n with
  | O => Ok buffer
  | S n' =>
      let* index_rolling := crem (front_ q + i) (capacity_ q) in
      let* buffer' := store buffer index_rolling None in
      destroy_elements n' (i + 1) q buffer'
  end.

(** [~queue()]: the complete log of the instance. *)
Definition dtor (q : t) : result (list event) :=
  if is_null (buffer_ q) then Ok (log_ q)
  else
    let* _ := destroy_elements (Z.to_nat (size_ q)) 0 q (buffer_ q) in
    Ok (log_ q ++ replicate (Z.to_nat (size_ q)) Destruct ++ [Free]).

(** What [q[i]] holds. *)
Definition get (q : t) (i : Z) : result (option T) :=
  let* k := subscript q i in read (buffer_ q) k.

(** The calls a client can make on an instance. *)
Inductive op : Type :=
| PushBack (data : T)
| PushBackMove (data : T)
| EmplaceBack
| Pop
| Clear.

Definition is_clear (o : op) : bool :=
  match o with Clear => true | _ => false end.

Definition is_append (o : op) : bool :=
  match o with
  | PushBack _ | PushBackMove _ | EmplaceBack => true
  | _ => false
  end.

(** What an append leaves in the slot it fills, and the call on [T] that
    fills it. *)
Definition stored (o : op) : option T :=
  match o with
  | PushBack data | PushBackMove data => Some data
  | EmplaceBack => Some T_default
  | Pop | Clear => None
  end.

Definition logged (o : op) : event :=
  match o with
  | PushBack _ => CopyAssign
  | PushBackMove _ => MoveAssign
  | EmplaceBack => Construct
  | Pop | Clear => Destruct
  end.

(** A [push_back] of [data], by the overload taking an rvalue when [moved]. *)
Definition push_op (x : T * bool) : op :=
  if snd x then PushBackMove (fst x) else PushBack (fst x).

Definition step (q : t) (o : op) : result t :=
  match o with
  | PushBack data => push_back q data
  | PushBackMove data => push_back_move q data
  | EmplaceBack => let* r := emplace_back q in Ok (fst r)
  | Pop => pop q
  | Clear => clear q
  end.

Fixpoint run (q : t) (ops : list op) : result t :=
  match ops with
  | [] => Ok q
  | o :: ops' => let* q' := step q o in run q' ops'
  end.

End members.
End queue.

(** ** struct queue_trivial *)

Module queue_trivial.

Section members.
Context {T : Type}.

Definition t : Type := state T.

(** [queue_trivial()] *)
Definition ctor : t := mk_state [] 0 0 0 0 [].

(** [~queue_trivial()]: the complete log of the instance. *)
Definition dtor (q : t) : list event :=
  if is_null (buffer_ q) then log_ q else log_ q ++ [Free].

Definition should_reallocate (q : t) : result t :=
  if capacity_ q =? size_ q then
    let capacity_new :=
      if capacity_ q =? 0 then 2 else int (capacity_ q * 2) in
    match malloc capacity_new with
    | None => Fail Aborted
    | Some buffer_new =>
        let* buffer_new := memcpy buffer_new (buffer_ q) (size_ q) in
        Ok (mk_state buffer_new 0 (size_ q) capacity_new (size_ q)
              (log_ q ++ [Malloc capacity_new; Memcpy (size_ q); Free]))
    end
  else Ok q.

Definition clear (q : t) : t :=
  mk_state (buffer_ q) 0 0 (capacity_ q) (size_ q) (log_ q).

(** [push_back(const T&)] *)
Definition push_back (q : t) (data : T) : result t :=
  let* q := should_reallocate q in
  let* buffer := store (buffer_ q) (back_ q) (Some data) in
  let* back := crem (back_ q + 1) (capacity_ q) in
  Ok (mk_state buffer (front_ q) back (capacity_ q) (size_ q + 1) (log_ q)).

(** [emplace_back(FuncInit)]: [init] rewrites the slot in place. *)
Definition emplace_back_init (q : t) (init : option T -> option T)
  : result (t * Z) :=
  let* q := should_reallocate q in
  let* data := ref (buffer_ q) (back_ q) in
  let* old := read (buffer_ q) data in
  let* buffer := store (buffer_ q) data (init old) in
  let* back := crem (back_ q + 1) (capacity_ q) in
  Ok (mk_state buffer (front_ q) back (capacity_ q) (size_ q + 1) (log_ q),
      data).

(** [emplace_back()]: the slot keeps whatever it held. *)
Definition emplace_back (q : t) : result (t * Z) :=
  let* q := should_reallocate q in
  let* data := ref (buffer_ q) (back_ q) in
  let* back := crem (back_ q + 1) (capacity_ q) in
  Ok (mk_state (buffer_ q) (front_ q) back (capacity_ q) (size_ q + 1)
        (log_ q), data).

Definition front (q : t) : result Z :=
  let* _ := assert (negb (size_ q =? 0)) in
  ref (buffer_ q) (front_ q).

Definition back (q : t) : result Z :=
  let* _ := assert (negb (size_ q =? 0)) in
  let* last := crem (back_ q + (size_ q - 1)) (capacity_ q) in
  ref (buffer_ q) last.

(** [pop(FuncDeinit)]: [deinit] rewrites the slot in place. *)
Definition pop_deinit (q : t) (deinit : option T -> option T) : result t :=
  let* _ := assert (negb (size_ q =? 0)) in
  let* old := read (buffer_ q) (front_ q) in
  let* buffer := store (buffer_ q) (front_ q) (deinit old) in
  let* front := crem (front_ q + 1) (capacity_ q) in
  Ok (mk_state buffer front (back_ q) (capacity_ q) (size_ q - 1) (log_ q)).

Definition pop (q : t) : result t :=
  let* _ := assert (negb (size_ q =? 0)) in
  let* front := crem (front_ q + 1) (capacity_ q) in
  Ok (mk_state (buffer_ q) front (back_ q) (capacity_ q) (size_ q - 1)
        (log_ q)).

Definition size (q : t) : Z := size_ q.

Definition empty (q : t) : Z := Z.b2z (size_ q =? 0).

(** [operator[]] *)
Definition subscript (q : t) (i : Z) : result Z :=
  let* _ := assert ((i >=? 0) && (i <? size_ q)) in
  let* index_rolling := crem (front_ q + i) (capacity_ q) in
  ref (buffer_ q) index_rolling.

(** What [q[i]] holds. *)
Definition get (q : t) (i : Z) : result (option T) :=
  let* k := subscript q i in read (buffer_ q) k.

(** The calls a client can make on an instance. *)
Inductive op : Type :=
| PushBack (data : T)
| EmplaceBackInit (init : option T -> option T)
| EmplaceBack
| PopDeinit (deinit : option T -> option T)
| Pop
| Clear.

Definition is_clear (o : op) : bool :=
  match o with Clear => true | _ => false end.

Definition is_append (o : op) : bool :=
  match o with
  | PushBack _ | EmplaceBackInit _ | EmplaceBack => true
  | _ => false
  end.

(** What an append leaves in the slot it fills, which held [old]. *)
Definition stored (old : option T) (o : op) : option T :=
  match o with
  | PushBack data => Some data
  | EmplaceBackInit init => init old
  | EmplaceBack => old
  | PopDeinit _ | Pop | Clear => None
  end.

Definition step (q : t) (o : op) : result t :=
  match o with
  | PushBack data => push_back q data
  | EmplaceBackInit init => let* r := emplace_back_init q init in Ok (fst r)
  | EmplaceBack => let* r := emplace_back q in Ok (fst r)
  | PopDeinit deinit => pop_deinit q deinit
  | Pop => pop q
  | Clear => Ok (clear q)
  end.

Fixpoint run (q : t) (ops : list op) : result t :=
  match ops with
  | [] => Ok q
  | o :: ops' => let* q' := step q o in run q' ops'
  end.

End members.
End queue_trivial.

(** ** Well-formed instances *)

Section invariants.
Context {T : Type}.

(** The block has [capacity_] slots, the three indices lie inside it and
    [capacity_] is an [int]. *)
Definition wf (q : state T) : Prop :=
  Z.of_nat (length (buffer_ q)) = capacity_ q /\
  0 <= size_ q <= capacity_ q /\
  0 <= front_ q /\ 0 <= back_ q /\
  (capacity_ q = 0 -> front_ q = 0 /\ back_ q = 0) /\
  (0 < capacity_ q -> front_ q < capacity_ q /\ back_ q < capacity_ q) /\
  capacity_ q <= INT_MAX.

(** Twice the capacity of a full [q] is an [int]: [should_reallocate] can
    be granted the block it asks for. *)
Definition fits (q : state T) : Prop :=
  size_ q = capacity_ q -> 2 * capacity_ q <= INT_MAX.

(** Moreover [back_] is [size_] slots after [front_], around the ring. *)
Definition ring (q : state T) : Prop :=
  wf q /\
  (0 < capacity_ q -> back_ q = (front_ q + size_ q) mod capacity_ q).

(** The instance an append leaves once [should_reallocate] has returned
    [q]: slot [back_] holds [v], [back_] has moved on by one. *)
Definition appended (q : state T) (v : option T) (l : list event) : state T :=
  mk_state (<[Z.to_nat (back_ q) := v]> (buffer_ q)) (front_ q)
    ((back_ q + 1) mod capacity_ q) (capacity_ q) (size_ q + 1) l.

(** The instance a remove leaves: slot [front_] holds [v], [front_] has moved
    on by one. *)
Definition removed (q : state T) (v : option T) (l : list event) : state T :=
  mk_state (<[Z.to_nat (front_ q) := v]> (buffer_ q))
    ((front_ q + 1) mod capacity_ q) (back_ q) (capacity_ q) (size_ q - 1) l.

(** What [should_reallocate] guarantees in both structs, from [q] to [q1]. *)
Record reallocated (q q1 : state T) : Prop := {
  ra_wf : wf q1;
  ra_ring : ring q -> ring q1;
  ra_size : size_ q1 = size_ q;
  ra_room : size_ q1 < capacity_ q1;
  ra_capacity :
    capacity_ q1 =
      if size_ q =? capacity_ q then Z.max 2 (2 * capacity_ q)
      else capacity_ q;
  ra_full : size_ q = capacity_ q -> front_ q1 = 0 /\ back_ q1 = size_ q;
  ra_keep : size_ q <> capacity_ q -> q1 = q;
  ra_allocations :
    allocations (log_ q1) =
      allocations (log_ q) + (if size_ q =? capacity_ q then 1 else 0);
  ra_balance : balance (log_ q1) = balance (log_ q)
}.

End invariants.

(** ** Instances of queue<int> and queue_trivial<int> used as examples *)

(** After [push_back(7)] on a fresh [queue<int>]. *)
Definition q_one : state Z :=
  mk_state [Some 7; None] 0 1 2 1 [Malloc 2; Free; CopyAssign].

(** After [push_back(7)] on a fresh [queue_trivial<int>]. *)
Definition t_one : state Z :=
  mk_state [Some 7; None] 0 1 2 1 [Malloc 2; Memcpy 0; Free].

(** [push_back(1); push_back(2); pop(); push_back(3)] fills a block of two
    slots with a live range that starts at slot 1. *)
Definition q_wrapped_ops : list (@queue.op Z) :=
  [queue.PushBack 1; queue.PushBack 2; queue.Pop; queue.PushBack 3].

Definition q_wrapped : state Z :=
  mk_state [Some 3; Some 2] 1 1 2 2
    [Malloc 2; Free; CopyAssign; CopyAssign; Destruct; CopyAssign].

Definition t_wrapped_ops : list (@queue_trivial.op Z) :=
  [queue_trivial.PushBack 1; queue_trivial.PushBack 2; queue_trivial.Pop;
   queue_trivial.PushBack 3].

Definition t_wrapped : state Z :=
  mk_state [Some 3; Some 2] 1 1 2 2 [Malloc 2; Memcpy 0; Free].

(** What [should_reallocate] makes of [t_wrapped]. *)
Definition t_regrown : state Z :=
  mk_state [Some 3; Some 2; None; None] 0 2 4 2
    [Malloc 2; Memcpy 0; Free; Malloc 4; Memcpy 2; Free].

(** [push_back(1); push_back(2); push_back(3); pop(); emplace_back()]
    leaves three live elements in a block of four slots. *)
Definition q_popped_ops : list (@queue.op Z) :=
  [queue.PushBack 1; queue.PushBackMove 2; queue.PushBack 3; queue.Pop;
   queue.EmplaceBack].

Definition q_popped : state Z :=
  mk_state [None; Some 2; Some 3; Some 0] 1 0 4 3
    [Malloc 2; Free; CopyAssign; MoveAssign; Malloc 4; MoveAssign; MoveAssign;
     Free; CopyAssign; Destruct; Construct].

(** Five pushes by the two overloads of [queue::push_back]. *)
Definition five_pushes : list (Z * bool) :=
  [(10, false); (20, true); (30, false); (40, true); (50, false)].

(** Calls of every kind on a [queue]: the live range wraps, the block is
    reallocated, cleared and used again. *)
Definition fifo_calls : list (@queue.op Z) :=
  [queue.PushBack 1; queue.PushBackMove 2; queue.Pop; queue.PushBack 3;
   queue.EmplaceBack; queue.PushBack 5; queue.Pop; queue.Clear;
   queue.PushBack 6; queue.EmplaceBack].

(** ** The loops of example.cpp over a queue *)

Module example.

Section loops.
Context {T : Type}.

(** [for (auto it = q.begin(); it != q.end(); ++it) { const auto i = *it; ... }]
    entered with the iterator [it]: the values the body sees, in order.
    The result is [None] when [fuel] rounds do not bring [it] to [end()]. *)
Fixpoint iterate (fuel : nat) (q : state T) (it : queue.iterator.t T)
  : option (result (list (option T))) :=
  match fuel with
  | O => None
  | S fuel' =>
      if queue.iterator.neqb it (queue.end_ q) then
        match (let* k := queue.iterator.deref it in
               read (queue.iterator.buffer_ it) k) with
        | Fail f => Some (Fail f)
        | Ok v =>
            match iterate fuel' q (queue.iterator.incr it) with
            | None => None
            | Some r => Some (let* vs := r in Ok (v :: vs))
            end
        end
      else Some (Ok [])
  end.

Definition for_each (fuel : nat) (q : state T)
  : option (result (list (option T))) :=
  iterate fuel q (queue.begin_ q).

(** [for (int i = 0; i < q.size(); i++) { q[i] = f(q[i]); }] entered at
    index [i] with [n] rounds left: the body rewrites the element in place
    through the reference [operator[]] returns. *)
Fixpoint update_from (n : nat) (i : Z) (f : option T -> option T)
  (q : state T) : result (state T) :=
  match n with
  | O => Ok q
  | S n' =>
      let* k := queue.subscript q i in
      let* old := read (buffer_ q) k in
      let* buffer := store (buffer_ q) k (f old) in
      update_from n' (i + 1) f
        (mk_state buffer (front_ q) (back_ q) (capacity_ q) (size_ q)
           (log_ q))
  end.

Definition update_all (f : option T -> option T) (q : state T)
  : result (state T) :=
  update_from (Z.to_nat (queue.size q)) 0 f q.

End loops.
End example.

(** ** The queue as a sequence *)

Section sequence.
Context {T : Type}.
Variable T_default : T.

(** What a call on [queue] means on the sequence of the live elements,
    oldest first; [None] when the call breaks its precondition. *)
Definition fifo_step (l : list T) (o : @queue.op T) : option (list T) :=
  match o with
  | queue.PushBack data | queue.PushBackMove data => Some (l ++ [data])
  | queue.EmplaceBack => Some (l ++ [T_default])
  | queue.Pop => match l with [] => None | _ :: l' => Some l' end
  | queue.Clear => Some []
  end.

Fixpoint fifo_run (l : list T) (ops : list (@queue.op T)) : option (list T) :=
  match ops with
  | [] => Some l
  | o :: ops' =>
      match fifo_step l o with
      | Some l' => fifo_run l' ops'
      | None => None
      end
  end.

(** Number of appends among the calls. *)
Fixpoint appends (ops : list (@queue.op T)) : Z :=
  match ops with
  | [] => 0
  | o :: ops' => (if queue.is_append o then 1 else 0) + appends ops'
  end.

(** Number of [emplace_back()] among the calls. *)
Fixpoint emplacements (ops : list (@queue.op T)) : Z :=
  match ops with
  | [] => 0
  | o :: ops' =>
      (match o with queue.EmplaceBack => 1 | _ => 0 end) + emplacements ops'
  end.

(** The instance [q] holds the sequence [l]: [q[i]] is its [i]-th element. *)
Definition represents (q : state T) (l : list T) : Prop :=
  ring q /\ size_ q = Z.of_nat (length l) /\
  forall (i : nat) (x : T),
    l !! i = Some x -> queue.get q (Z.of_nat i) = Ok (Some x).

(** The slots that hold a value are those of the live range. *)
Definition occupied (q : state T) : Prop :=
  forall k, 0 <= k < capacity_ q ->
    slot (buffer_ q) k <> None <->
    exists i, 0 <= i < size_ q /\ k = (front_ q + i) mod capacity_ q.

End sequence.

(** * Properties *)

(** ** Arithmetic of the ring *)

Lemma mod_wrap (a c : Z) :
  0 <= a < 2 * c -> a mod c = if a <? c then a else a - c.
Proof.
  intros H. destruct (Z.ltb_spec a c) as [Hlt | Hge].
  - apply Z.mod_small. lia.
  - symmetry. apply (Z.mod_unique_pos a c 1 (a - c)); lia.
Qed.

Lemma ring_slots_distinct (f i j c : Z) :
  0 <= f < c -> 0 <= i < c -> 0 <= j < c ->
  (f + i) mod c = (f + j) mod c -> i = j.
Proof.
  intros Hf Hi Hj. rewrite !mod_wrap by lia.
  destruct (Z.ltb_spec (f + i) c), (Z.ltb_spec (f + j) c); lia.
Qed.

(** ** The primitives *)

Lemma bind_Fail {A B : Type} (m : result A) (k : A -> result B) (f : fault) :
  bind m k = Fail f -> m = Fail f \/ exists a, m = Ok a /\ k a = Fail f.
Proof. destruct m as [a | f']; simpl; [eauto | intros [= ->]; auto]. Qed.

Lemma bind_Ok {A B : Type} (m : result A) (k : A -> result B) (b : B) :
  bind m k = Ok b -> exists a, m = Ok a /\ k a = Ok b.
Proof. destruct m as [a | f]; simpl; [eauto | discriminate]. Qed.

Lemma assert_Ok (b : bool) (u : unit) : assert b = Ok u -> b = true.
Proof. destruct b; [reflexivity | discriminate]. Qed.

Lemma crem_ok (a c : Z) : 0 <= a -> 0 < c -> crem a c = Ok (a mod c).
Proof.
  intros Ha Hc. unfold crem. destruct (Z.eqb_spec c 0) as [-> | _]; [lia |].
  rewrite Z.rem_mod_nonneg by lia. reflexivity.
Qed.

Lemma in_bounds_true {T : Type} (b : block T) (k : Z) :
  in_bounds b k = true <-> 0 <= k < Z.of_nat (length b).
Proof. unfold in_bounds. rewrite andb_true_iff, Z.leb_le, Z.ltb_lt. tauto. Qed.

Lemma ref_ok {T : Type} (b : block T) (k : Z) :
  0 <= k < Z.of_nat (length b) -> ref b k = Ok k.
Proof. intros H. unfold ref. apply in_bounds_true in H. rewrite H. reflexivity. Qed.

Lemma read_ok {T : Type} (b : block T) (k : Z) :
  0 <= k < Z.of_nat (length b) -> read b k = Ok (slot b k).
Proof. intros H. unfold read. apply in_bounds_true in H. rewrite H. reflexivity. Qed.

Lemma store_ok {T : Type} (b : block T) (k : Z) (v : option T) :
  0 <= k < Z.of_nat (length b) -> store b k v = Ok (<[Z.to_nat k := v]> b).
Proof. intros H. unfold store. apply in_bounds_true in H. rewrite H. reflexivity. Qed.

(** Runs the primitives of a member function whose indices [lia] can show
    to be in range. *)
Ltac prims :=
  repeat (first [ rewrite store_ok by lia | rewrite crem_ok by lia
                | rewrite ref_ok by lia | rewrite read_ok by lia ];
          simpl).

(** Names the parts of [wf]. *)
Ltac open_wf H := pose proof H as (Hlen & Hsz & Hf & Hb & Hz & Hp & Hmax).

Lemma slot_insert_eq {T : Type} (b : block T) (k : Z) (v : option T) :
  0 <= k < Z.of_nat (length b) -> slot (<[Z.to_nat k := v]> b) k = v.
Proof.
  intros H. unfold slot. rewrite list_lookup_insert_eq by lia. reflexivity.
Qed.

Lemma slot_insert_ne {T : Type} (b : block T) (k j : Z) (v : option T) :
  0 <= k -> 0 <= j -> k <> j -> slot (<[Z.to_nat k := v]> b) j = slot b j.
Proof.
  intros Hk Hj Hne. unfold slot. rewrite list_lookup_insert_ne by lia.
  reflexivity.
Qed.

Lemma slot_raw {T : Type} (n k : Z) : slot (@raw T n) k = None.
Proof.
  unfold slot, raw.
  destruct (replicate (Z.to_nat n) None !! Z.to_nat k) as [o |] eqn:E;
    [| reflexivity].
  apply lookup_replicate_1 in E as [-> _]. reflexivity.
Qed.

Lemma length_raw {T : Type} (n : Z) :
  0 <= n -> Z.of_nat (length (@raw T n)) = n.
Proof. intros H. unfold raw. rewrite length_replicate. lia. Qed.

Lemma malloc_granted {T : Type} (n : Z) :
  0 <= n -> @malloc T n = Some (raw n).
Proof. intros H. unfold malloc. destruct (Z.ltb_spec n 0); [lia | done]. Qed.

Lemma malloc_refused {T : Type} (n : Z) : n < 0 -> @malloc T n = None.
Proof. intros H. unfold malloc. destruct (Z.ltb_spec n 0); [done | lia]. Qed.

(** ** Arithmetic of [int] *)

Lemma int_fits (z : Z) : -2147483648 <= z <= INT_MAX -> int z = z.
Proof. intros H. unfold int. rewrite Z.mod_small; lia. Qed.

(** Doubling an [int] beyond [INT_MAX] leaves a negative [int]. *)
Lemma int_doubled_wraps (c : Z) :
  0 <= c <= INT_MAX -> INT_MAX < 2 * c -> int (c * 2) < 0.
Proof.
  intros Hc Hbig. unfold int. rewrite mod_wrap by lia.
  destruct (Z.ltb_spec (c * 2 + 2147483648) 4294967296); lia.
Qed.

(** ** Moving the two ends of the live range *)

Section ends.
Context {T : Type}.
Implicit Types (q : state T) (b : block T) (l : list event).

Lemma wf_advance_back q b l :
  wf q -> size_ q < capacity_ q -> length b = length (buffer_ q) ->
  wf (mk_state b (front_ q) ((back_ q + 1) mod capacity_ q) (capacity_ q)
        (size_ q + 1) l).
Proof.
  intros (Hlen & Hsz & Hf & Hb & Hz & Hp & Hmax) Hlt Hb'. unfold wf; simpl.
  pose proof (Z.mod_pos_bound (back_ q + 1) (capacity_ q)).
  repeat split; try lia.
Qed.

Lemma ring_advance_back q b l :
  ring q -> size_ q < capacity_ q -> length b = length (buffer_ q) ->
  ring (mk_state b (front_ q) ((back_ q + 1) mod capacity_ q) (capacity_ q)
          (size_ q + 1) l).
Proof.
  intros [Hwf Hring] Hlt Hb'. split; [by apply wf_advance_back |]. simpl.
  intros Hc. rewrite (Hring Hc), Z.add_mod_idemp_l by lia.
  f_equal. lia.
Qed.

Lemma wf_advance_front q b l :
  wf q -> 0 < size_ q -> length b = length (buffer_ q) ->
  wf (mk_state b ((front_ q + 1) mod capacity_ q) (back_ q) (capacity_ q)
        (size_ q - 1) l).
Proof.
  intros (Hlen & Hsz & Hf & Hb & Hz & Hp & Hmax) Hlt Hb'. unfold wf; simpl.
  pose proof (Z.mod_pos_bound (front_ q + 1) (capacity_ q)).
  repeat split; try lia.
Qed.

Lemma ring_advance_front q b l :
  ring q -> 0 < size_ q -> length b = length (buffer_ q) ->
  ring (mk_state b ((front_ q + 1) mod capacity_ q) (back_ q) (capacity_ q)
          (size_ q - 1) l).
Proof.
  intros [Hwf Hring] Hlt Hb'. split; [by apply wf_advance_front |]. simpl.
  intros Hc. rewrite (Hring Hc), Z.add_mod_idemp_l by lia.
  f_equal. lia.
Qed.

Lemma wf_ctor : wf (@mk_state T [] 0 0 0 0 []).
Proof. unfold wf; simpl. lia. Qed.

Lemma ring_ctor : ring (@mk_state T [] 0 0 0 0 []).
Proof. split; [apply wf_ctor | simpl; lia]. Qed.

(** The state [should_reallocate] leaves when it allocates. *)
Lemma ring_grown q b l :
  wf q -> 2 * capacity_ q <= INT_MAX ->
  Z.of_nat (length b) = Z.max 2 (2 * capacity_ q) ->
  ring (mk_state b 0 (size_ q) (Z.max 2 (2 * capacity_ q)) (size_ q) l).
Proof.
  intros (Hlen & Hsz & Hf & Hb & Hz & Hp & Hmax) Hfit Hb'.
  unfold ring, wf; simpl.
  repeat split; try lia.
  intros _. rewrite Z.mod_small; lia.
Qed.

Lemma capacity_new_max (c : Z) :
  0 <= c -> 2 * c <= INT_MAX ->
  (if c =? 0 then 2 else int (c * 2)) = Z.max 2 (2 * c).
Proof.
  intros H Hfit. destruct (Z.eqb_spec c 0); [lia |].
  rewrite int_fits; lia.
Qed.

(** Beyond that, the capacity asked for is negative. *)
Lemma capacity_new_wraps (c : Z) :
  0 <= c <= INT_MAX -> INT_MAX < 2 * c ->
  (if c =? 0 then 2 else int (c * 2)) < 0.
Proof.
  intros H Hbig. destruct (Z.eqb_spec c 0); [lia |].
  by apply int_doubled_wraps.
Qed.

End ends.

(** ** Counting calls in a log *)

Lemma count_app (p : event -> bool) (l1 l2 : list event) :
  count p (l1 ++ l2) = count p l1 + count p l2.
Proof. induction l1 as [| e l1 IH]; simpl; [| rewrite IH]; lia. Qed.

Lemma count_replicate_false (p : event -> bool) (e : event) (n : nat) :
  p e = false -> count p (replicate n e) = 0.
Proof. intros H. induction n as [| n IH]; simpl; [| rewrite H, IH]; lia. Qed.

Lemma count_replicate_true (p : event -> bool) (e : event) (n : nat) :
  p e = true -> count p (replicate n e) = Z.of_nat n.
Proof. intros H. induction n as [| n IH]; simpl; [| rewrite H, IH]; lia. Qed.

(** ** struct queue: growth *)

Section queue_growth.
Context {T : Type}.
Implicit Types (q : state T) (b : block T).

(** The loop fills the slots [i .. i+n) of the new block from the ring and
    leaves the others alone. *)
Lemma move_elements_spec q (n : nat) :
  Z.of_nat (length (buffer_ q)) = size_ q -> 0 <= front_ q < size_ q ->
  forall (i : Z) b,
    0 <= i -> i + Z.of_nat n <= size_ q -> size_ q <= Z.of_nat (length b) ->
    exists b',
      queue.move_elements n i q b = Ok b' /\
      length b' = length b /\
      (forall j, i <= j < i + Z.of_nat n ->
         slot b' j = slot (buffer_ q) ((front_ q + j) mod size_ q)) /\
      (forall j, 0 <= j -> ~ i <= j < i + Z.of_nat n -> slot b' j = slot b j).
Proof.
  intros Hlen Hfront. induction n as [| n IH]; intros i b Hi Hin Hb.
  - exists b. simpl. repeat split; intros; lia.
  - simpl.
    pose proof (Z.mod_pos_bound (front_ q + i) (size_ q)) as Hm.
    rewrite crem_ok by lia. simpl.
    rewrite read_ok by lia. simpl.
    rewrite store_ok by lia. simpl.
    destruct (IH (i + 1)
                (<[Z.to_nat i := slot (buffer_ q) ((front_ q + i) mod size_ q)]> b))
      as (b' & Hrun & Hlen' & Hin' & Hout'); try lia.
    { rewrite length_insert. lia. }
    exists b'. split; [exact Hrun |]. split.
    { rewrite Hlen', length_insert. reflexivity. }
    split.
    + intros j Hj. destruct (Z.eq_dec j i) as [-> | Hne].
      * rewrite Hout' by lia. apply slot_insert_eq. lia.
      * apply Hin'. lia.
    + intros j Hj0 Hj. rewrite Hout' by lia. apply slot_insert_ne; lia.
Qed.

(** [should_reallocate] when the block is full and twice the capacity is
    an [int]. *)
Lemma should_reallocate_grow q :
  wf q -> size_ q = capacity_ q -> 2 * capacity_ q <= INT_MAX ->
  exists b,
    queue.should_reallocate q =
      Ok (mk_state b 0 (size_ q) (Z.max 2 (2 * capacity_ q)) (size_ q)
            (log_ q ++ Malloc (Z.max 2 (2 * capacity_ q))
                    :: replicate (Z.to_nat (size_ q)) MoveAssign ++ [Free])) /\
    Z.of_nat (length b) = Z.max 2 (2 * capacity_ q) /\
    (forall i, 0 <= i < size_ q ->
       slot b i = slot (buffer_ q) ((front_ q + i) mod capacity_ q)) /\
    (forall k, size_ q <= k -> slot b k = None).
Proof.
  intros Hwf Hfull Hfit. open_wf Hwf.
  unfold queue.should_reallocate.
  destruct (Z.eqb_spec (capacity_ q) (size_ q)) as [_ | Hne]; [| congruence].
  rewrite capacity_new_max by lia.
  rewrite malloc_granted by lia.
  destruct (Z.eq_dec (capacity_ q) 0) as [H0 | Hn0].
  - rewrite Hfull, H0. simpl. eexists. split; [reflexivity |].
    split; [reflexivity |]. split; [intros i Hi; lia |].
    intros k Hk. apply (slot_raw 2).
  - destruct (move_elements_spec q (Z.to_nat (size_ q)) ltac:(lia) ltac:(lia)
                0 (raw (Z.max 2 (2 * capacity_ q))))
      as (b' & Hrun & Hlen' & Hin' & Hout'); try lia.
    { rewrite length_raw; lia. }
    rewrite Hrun. simpl. exists b'. split; [reflexivity |]. split; [| split].
    + rewrite Hlen'. apply length_raw. lia.
    + intros i Hi. rewrite Hin' by lia. rewrite Hfull. reflexivity.
    + intros k Hk. rewrite Hout' by lia. apply slot_raw.
Qed.

(** [should_reallocate] when the block is full and twice the capacity is
    not an [int]: [malloc] returns the null pointer and the call aborts. *)
Lemma should_reallocate_abort q :
  wf q -> size_ q = capacity_ q -> INT_MAX < 2 * capacity_ q ->
  queue.should_reallocate q = Fail Aborted.
Proof.
  intros Hwf Hfull Hbig. open_wf Hwf.
  unfold queue.should_reallocate.
  destruct (Z.eqb_spec (capacity_ q) (size_ q)) as [_ | Hne]; [| congruence].
  rewrite malloc_refused; [done |]. apply capacity_new_wraps; lia.
Qed.

Lemma should_reallocate_keep q :
  size_ q <> capacity_ q -> queue.should_reallocate q = Ok q.
Proof.
  intros H. unfold queue.should_reallocate.
  destruct (Z.eqb_spec (capacity_ q) (size_ q)); [congruence | reflexivity].
Qed.

Lemma fits_dec q : fits q \/ (size_ q = capacity_ q /\ INT_MAX < 2 * capacity_ q).
Proof. unfold fits. lia. Qed.

(** A call that returns was granted its block. *)
Lemma should_reallocate_fits q q1 :
  wf q -> queue.should_reallocate q = Ok q1 -> fits q.
Proof.
  intros Hwf Hrun. destruct (fits_dec q) as [? | [Hfull Hbig]]; [done |].
  rewrite should_reallocate_abort in Hrun by done. discriminate.
Qed.

(** A call that does not return has aborted, on a full block. *)
Lemma should_reallocate_fail q f :
  wf q -> queue.should_reallocate q = Fail f ->
  f = Aborted /\ size_ q = capacity_ q /\ INT_MAX < 2 * capacity_ q.
Proof.
  intros Hwf Hrun.
  destruct (Z.eq_dec (size_ q) (capacity_ q)) as [Hfull | Hroom].
  - destruct (Z_le_gt_dec (2 * capacity_ q) INT_MAX) as [Hfit | Hbig].
    + destruct (should_reallocate_grow q Hwf Hfull Hfit) as (b & Hrun' & _).
      congruence.
    + rewrite should_reallocate_abort in Hrun by (done || lia).
      injection Hrun as <-. split; [done | lia].
  - rewrite should_reallocate_keep in Hrun by done. discriminate.
Qed.

End queue_growth.

(** ** What an append and a remove leave *)

Section appended_removed.
Context {T : Type}.
Implicit Types (q : state T) (v : option T) (l : list event).

Lemma wf_appended q v l : wf q -> size_ q < capacity_ q -> wf (appended q v l).
Proof. intros. apply wf_advance_back; [done | done | apply length_insert]. Qed.

Lemma ring_appended q v l :
  ring q -> size_ q < capacity_ q -> ring (appended q v l).
Proof. intros. apply ring_advance_back; [done | done | apply length_insert]. Qed.

Lemma wf_removed q v l : wf q -> 0 < size_ q -> wf (removed q v l).
Proof. intros. apply wf_advance_front; [done | done | apply length_insert]. Qed.

Lemma ring_removed q v l : ring q -> 0 < size_ q -> ring (removed q v l).
Proof. intros. apply ring_advance_front; [done | done | apply length_insert]. Qed.

(** An append that stores nothing leaves the block as it is. *)
Lemma appended_same_slot q l :
  wf q -> 0 < capacity_ q ->
  appended q (slot (buffer_ q) (back_ q)) l =
  mk_state (buffer_ q) (front_ q) ((back_ q + 1) mod capacity_ q)
    (capacity_ q) (size_ q + 1) l.
Proof.
  intros (Hlen & Hsz & Hf & Hb & Hz & Hp & Hmax) Hc. unfold appended. f_equal.
  apply list_insert_id. unfold slot.
  destruct (buffer_ q !! Z.to_nat (back_ q)) as [o |] eqn:E; [reflexivity |].
  apply lookup_ge_None_1 in E. lia.
Qed.

Lemma removed_same_slot q l :
  wf q -> 0 < capacity_ q ->
  removed q (slot (buffer_ q) (front_ q)) l =
  mk_state (buffer_ q) ((front_ q + 1) mod capacity_ q) (back_ q)
    (capacity_ q) (size_ q - 1) l.
Proof.
  intros (Hlen & Hsz & Hf & Hb & Hz & Hp & Hmax) Hc. unfold removed. f_equal.
  apply list_insert_id. unfold slot.
  destruct (buffer_ q !! Z.to_nat (front_ q)) as [o |] eqn:E; [reflexivity |].
  apply lookup_ge_None_1 in E. lia.
Qed.

(** The live slots of a ring are not the slot an append writes. *)
Lemma appended_slot_live q v l (i : Z) :
  ring q -> size_ q < capacity_ q -> 0 <= i < size_ q ->
  slot (buffer_ (appended q v l)) ((front_ q + i) mod capacity_ q) =
  slot (buffer_ q) ((front_ q + i) mod capacity_ q).
Proof.
  intros [(Hlen & Hsz & Hf & Hb & Hz & Hp & Hmax) Hring] Hroom Hi. simpl.
  pose proof (Z.mod_pos_bound (front_ q + i) (capacity_ q)).
  apply slot_insert_ne; try lia.
  rewrite Hring by lia. intros E.
  apply ring_slots_distinct in E; lia.
Qed.

Lemma appended_slot_new q v l :
  ring q -> size_ q < capacity_ q ->
  slot (buffer_ (appended q v l)) ((front_ q + size_ q) mod capacity_ q) = v.
Proof.
  intros [(Hlen & Hsz & Hf & Hb & Hz & Hp & Hmax) Hring] Hroom. simpl.
  rewrite <- Hring by lia. apply slot_insert_eq. lia.
Qed.

End appended_removed.

(** ** struct queue: the member functions on well-formed instances *)

Section queue_members.
Context {T : Type}.
Variable T_default : T.
Implicit Types (q : state T) (data : T).

Lemma queue_reallocated q :
  wf q -> fits q ->
  exists q1, queue.should_reallocate q = Ok q1 /\ reallocated q q1.
Proof.
  intros Hwf Hfits. open_wf Hwf.
  destruct (Z.eq_dec (size_ q) (capacity_ q)) as [Hfull | Hroom].
  - pose proof (Hfits Hfull) as Hfit.
    destruct (should_reallocate_grow q Hwf Hfull Hfit)
      as (b & Hrun & Hlen' & _).
    eexists. split; [exact Hrun |].
    pose proof (ring_grown q b
      (log_ q ++ Malloc (Z.max 2 (2 * capacity_ q))
              :: replicate (Z.to_nat (size_ q)) MoveAssign ++ [Free])
      Hwf Hfit Hlen') as Hring.
    split; simpl; try (rewrite (proj2 (Z.eqb_eq _ _) Hfull)); try lia.
    + apply Hring.
    + intros _. exact Hring.
    + unfold allocations. rewrite count_app. simpl. rewrite count_app.
      rewrite count_replicate_false by reflexivity. simpl. lia.
    + unfold balance. rewrite !count_app. simpl. rewrite !count_app.
      rewrite !count_replicate_false by reflexivity. simpl. lia.
  - exists q. split; [by apply should_reallocate_keep |].
    split; try done; try lia;
      destruct (Z.eqb_spec (size_ q) (capacity_ q)); lia.
Qed.

(** Every live element keeps its logical position across
    [should_reallocate]. *)
Lemma queue_reallocated_slots q q1 :
  wf q -> queue.should_reallocate q = Ok q1 ->
  forall i, 0 <= i < size_ q ->
    slot (buffer_ q1) ((front_ q1 + i) mod capacity_ q1) =
    slot (buffer_ q) ((front_ q + i) mod capacity_ q).
Proof.
  intros Hwf Hrun i Hi. open_wf Hwf.
  destruct (Z.eq_dec (size_ q) (capacity_ q)) as [Hfull | Hroom].
  - pose proof (should_reallocate_fits q q1 Hwf Hrun Hfull) as Hfit.
    destruct (should_reallocate_grow q Hwf Hfull Hfit)
      as (b & Hrun' & Hlen' & Hs & _).
    rewrite Hrun' in Hrun. injection Hrun as <-. simpl.
    rewrite Z.mod_small by lia. apply Hs. lia.
  - rewrite should_reallocate_keep in Hrun by done. injection Hrun as <-.
    reflexivity.
Qed.

Lemma queue_push_back_eq q data :
  wf q -> fits q ->
  exists q1,
    queue.should_reallocate q = Ok q1 /\ reallocated q q1 /\
    queue.push_back q data =
      Ok (appended q1 (Some data) (log_ q1 ++ [CopyAssign])).
Proof.
  intros Hwf Hfits.
  destruct (queue_reallocated q Hwf Hfits) as (q1 & Hrun & Hra).
  exists q1. split; [exact Hrun |]. split; [exact Hra |].
  destruct Hra as [(Hlen & Hsz & Hf & Hb & Hz & Hp & Hmax) _ _ Hroom _ _ _ _ _].
  unfold queue.push_back. rewrite Hrun. simpl. prims. reflexivity.
Qed.

Lemma queue_push_back_move_eq q data :
  wf q -> fits q ->
  exists q1,
    queue.should_reallocate q = Ok q1 /\ reallocated q q1 /\
    queue.push_back_move q data =
      Ok (appended q1 (Some data) (log_ q1 ++ [MoveAssign])).
Proof.
  intros Hwf Hfits.
  destruct (queue_reallocated q Hwf Hfits) as (q1 & Hrun & Hra).
  exists q1. split; [exact Hrun |]. split; [exact Hra |].
  destruct Hra as [(Hlen & Hsz & Hf & Hb & Hz & Hp & Hmax) _ _ Hroom _ _ _ _ _].
  unfold queue.push_back_move. rewrite Hrun. simpl. prims. reflexivity.
Qed.

Lemma queue_emplace_back_eq q :
  wf q -> fits q ->
  exists q1,
    queue.should_reallocate q = Ok q1 /\ reallocated q q1 /\
    queue.emplace_back T_default q =
      Ok (appended q1 (Some T_default) (log_ q1 ++ [Construct]), back_ q1).
Proof.
  intros Hwf Hfits.
  destruct (queue_reallocated q Hwf Hfits) as (q1 & Hrun & Hra).
  exists q1. split; [exact Hrun |]. split; [exact Hra |].
  destruct Hra as [(Hlen & Hsz & Hf & Hb & Hz & Hp & Hmax) _ _ Hroom _ _ _ _ _].
  unfold queue.emplace_back. rewrite Hrun. simpl. prims. reflexivity.
Qed.

Lemma queue_pop_eq q :
  wf q -> 0 < size_ q ->
  queue.pop q = Ok (removed q None (log_ q ++ [Destruct])).
Proof.
  intros (Hlen & Hsz & Hf & Hb & Hz & Hp & Hmax) Hpos. unfold queue.pop.
  destruct (Z.eqb_spec (size_ q) 0) as [? | _]; [lia |]. simpl.
  prims. reflexivity.
Qed.

Lemma queue_pop_empty q : size_ q = 0 -> queue.pop q = Fail AssertionFailed.
Proof. intros H. unfold queue.pop. rewrite H. reflexivity. Qed.

(** The loop of [clear] empties the queue when it has one round per live
    element. *)
Lemma queue_pop_while_spec (fuel : nat) :
  forall q, wf q -> size_ q <= Z.of_nat fuel ->
  exists q',
    queue.pop_while fuel q = Ok q' /\ wf q' /\ size_ q' = 0 /\
    capacity_ q' = capacity_ q /\
    allocations (log_ q') = allocations (log_ q) /\
    balance (log_ q') = balance (log_ q) - size_ q.
Proof.
  induction fuel as [| fuel IH]; intros q Hwf Hfuel.
  - exists q. pose proof Hwf as (_ & Hsz & _). simpl in *.
    split; [reflexivity |]. split; [exact Hwf |]. repeat split; lia.
  - simpl. destruct (Z.ltb_spec 0 (size_ q)) as [Hpos | Hzero].
    + rewrite queue_pop_eq by done. simpl.
      destruct (IH (removed q None (log_ q ++ [Destruct])))
        as (q' & Hrun & Hwf' & Hsize & Hcap & Hal & Hbal).
      { by apply wf_removed. }
      { simpl. lia. }
      exists q'. split; [exact Hrun |]. split; [exact Hwf' |].
      split; [exact Hsize |]. split; [exact Hcap |]. split.
      * rewrite Hal. simpl. unfold allocations. rewrite count_app. simpl. lia.
      * rewrite Hbal. simpl. unfold balance. rewrite !count_app. simpl. lia.
    + exists q. pose proof Hwf as (_ & Hsz & _).
      split; [reflexivity |]. split; [exact Hwf |]. repeat split; lia.
Qed.

Lemma queue_clear_spec q :
  wf q ->
  exists q',
    queue.clear q = Ok q' /\ ring q' /\ size_ q' = 0 /\
    front_ q' = 0 /\ back_ q' = 0 /\ capacity_ q' = capacity_ q /\
    allocations (log_ q') = allocations (log_ q) /\
    balance (log_ q') = balance (log_ q) - size_ q.
Proof.
  intros Hwf.
  destruct (queue_pop_while_spec (Z.to_nat (size_ q)) q Hwf ltac:(lia))
    as (q' & Hrun & Hwf' & Hsize & Hcap & Hal & Hbal).
  unfold queue.clear. rewrite Hrun. simpl. eexists. split; [reflexivity |].
  simpl. destruct Hwf' as (Hlen & Hsz & Hf & Hb & Hz & Hp & Hmax).
  repeat split; simpl; try done; try lia.
  intros Hc. rewrite Hsize. rewrite Z.mod_small; lia.
Qed.

End queue_members.

(** ** struct queue: sequences of calls *)

Section queue_runs.
Context {T : Type}.
Variable T_default : T.
Implicit Types (q : state T) (o : @queue.op T) (ops : list (@queue.op T)).

Lemma queue_append_eq q o :
  wf q -> queue.is_append o = true -> fits q ->
  exists q1,
    queue.should_reallocate q = Ok q1 /\ reallocated q q1 /\
    queue.step T_default q o =
      Ok (appended q1 (queue.stored T_default o)
            (log_ q1 ++ [queue.logged o])).
Proof.
  intros Hwf Ho Hfits.
  destruct o as [data | data | | |]; try discriminate; simpl.
  - by apply queue_push_back_eq.
  - by apply queue_push_back_move_eq.
  - destruct (queue_emplace_back_eq T_default q Hwf Hfits)
      as (q1 & H1 & H2 & H3).
    exists q1. rewrite H3. done.
Qed.

(** An append whose growth is refused aborts. *)
Lemma queue_append_abort q o :
  wf q -> queue.is_append o = true ->
  size_ q = capacity_ q -> INT_MAX < 2 * capacity_ q ->
  queue.step T_default q o = Fail Aborted.
Proof.
  intros Hwf Ho Hfull Hbig.
  pose proof (should_reallocate_abort q Hwf Hfull Hbig) as Hrun.
  destruct o as [data | data | | |]; try discriminate; simpl.
  - unfold queue.push_back. by rewrite Hrun.
  - unfold queue.push_back_move. by rewrite Hrun.
  - unfold queue.emplace_back. by rewrite Hrun.
Qed.

Lemma queue_append_fits q o q' :
  wf q -> queue.is_append o = true ->
  queue.step T_default q o = Ok q' -> fits q.
Proof.
  intros Hwf Ho Hstep. destruct (fits_dec q) as [? | [Hfull Hbig]]; [done |].
  rewrite queue_append_abort in Hstep by done. discriminate.
Qed.

(** An append that returns. *)
Lemma queue_append_inv q o q' :
  wf q -> queue.is_append o = true ->
  queue.step T_default q o = Ok q' ->
  exists q1,
    queue.should_reallocate q = Ok q1 /\ reallocated q q1 /\
    queue.step T_default q o =
      Ok (appended q1 (queue.stored T_default o)
            (log_ q1 ++ [queue.logged o])).
Proof.
  intros Hwf Ho Hstep. apply queue_append_eq; [done | done |].
  by apply (queue_append_fits q o q').
Qed.

Lemma queue_step_ring q o q' :
  ring q -> queue.step T_default q o = Ok q' ->
  ring q' /\ capacity_ q <= capacity_ q'.
Proof.
  intros Hring Hstep. pose proof Hring as [Hwf _].
  open_wf Hwf.
  destruct (queue.is_append o) eqn:Ho.
  - destruct (queue_append_inv q o _ Hwf Ho Hstep) as (q1 & _ & Hra & Heq).
    rewrite Heq in Hstep. injection Hstep as <-.
    destruct Hra as [Hwf1 Hring1 _ Hroom Hcap _ _ _ _].
    split; [apply ring_appended; auto |]. simpl. rewrite Hcap.
    destruct (size_ q =? capacity_ q); lia.
  - destruct o as [data | data | | |]; try discriminate; simpl in Hstep.
    + destruct (Z.eq_dec (size_ q) 0) as [H0 | Hn0].
      { rewrite queue_pop_empty in Hstep by done. discriminate. }
      rewrite queue_pop_eq in Hstep by (done || lia). injection Hstep as <-.
      split; [apply ring_removed; [done | lia] | simpl; lia].
    + destruct (queue_clear_spec q Hwf) as (q2 & Hrun & Hr2 & _ & _ & _ & Hc & _).
      rewrite Hrun in Hstep. injection Hstep as <-. split; [done | lia].
Qed.

Lemma queue_run_ring ops :
  forall q q', ring q -> queue.run T_default q ops = Ok q' ->
  ring q' /\ capacity_ q <= capacity_ q'.
Proof.
  induction ops as [| o ops IH]; intros q q' Hring Hrun; simpl in Hrun.
  - injection Hrun as <-. split; [done | lia].
  - apply bind_Ok in Hrun as (q1 & Hstep & Hrun).
    destruct (queue_step_ring q o q1 Hring Hstep) as [Hring1 Hcap1].
    destruct (IH q1 q' Hring1 Hrun) as [Hring' Hcap']. split; [done | lia].
Qed.

Lemma queue_reachable_ring ops q :
  queue.run T_default queue.ctor ops = Ok q -> ring q.
Proof. intros H. eapply queue_run_ring; [apply ring_ctor | exact H]. Qed.

(** The calls that can fail on a well-formed instance are a [pop] of an
    empty one, which fails its assertion, and an append to a full one, which
    aborts when it is refused the larger block. *)
Lemma queue_step_fail q o f :
  wf q -> queue.step T_default q o = Fail f ->
  (o = queue.Pop /\ size_ q = 0 /\ f = AssertionFailed) \/
  (queue.is_append o = true /\ size_ q = capacity_ q /\ f = Aborted).
Proof.
  intros Hwf Hstep. open_wf Hwf.
  destruct (queue.is_append o) eqn:Ho.
  - right. destruct (fits_dec q) as [Hfits | [Hfull Hbig]].
    + destruct (queue_append_eq q o Hwf Ho Hfits) as (q1 & _ & _ & Heq).
      congruence.
    + rewrite queue_append_abort in Hstep by done. by injection Hstep as <-.
  - left. destruct o as [data | data | | |]; try discriminate; simpl in Hstep.
    + destruct (Z.eq_dec (size_ q) 0) as [H0 | Hn0].
      * rewrite queue_pop_empty in Hstep by done. by injection Hstep as <-.
      * rewrite queue_pop_eq in Hstep by (done || lia). discriminate.
    + destruct (queue_clear_spec q Hwf) as (q2 & Hrun & _). congruence.
Qed.

End queue_runs.

(** ** The accessors, which both structs define alike *)

Section accessors.
Context {T : Type}.
Implicit Types (q : state T).

Lemma trivial_front_eq q : queue_trivial.front q = queue.front q.
Proof. reflexivity. Qed.

Lemma trivial_back_eq q : queue_trivial.back q = queue.back q.
Proof. reflexivity. Qed.

Lemma trivial_subscript_eq q i :
  queue_trivial.subscript q i = queue.subscript q i.
Proof. reflexivity. Qed.

Lemma trivial_get_eq q i : queue_trivial.get q i = queue.get q i.
Proof. reflexivity. Qed.

Lemma subscript_ok q i :
  wf q -> 0 <= i < size_ q ->
  queue.subscript q i = Ok ((front_ q + i) mod capacity_ q).
Proof.
  intros (Hlen & Hsz & Hf & Hb & Hz & Hp & Hmax) Hi. unfold queue.subscript.
  destruct (Z.geb_spec i 0); [| lia].
  destruct (Z.ltb_spec i (size_ q)); [| lia]. simpl.
  rewrite crem_ok by lia. simpl.
  pose proof (Z.mod_pos_bound (front_ q + i) (capacity_ q)).
  apply ref_ok. lia.
Qed.

Lemma subscript_out_of_range q i :
  i < 0 \/ size_ q <= i -> queue.subscript q i = Fail AssertionFailed.
Proof.
  intros Hi. unfold queue.subscript.
  destruct (Z.geb_spec i 0); destruct (Z.ltb_spec i (size_ q));
    try reflexivity; lia.
Qed.

Lemma get_ok q i :
  wf q -> 0 <= i < size_ q ->
  queue.get q i = Ok (slot (buffer_ q) ((front_ q + i) mod capacity_ q)).
Proof.
  intros Hwf Hi. unfold queue.get. rewrite subscript_ok by done. simpl.
  destruct Hwf as (Hlen & Hsz & Hf & Hb & Hz & Hp & Hmax).
  pose proof (Z.mod_pos_bound (front_ q + i) (capacity_ q)).
  apply read_ok. lia.
Qed.

Lemma front_ok q : wf q -> 0 < size_ q -> queue.front q = Ok (front_ q).
Proof.
  intros (Hlen & Hsz & Hf & Hb & Hz & Hp & Hmax) Hpos. unfold queue.front.
  destruct (Z.eqb_spec (size_ q) 0); [lia |]. simpl. apply ref_ok. lia.
Qed.

Lemma back_ok q :
  wf q -> 0 < size_ q ->
  queue.back q = Ok ((back_ q + (size_ q - 1)) mod capacity_ q).
Proof.
  intros (Hlen & Hsz & Hf & Hb & Hz & Hp & Hmax) Hpos. unfold queue.back.
  destruct (Z.eqb_spec (size_ q) 0); [lia |]. simpl.
  rewrite crem_ok by lia. simpl.
  pose proof (Z.mod_pos_bound (back_ q + (size_ q - 1)) (capacity_ q)).
  apply ref_ok. lia.
Qed.

Lemma front_empty q : size_ q = 0 -> queue.front q = Fail AssertionFailed.
Proof. intros H. unfold queue.front. rewrite H. reflexivity. Qed.

Lemma back_empty q : size_ q = 0 -> queue.back q = Fail AssertionFailed.
Proof. intros H. unfold queue.back. rewrite H. reflexivity. Qed.

(** Reading a ring after an append: the old positions and the new one. *)
Lemma get_appended_old q v l i :
  ring q -> size_ q < capacity_ q -> 0 <= i < size_ q ->
  queue.get (appended q v l) i = queue.get q i.
Proof.
  intros Hring Hroom Hi. pose proof Hring as [Hwf _].
  rewrite !get_ok; try done.
  - f_equal. apply (appended_slot_live q v l i); done.
  - by apply wf_appended.
  - simpl. lia.
Qed.

Lemma get_appended_new q v l :
  ring q -> size_ q < capacity_ q ->
  queue.get (appended q v l) (size_ q) = Ok v.
Proof.
  intros Hring Hroom. pose proof Hring as [Hwf _].
  open_wf Hwf.
  rewrite get_ok.
  - f_equal. apply (appended_slot_new q v l); done.
  - by apply wf_appended.
  - simpl. lia.
Qed.

End accessors.

(** ** struct queue_trivial: growth *)

Section trivial_growth.
Context {T : Type}.
Implicit Types (q : state T) (b dst src : block T).

Lemma memcpy_spec dst src (n : Z) :
  0 <= n -> n <= Z.of_nat (length src) -> n <= Z.of_nat (length dst) ->
  exists b,
    memcpy dst src n = Ok b /\ length b = length dst /\
    (forall i, 0 <= i < n -> slot b i = slot src i) /\
    (forall i, n <= i -> slot b i = slot dst i).
Proof.
  intros Hn Hsrc Hdst. unfold memcpy.
  destruct (Z.leb_spec 0 n); [| lia].
  destruct (Z.leb_spec n (Z.of_nat (length src))); [| lia].
  destruct (Z.leb_spec n (Z.of_nat (length dst))); [| lia]. simpl.
  eexists. split; [reflexivity |]. split; [| split].
  - rewrite length_app, length_take, length_drop. lia.
  - intros i Hi. unfold slot.
    rewrite lookup_app_l by (rewrite length_take; lia).
    rewrite lookup_take_lt by lia. reflexivity.
  - intros i Hi. unfold slot.
    rewrite lookup_app_r by (rewrite length_take; lia).
    rewrite lookup_drop, length_take. do 2 f_equal. lia.
Qed.

(** [should_reallocate] when the block is full: the new block starts with
    the old block, slot for slot. *)
Lemma trivial_should_reallocate_grow q :
  wf q -> size_ q = capacity_ q -> 2 * capacity_ q <= INT_MAX ->
  exists b,
    queue_trivial.should_reallocate q =
      Ok (mk_state b 0 (size_ q) (Z.max 2 (2 * capacity_ q)) (size_ q)
            (log_ q ++ [Malloc (Z.max 2 (2 * capacity_ q));
                        Memcpy (size_ q); Free])) /\
    Z.of_nat (length b) = Z.max 2 (2 * capacity_ q) /\
    (forall i, 0 <= i < size_ q -> slot b i = slot (buffer_ q) i).
Proof.
  intros Hwf Hfull Hfit. open_wf Hwf.
  unfold queue_trivial.should_reallocate.
  destruct (Z.eqb_spec (capacity_ q) (size_ q)) as [_ | Hne]; [| congruence].
  rewrite capacity_new_max by lia.
  rewrite malloc_granted by lia.
  destruct (memcpy_spec (raw (Z.max 2 (2 * capacity_ q))) (buffer_ q)
              (size_ q)) as (b & Hrun & Hlen' & Hin & _); try lia.
  { rewrite length_raw; lia. }
  rewrite Hrun. simpl. exists b. split; [reflexivity |]. split.
  - rewrite Hlen'. apply length_raw. lia.
  - exact Hin.
Qed.

Lemma trivial_should_reallocate_abort q :
  wf q -> size_ q = capacity_ q -> INT_MAX < 2 * capacity_ q ->
  queue_trivial.should_reallocate q = Fail Aborted.
Proof.
  intros Hwf Hfull Hbig. open_wf Hwf.
  unfold queue_trivial.should_reallocate.
  destruct (Z.eqb_spec (capacity_ q) (size_ q)) as [_ | Hne]; [| congruence].
  rewrite malloc_refused; [done |]. apply capacity_new_wraps; lia.
Qed.

Lemma trivial_should_reallocate_keep q :
  size_ q <> capacity_ q -> queue_trivial.should_reallocate q = Ok q.
Proof.
  intros H. unfold queue_trivial.should_reallocate.
  destruct (Z.eqb_spec (capacity_ q) (size_ q)); [congruence | reflexivity].
Qed.

Lemma trivial_should_reallocate_fits q q1 :
  wf q -> queue_trivial.should_reallocate q = Ok q1 -> fits q.
Proof.
  intros Hwf Hrun. destruct (fits_dec q) as [? | [Hfull Hbig]]; [done |].
  rewrite trivial_should_reallocate_abort in Hrun by done. discriminate.
Qed.

Lemma trivial_should_reallocate_fail q f :
  wf q -> queue_trivial.should_reallocate q = Fail f ->
  f = Aborted /\ size_ q = capacity_ q /\ INT_MAX < 2 * capacity_ q.
Proof.
  intros Hwf Hrun.
  destruct (Z.eq_dec (size_ q) (capacity_ q)) as [Hfull | Hroom].
  - destruct (Z_le_gt_dec (2 * capacity_ q) INT_MAX) as [Hfit | Hbig].
    + destruct (trivial_should_reallocate_grow q Hwf Hfull Hfit)
        as (b & Hrun' & _).
      congruence.
    + rewrite trivial_should_reallocate_abort in Hrun by (done || lia).
      injection Hrun as <-. split; [done | lia].
  - rewrite trivial_should_reallocate_keep in Hrun by done. discriminate.
Qed.

Lemma trivial_reallocated q :
  wf q -> fits q ->
  exists q1, queue_trivial.should_reallocate q = Ok q1 /\ reallocated q q1.
Proof.
  intros Hwf Hfits. open_wf Hwf.
  destruct (Z.eq_dec (size_ q) (capacity_ q)) as [Hfull | Hroom].
  - pose proof (Hfits Hfull) as Hfit.
    destruct (trivial_should_reallocate_grow q Hwf Hfull Hfit)
      as (b & Hrun & Hlen' & _).
    eexists. split; [exact Hrun |].
    pose proof (ring_grown q b
      (log_ q ++ [Malloc (Z.max 2 (2 * capacity_ q)); Memcpy (size_ q); Free])
      Hwf Hfit Hlen') as Hring.
    split; simpl; try (rewrite (proj2 (Z.eqb_eq _ _) Hfull)); try lia.
    + apply Hring.
    + intros _. exact Hring.
    + unfold allocations. rewrite count_app. simpl. lia.
    + unfold balance. rewrite !count_app. simpl. lia.
  - exists q. split; [by apply trivial_should_reallocate_keep |].
    split; try done; try lia;
      destruct (Z.eqb_spec (size_ q) (capacity_ q)); lia.
Qed.

(** The live elements keep their logical positions across
    [should_reallocate] when the live range starts at slot 0 or the block
    is kept. *)
Lemma trivial_reallocated_slots q q1 :
  wf q -> queue_trivial.should_reallocate q = Ok q1 ->
  front_ q = 0 \/ size_ q <> capacity_ q ->
  forall i, 0 <= i < size_ q ->
    slot (buffer_ q1) ((front_ q1 + i) mod capacity_ q1) =
    slot (buffer_ q) ((front_ q + i) mod capacity_ q).
Proof.
  intros Hwf Hrun Hcase i Hi.
  open_wf Hwf.
  destruct (Z.eq_dec (size_ q) (capacity_ q)) as [Hfull | Hroom].
  - destruct Hcase as [Hfront | ?]; [| done].
    pose proof (trivial_should_reallocate_fits q q1 Hwf Hrun Hfull) as Hfit.
    destruct (trivial_should_reallocate_grow q Hwf Hfull Hfit)
      as (b & Hrun' & Hlen' & Hs).
    rewrite Hrun' in Hrun. injection Hrun as <-. simpl.
    rewrite Hfront. rewrite !Z.mod_small by lia. apply Hs. lia.
  - rewrite trivial_should_reallocate_keep in Hrun by done.
    injection Hrun as <-. reflexivity.
Qed.

End trivial_growth.

(** ** struct queue_trivial: the member functions and sequences of calls *)

Section trivial_runs.
Context {T : Type}.
Implicit Types (q : state T) (o : @queue_trivial.op T)
  (ops : list (@queue_trivial.op T)).

Lemma trivial_append_eq q o :
  wf q -> queue_trivial.is_append o = true -> fits q ->
  exists q1,
    queue_trivial.should_reallocate q = Ok q1 /\ reallocated q q1 /\
    queue_trivial.step q o =
      Ok (appended q1
            (queue_trivial.stored (slot (buffer_ q1) (back_ q1)) o)
            (log_ q1)).
Proof.
  intros Hwf Ho Hfits.
  destruct (trivial_reallocated q Hwf Hfits) as (q1 & Hrun & Hra).
  exists q1. split; [exact Hrun |]. split; [exact Hra |].
  pose proof Hra as [Hwf1 _ _ Hroom _ _ _ _ _].
  pose proof Hwf1 as (Hlen & Hsz & Hf & Hb & Hz & Hp & Hmax).
  destruct o as [data | init | | deinit | |]; try discriminate; simpl.
  - unfold queue_trivial.push_back. rewrite Hrun. simpl. prims. reflexivity.
  - unfold queue_trivial.emplace_back_init. rewrite Hrun. simpl. prims.
    reflexivity.
  - unfold queue_trivial.emplace_back. rewrite Hrun. simpl. prims.
    rewrite appended_same_slot by (done || lia). reflexivity.
Qed.

(** An append whose growth is refused aborts. *)
Lemma trivial_append_abort q o :
  wf q -> queue_trivial.is_append o = true ->
  size_ q = capacity_ q -> INT_MAX < 2 * capacity_ q ->
  queue_trivial.step q o = Fail Aborted.
Proof.
  intros Hwf Ho Hfull Hbig.
  pose proof (trivial_should_reallocate_abort q Hwf Hfull Hbig) as Hrun.
  destruct o as [data | init | | deinit | |]; try discriminate; simpl.
  - unfold queue_trivial.push_back. by rewrite Hrun.
  - unfold queue_trivial.emplace_back_init. by rewrite Hrun.
  - unfold queue_trivial.emplace_back. by rewrite Hrun.
Qed.

Lemma trivial_append_fits q o q' :
  wf q -> queue_trivial.is_append o = true ->
  queue_trivial.step q o = Ok q' -> fits q.
Proof.
  intros Hwf Ho Hstep. destruct (fits_dec q) as [? | [Hfull Hbig]]; [done |].
  rewrite trivial_append_abort in Hstep by done. discriminate.
Qed.

(** An append that returns. *)
Lemma trivial_append_inv q o q' :
  wf q -> queue_trivial.is_append o = true ->
  queue_trivial.step q o = Ok q' ->
  exists q1,
    queue_trivial.should_reallocate q = Ok q1 /\ reallocated q q1 /\
    queue_trivial.step q o =
      Ok (appended q1
            (queue_trivial.stored (slot (buffer_ q1) (back_ q1)) o)
            (log_ q1)).
Proof.
  intros Hwf Ho Hstep. apply trivial_append_eq; [done | done |].
  by apply (trivial_append_fits q o q').
Qed.

Lemma trivial_pop_eq q :
  wf q -> 0 < size_ q ->
  queue_trivial.pop q =
    Ok (removed q (slot (buffer_ q) (front_ q)) (log_ q)).
Proof.
  intros Hwf Hpos. open_wf Hwf.
  unfold queue_trivial.pop.
  destruct (Z.eqb_spec (size_ q) 0) as [? | _]; [lia |]. simpl. prims.
  rewrite removed_same_slot by (done || lia). reflexivity.
Qed.

Lemma trivial_pop_deinit_eq q deinit :
  wf q -> 0 < size_ q ->
  queue_trivial.pop_deinit q deinit =
    Ok (removed q (deinit (slot (buffer_ q) (front_ q))) (log_ q)).
Proof.
  intros (Hlen & Hsz & Hf & Hb & Hz & Hp & Hmax) Hpos.
  unfold queue_trivial.pop_deinit.
  destruct (Z.eqb_spec (size_ q) 0) as [? | _]; [lia |]. simpl. prims.
  reflexivity.
Qed.

Lemma trivial_pop_empty q :
  size_ q = 0 -> queue_trivial.pop q = Fail AssertionFailed.
Proof. intros H. unfold queue_trivial.pop. rewrite H. reflexivity. Qed.

Lemma trivial_pop_deinit_empty q deinit :
  size_ q = 0 -> queue_trivial.pop_deinit q deinit = Fail AssertionFailed.
Proof. intros H. unfold queue_trivial.pop_deinit. rewrite H. reflexivity. Qed.

Lemma wf_trivial_clear q : wf q -> wf (queue_trivial.clear q).
Proof.
  intros (Hlen & Hsz & Hf & Hb & Hz & Hp & Hmax). unfold wf; simpl.
  repeat split; lia.
Qed.

(** Every call keeps the instance well formed and the capacity from
    shrinking. *)
Lemma trivial_step_wf q o q' :
  wf q -> queue_trivial.step q o = Ok q' ->
  wf q' /\ capacity_ q <= capacity_ q'.
Proof.
  intros Hwf Hstep. open_wf Hwf.
  destruct (queue_trivial.is_append o) eqn:Ho.
  - destruct (trivial_append_inv q o _ Hwf Ho Hstep) as (q1 & _ & Hra & Heq).
    rewrite Heq in Hstep. injection Hstep as <-.
    destruct Hra as [Hwf1 _ _ Hroom Hcap _ _ _ _].
    split; [apply wf_appended; auto |]. simpl. rewrite Hcap.
    destruct (size_ q =? capacity_ q); lia.
  - destruct o as [data | init | | deinit | |]; try discriminate;
      simpl in Hstep.
    + destruct (Z.eq_dec (size_ q) 0) as [H0 | Hn0].
      { rewrite trivial_pop_deinit_empty in Hstep by done. discriminate. }
      rewrite trivial_pop_deinit_eq in Hstep by (done || lia).
      injection Hstep as <-.
      split; [apply wf_removed; [done | lia] | simpl; lia].
    + destruct (Z.eq_dec (size_ q) 0) as [H0 | Hn0].
      { rewrite trivial_pop_empty in Hstep by done. discriminate. }
      rewrite trivial_pop_eq in Hstep by (done || lia). injection Hstep as <-.
      split; [apply wf_removed; [done | lia] | simpl; lia].
    + injection Hstep as <-. split; [by apply wf_trivial_clear | simpl; lia].
Qed.

(** Appends and removes keep the ring. *)
Lemma trivial_step_ring q o q' :
  ring q -> queue_trivial.is_clear o = false ->
  queue_trivial.step q o = Ok q' -> ring q'.
Proof.
  intros Hring Hnc Hstep. pose proof Hring as [Hwf _].
  open_wf Hwf.
  destruct (queue_trivial.is_append o) eqn:Ho.
  - destruct (trivial_append_inv q o _ Hwf Ho Hstep) as (q1 & _ & Hra & Heq).
    rewrite Heq in Hstep. injection Hstep as <-.
    destruct Hra as [Hwf1 Hring1 _ Hroom Hcap _ _ _ _].
    apply ring_appended; auto.
  - destruct o as [data | init | | deinit | |]; try discriminate;
      simpl in Hstep.
    + destruct (Z.eq_dec (size_ q) 0) as [H0 | Hn0].
      { rewrite trivial_pop_deinit_empty in Hstep by done. discriminate. }
      rewrite trivial_pop_deinit_eq in Hstep by (done || lia).
      injection Hstep as <-. apply ring_removed; [done | lia].
    + destruct (Z.eq_dec (size_ q) 0) as [H0 | Hn0].
      { rewrite trivial_pop_empty in Hstep by done. discriminate. }
      rewrite trivial_pop_eq in Hstep by (done || lia). injection Hstep as <-.
      apply ring_removed; [done | lia].
Qed.

Lemma trivial_run_wf ops :
  forall q q', wf q -> queue_trivial.run q ops = Ok q' ->
  wf q' /\ capacity_ q <= capacity_ q'.
Proof.
  induction ops as [| o ops IH]; intros q q' Hwf Hrun; simpl in Hrun.
  - injection Hrun as <-. split; [done | lia].
  - apply bind_Ok in Hrun as (q1 & Hstep & Hrun).
    destruct (trivial_step_wf q o q1 Hwf Hstep) as [Hwf1 Hcap1].
    destruct (IH q1 q' Hwf1 Hrun) as [Hwf' Hcap']. split; [done | lia].
Qed.

Lemma trivial_run_ring ops :
  forall q q', ring q -> existsb queue_trivial.is_clear ops = false ->
  queue_trivial.run q ops = Ok q' -> ring q'.
Proof.
  induction ops as [| o ops IH]; intros q q' Hring Hnc Hrun;
    simpl in Hrun, Hnc.
  - by injection Hrun as <-.
  - apply orb_false_elim in Hnc as [Hnc1 Hnc2].
    apply bind_Ok in Hrun as (q1 & Hstep & Hrun).
    eapply IH; [| exact Hnc2 | exact Hrun].
    eapply trivial_step_ring; eauto.
Qed.

Lemma trivial_reachable_wf ops q :
  queue_trivial.run queue_trivial.ctor ops = Ok q -> wf q.
Proof. intros H. eapply trivial_run_wf; [apply wf_ctor | exact H]. Qed.

(** The calls that can fail on a well-formed instance are the two [pop]s
    of an empty one, which fail their assertion, and an append to a full
    one, which aborts when it is refused the larger block. *)
Lemma trivial_step_fail q o f :
  wf q -> queue_trivial.step q o = Fail f ->
  (queue_trivial.is_append o = false /\ queue_trivial.is_clear o = false /\
   size_ q = 0 /\ f = AssertionFailed) \/
  (queue_trivial.is_append o = true /\ size_ q = capacity_ q /\ f = Aborted).
Proof.
  intros Hwf Hstep. open_wf Hwf.
  destruct (queue_trivial.is_append o) eqn:Ho.
  - right. destruct (fits_dec q) as [Hfits | [Hfull Hbig]].
    + destruct (trivial_append_eq q o Hwf Ho Hfits) as (q1 & _ & _ & Heq).
      congruence.
    + rewrite trivial_append_abort in Hstep by done. by injection Hstep as <-.
  - left. destruct o as [data | init | | deinit | |]; try discriminate;
      simpl in Hstep.
    + destruct (Z.eq_dec (size_ q) 0) as [H0 | Hn0].
      * rewrite trivial_pop_deinit_empty in Hstep by done.
        by injection Hstep as <-.
      * rewrite trivial_pop_deinit_eq in Hstep by (done || lia). discriminate.
    + destruct (Z.eq_dec (size_ q) 0) as [H0 | Hn0].
      * rewrite trivial_pop_empty in Hstep by done. by injection Hstep as <-.
      * rewrite trivial_pop_eq in Hstep by (done || lia). discriminate.
Qed.

End trivial_runs.

(** ** Appending to a ring *)

Section appends.
Context {T : Type}.
Variable T_default : T.
Implicit Types (q : state T).

Lemma queue_get_reallocated q q1 i :
  wf q -> queue.should_reallocate q = Ok q1 -> reallocated q q1 ->
  0 <= i < size_ q -> queue.get q1 i = queue.get q i.
Proof.
  intros Hwf Hrun Hra Hi. rewrite !get_ok; try done.
  - f_equal. by apply queue_reallocated_slots.
  - apply Hra.
  - rewrite (ra_size _ _ Hra). lia.
Qed.

Lemma trivial_get_reallocated q q1 i :
  wf q -> queue_trivial.should_reallocate q = Ok q1 -> reallocated q q1 ->
  front_ q = 0 \/ size_ q <> capacity_ q ->
  0 <= i < size_ q -> queue.get q1 i = queue.get q i.
Proof.
  intros Hwf Hrun Hra Hcase Hi. rewrite !get_ok; try done.
  - f_equal. by apply trivial_reallocated_slots.
  - apply Hra.
  - rewrite (ra_size _ _ Hra). lia.
Qed.

(** Appends to a ring, in the general variant: what was there stays where
    it was, and each append lands one position further. *)
Lemma queue_run_appends (ops : list (@queue.op T)) :
  forall q q', ring q -> forallb queue.is_append ops = true ->
  queue.run T_default q ops = Ok q' ->
  ring q' /\
  size_ q' = size_ q + Z.of_nat (length ops) /\
  (forall i, 0 <= i < size_ q -> queue.get q' i = queue.get q i) /\
  (forall (j : nat) o, ops !! j = Some o ->
     queue.get q' (size_ q + Z.of_nat j) = Ok (queue.stored T_default o)).
Proof.
  induction ops as [| o ops IH]; intros q q' Hring Happ Hrun; simpl in Hrun.
  - injection Hrun as <-. simpl. split; [done |]. split; [lia |].
    split; [done | intros j o Hj; discriminate].
  - simpl in Happ. apply andb_true_iff in Happ as [Ho Happ].
    pose proof Hring as [Hwf _]. pose proof Hwf as (_ & Hsz & _).
    apply bind_Ok in Hrun as (q2' & Hstep & Hrun).
    destruct (queue_append_inv T_default q o _ Hwf Ho Hstep)
      as (q1 & Hre & Hra & Heq).
    rewrite Heq in Hstep. injection Hstep as <-.
    pose proof (ra_ring _ _ Hra Hring) as Hring1.
    pose proof (ra_room _ _ Hra) as Hroom.
    pose proof (ra_size _ _ Hra) as Hsize.
    set (q2 := appended q1 (queue.stored T_default o)
                 (log_ q1 ++ [queue.logged o])) in *.
    assert (ring q2) as Hring2 by (by apply ring_appended).
    destruct (IH q2 q' Hring2 Happ Hrun) as (Hring' & Hsize' & Hold & Hnew).
    split; [exact Hring' |]. split; [| split].
    + rewrite Hsize'. simpl. lia.
    + intros i Hi. rewrite Hold by (simpl; lia).
      unfold q2. rewrite get_appended_old by (done || lia).
      by apply queue_get_reallocated.
    + intros [| j] o' Hj; simpl in Hj.
      * injection Hj as <-. rewrite Z.add_0_r, Hold by (simpl; lia).
        unfold q2. rewrite <- Hsize. by apply get_appended_new.
      * rewrite <- (Hnew j o' Hj). f_equal. simpl. lia.
Qed.

(** The same for [push_back] on the trivial variant, as long as the live
    range starts at slot 0. *)
Lemma trivial_run_pushes (xs : list T) :
  forall q q', ring q -> front_ q = 0 ->
  queue_trivial.run q (map queue_trivial.PushBack xs) = Ok q' ->
  ring q' /\ front_ q' = 0 /\
  size_ q' = size_ q + Z.of_nat (length xs) /\
  (forall i, 0 <= i < size_ q -> queue.get q' i = queue.get q i) /\
  (forall (j : nat) x, xs !! j = Some x ->
     queue.get q' (size_ q + Z.of_nat j) = Ok (Some x)).
Proof.
  induction xs as [| x xs IH]; intros q q' Hring Hfront Hrun; simpl in Hrun.
  - injection Hrun as <-. simpl. split; [done |]. split; [done |].
    split; [lia |]. split; [done | intros j o Hj; discriminate].
  - pose proof Hring as [Hwf _]. pose proof Hwf as (_ & Hsz & _).
    apply bind_Ok in Hrun as (q2' & Hstep & Hrun).
    destruct (trivial_append_inv q (queue_trivial.PushBack x) _ Hwf eq_refl
                Hstep) as (q1 & Hre & Hra & Heq).
    simpl in Heq. rewrite Heq in Hstep. injection Hstep as <-.
    pose proof (ra_ring _ _ Hra Hring) as Hring1.
    pose proof (ra_room _ _ Hra) as Hroom.
    pose proof (ra_size _ _ Hra) as Hsize.
    assert (front_ q1 = 0) as Hfront1.
    { destruct (Z.eq_dec (size_ q) (capacity_ q)) as [Hfull | Hne].
      - apply (ra_full _ _ Hra Hfull).
      - by rewrite (ra_keep _ _ Hra Hne). }
    simpl in Hrun.
    set (q2 := appended q1 (Some x) (log_ q1)) in *.
    assert (ring q2) as Hring2 by (by apply ring_appended).
    destruct (IH q2 q' Hring2 Hfront1 Hrun)
      as (Hring' & Hfront' & Hsize' & Hold & Hnew).
    split; [exact Hring' |]. split; [exact Hfront' |]. split; [| split].
    + rewrite Hsize'. simpl. lia.
    + intros i Hi. rewrite Hold by (simpl; lia).
      unfold q2. rewrite get_appended_old by (done || lia).
      apply trivial_get_reallocated; auto.
    + intros [| j] x' Hj; simpl in Hj.
      * injection Hj as <-. rewrite Z.add_0_r, Hold by (simpl; lia).
        unfold q2. rewrite <- Hsize. by apply get_appended_new.
      * rewrite <- (Hnew j x' Hj). f_equal. simpl. lia.
Qed.

(** A series of appends that does not complete has aborted. *)
Lemma queue_run_appends_fail (ops : list (@queue.op T)) :
  forall q f, ring q -> forallb queue.is_append ops = true ->
  queue.run T_default q ops = Fail f -> f = Aborted.
Proof.
  induction ops as [| o ops IH]; intros q f Hring Happ Hrun; simpl in Hrun.
  - discriminate.
  - simpl in Happ. apply andb_true_iff in Happ as [Ho Happ].
    pose proof Hring as [Hwf _].
    apply bind_Fail in Hrun as [Hstep | (q1 & Hstep & Hrun)].
    + destruct (queue_step_fail T_default q o f Hwf Hstep)
        as [(-> & _) | (_ & _ & ->)]; [discriminate | done].
    + apply (IH q1 f); [| done | done].
      by apply (queue_step_ring T_default q o q1).
Qed.

Lemma trivial_run_pushes_fail (xs : list T) :
  forall q f, ring q ->
  queue_trivial.run q (map queue_trivial.PushBack xs) = Fail f -> f = Aborted.
Proof.
  induction xs as [| x xs IH]; intros q f Hring Hrun; simpl in Hrun.
  - discriminate.
  - pose proof Hring as [Hwf _].
    apply bind_Fail in Hrun as [Hstep | (q1 & Hstep & Hrun)].
    + destruct (trivial_step_fail q (queue_trivial.PushBack x) f Hwf Hstep)
        as [(Hna & _) | (_ & _ & ->)]; [discriminate | done].
    + apply (IH q1 f); [| done].
      by apply (trivial_step_ring q (queue_trivial.PushBack x) q1).
Qed.

End appends.

(** * The behaviour of the two containers *)

(** ** back() *)

(** On a ring, [back()] denotes the slot [size_ - 1] places after [back_],
    that is [2 * size_ - 1] places after [front_]. *)
Lemma back_of_ring {T : Type} (q : state T) :
  ring q -> 0 < size_ q ->
  queue.back q = Ok ((front_ q + (2 * size_ q - 1)) mod capacity_ q).
Proof.
  intros [Hwf Hring] Hpos. open_wf Hwf.
  rewrite back_ok by done. rewrite Hring by lia.
  rewrite Z.add_mod_idemp_l by lia. do 2 f_equal. lia.
Qed.

(** It is the slot of the newest element exactly when the block is full. *)
Lemma back_is_newest_iff_full {T : Type} (q : state T) :
  ring q -> 0 < size_ q ->
  queue.back q = queue.subscript q (size_ q - 1) <-> size_ q = capacity_ q.
Proof.
  intros Hring Hpos. pose proof Hring as [Hwf _].
  open_wf Hwf.
  rewrite back_of_ring, subscript_ok by (done || lia). split.
  - intros E. injection E as E.
    replace (front_ q + (2 * size_ q - 1))
      with (front_ q + (size_ q - 1) + size_ q) in E by lia.
    set (a := front_ q + (size_ q - 1)) in *.
    destruct (Z.eq_dec (size_ q) (capacity_ q)) as [? | Hne]; [done |].
    exfalso. rewrite <- (Z.add_mod_idemp_l a) in E by lia.
    pose proof (Z.mod_pos_bound a (capacity_ q) ltac:(lia)) as Ha.
    rewrite (mod_wrap (a mod capacity_ q + size_ q)) in E by lia.
    destruct (Z.ltb_spec (a mod capacity_ q + size_ q) (capacity_ q)); lia.
  - intros E. f_equal.
    replace (front_ q + (2 * size_ q - 1))
      with (front_ q + (size_ q - 1) + 1 * capacity_ q) by lia.
    apply Z.mod_add. lia.
Qed.

(** C1 (the code departs from the claim).  After a single [push_back(7)] on
    a fresh queue of either struct, [back()] denotes slot 1, which was never
    written, whereas the newest element, at logical position [size - 1], is
    in slot [(front + size - 1) mod capacity = 0]. *)
Theorem back_after_first_push :
  queue.run 0 queue.ctor [queue.PushBack 7] = Ok q_one /\
  queue.back q_one = Ok 1 /\
  read (buffer_ q_one) 1 = Ok None /\
  (front_ q_one + size_ q_one - 1) mod capacity_ q_one = 0 /\
  queue.subscript q_one (size_ q_one - 1) = Ok 0 /\
  queue.get q_one (size_ q_one - 1) = Ok (Some 7) /\
  queue_trivial.run queue_trivial.ctor [queue_trivial.PushBack 7] = Ok t_one /\
  queue_trivial.back t_one = Ok 1 /\
  read (buffer_ t_one) 1 = Ok None /\
  (front_ t_one + size_ t_one - 1) mod capacity_ t_one = 0 /\
  queue_trivial.subscript t_one (size_ t_one - 1) = Ok 0 /\
  queue_trivial.get t_one (size_ t_one - 1) = Ok (Some 7).
Proof. vm_compute. repeat split. Qed.

(** ** queue_trivial::clear *)

(** C2 (the code departs from the claim).  [queue_trivial::clear] resets
    [front_] and [back_] and leaves [size_] as it was: after [push_back(7)]
    and [clear()] the size is still 1 and [empty()] is false, and the next
    [push_back] makes the size 2, not 1 as on an empty queue. *)
Theorem trivial_clear_keeps_size :
  (forall (T : Type) (q : state T),
     size_ (queue_trivial.clear q) = size_ q /\
     front_ (queue_trivial.clear q) = 0 /\
     back_ (queue_trivial.clear q) = 0) /\
  queue_trivial.run queue_trivial.ctor [queue_trivial.PushBack 7] = Ok t_one /\
  queue_trivial.size (queue_trivial.clear t_one) = 1 /\
  queue_trivial.empty (queue_trivial.clear t_one) = 0 /\
  queue_trivial.push_back (queue_trivial.clear t_one) 8 =
    Ok (mk_state [Some 8; None] 0 1 2 2 [Malloc 2; Memcpy 0; Free]) /\
  queue_trivial.push_back queue_trivial.ctor 8 =
    Ok (mk_state [Some 8; None] 0 1 2 1 [Malloc 2; Memcpy 0; Free]).
Proof. split; [intros T q; repeat split | vm_compute; repeat split]. Qed.

(** ** queue_trivial::should_reallocate *)

(** C3 (the code departs from the claim).  With the live range [2; 3]
    starting at slot 1 of a full block of two slots, the [memcpy] of
    [queue_trivial::should_reallocate] copies slots 0 and 1 as they lie, and
    with [front_ = 0] the two elements have changed places. *)
Theorem trivial_growth_rotates :
  queue_trivial.run queue_trivial.ctor t_wrapped_ops = Ok t_wrapped /\
  size_ t_wrapped = capacity_ t_wrapped /\
  front_ t_wrapped = 1 /\
  queue_trivial.get t_wrapped 0 = Ok (Some 2) /\
  queue_trivial.get t_wrapped 1 = Ok (Some 3) /\
  queue_trivial.should_reallocate t_wrapped = Ok t_regrown /\
  front_ t_regrown = 0 /\
  queue_trivial.get t_regrown 0 = Ok (Some 3) /\
  queue_trivial.get t_regrown 1 = Ok (Some 2).
Proof. vm_compute. repeat split. Qed.

(** ** queue::should_reallocate *)

(** C4.  When an append finds a reachable [queue] full and
    [should_reallocate] returns, its loop has moved the element of old slot
    [(front + i) mod old capacity] into new slot [i] for every [i] below
    [size]; afterwards [front_ = 0], [back_ = size_], and [q[i]] holds what
    it held before.  When the call does not return it has aborted. *)
Theorem queue_growth_keeps_elements {T : Type} (T_default : T)
  (ops : list (@queue.op T)) (q : state T) :
  queue.run T_default queue.ctor ops = Ok q ->
  size_ q = capacity_ q ->
  match queue.should_reallocate q with
  | Ok q' =>
      front_ q' = 0 /\ back_ q' = size_ q /\ size_ q' = size_ q /\
      forall i, 0 <= i < size_ q ->
        slot (buffer_ q') i =
          slot (buffer_ q) ((front_ q + i) mod capacity_ q) /\
        queue.get q' i = queue.get q i
  | Fail f => f = Aborted
  end.
Proof.
  intros Hreach Hfull. apply queue_reachable_ring in Hreach as [Hwf _].
  destruct (queue.should_reallocate q) as [q' | f] eqn:Hrun.
  - pose proof (should_reallocate_fits q q' Hwf Hrun) as Hfits.
    destruct (should_reallocate_grow q Hwf Hfull (Hfits Hfull))
      as (b & Hrun' & Hlen & Hslots & _).
    destruct (queue_reallocated q Hwf Hfits) as (q1 & Hrun1 & Hra).
    rewrite Hrun in Hrun1. injection Hrun1 as <-.
    rewrite Hrun in Hrun'. injection Hrun' as Hq'.
    rewrite Hq'. simpl. repeat split; try done.
    + by apply Hslots.
    + rewrite <- Hq'. by apply queue_get_reallocated.
  - by apply (should_reallocate_fail q f Hwf).
Qed.

Lemma queue_growth_keeps_elements_witness :
  queue.run 0 queue.ctor q_wrapped_ops = Ok q_wrapped /\
  size_ q_wrapped = capacity_ q_wrapped /\
  exists q',
    queue.should_reallocate q_wrapped = Ok q' /\
    front_ q' = 0 /\ back_ q' = size_ q_wrapped /\
    size_ q' = size_ q_wrapped /\
    forall i, 0 <= i < size_ q_wrapped ->
      slot (buffer_ q') i =
        slot (buffer_ q_wrapped)
          ((front_ q_wrapped + i) mod capacity_ q_wrapped) /\
      queue.get q' i = queue.get q_wrapped i.
Proof.
  split; [reflexivity |]. split; [reflexivity |].
  generalize (queue_growth_keeps_elements 0 q_wrapped_ops q_wrapped
                eq_refl eq_refl).
  destruct (queue.should_reallocate q_wrapped) as [q' | f] eqn:E.
  - intros H. exists q'. split; [reflexivity | exact H].
  - vm_compute in E. discriminate E.
Defined.

(** ** Calls on T *)

(** C5 (the code departs from the claim).  [queue::push_back] assigns to the
    raw slot and calls no constructor: after [push_back(7)] on a fresh queue
    the size is 1 and the instance has made no constructor call; destroying
    it then calls one destructor, which leaves the balance at -1. *)
Theorem push_back_constructs_nothing :
  queue.run 0 queue.ctor [queue.PushBack 7] = Ok q_one /\
  queue.size q_one = 1 /\
  log_ q_one = [Malloc 2; Free; CopyAssign] /\
  balance (log_ q_one) = 0 /\
  queue.dtor q_one = Ok [Malloc 2; Free; CopyAssign; Destruct; Free] /\
  balance [Malloc 2; Free; CopyAssign; Destruct; Free] = -1.
Proof. vm_compute. repeat split. Qed.

(** ** Appends and removes *)

(** C6.  After any sequence of appends and removes that runs from a fresh
    instance without a failed assertion, [0 <= size <= capacity], and, when
    [capacity > 0], [back = (front + size) mod capacity]; in both structs.
    (In [queue] the sequence may also contain [clear()]; in [queue_trivial]
    it may not.) *)
Theorem ring_after_appends_and_removes {T : Type} (T_default : T)
  (ops : list (@queue.op T)) (tops : list (@queue_trivial.op T))
  (q qt : state T) :
  queue.run T_default queue.ctor ops = Ok q ->
  existsb queue_trivial.is_clear tops = false ->
  queue_trivial.run queue_trivial.ctor tops = Ok qt ->
  (0 <= size_ q <= capacity_ q /\
   (0 < capacity_ q -> back_ q = (front_ q + size_ q) mod capacity_ q)) /\
  (0 <= size_ qt <= capacity_ qt /\
   (0 < capacity_ qt -> back_ qt = (front_ qt + size_ qt) mod capacity_ qt)).
Proof.
  intros Hq Hnc Hqt.
  apply queue_reachable_ring in Hq as [(_ & Hsz & _) Hring].
  apply (trivial_run_ring tops _ _ ring_ctor Hnc) in Hqt
    as [(_ & Hszt & _) Hringt].
  done.
Qed.

Lemma ring_after_appends_and_removes_witness :
  queue.run 0 queue.ctor q_wrapped_ops = Ok q_wrapped /\
  existsb queue_trivial.is_clear t_wrapped_ops = false /\
  queue_trivial.run queue_trivial.ctor t_wrapped_ops = Ok t_wrapped /\
  (0 <= size_ q_wrapped <= capacity_ q_wrapped /\
   (0 < capacity_ q_wrapped ->
    back_ q_wrapped =
      (front_ q_wrapped + size_ q_wrapped) mod capacity_ q_wrapped)) /\
  (0 <= size_ t_wrapped <= capacity_ t_wrapped /\
   (0 < capacity_ t_wrapped ->
    back_ t_wrapped =
      (front_ t_wrapped + size_ t_wrapped) mod capacity_ t_wrapped)).
Proof.
  do 3 (split; [reflexivity |]).
  apply (ring_after_appends_and_removes 0 q_wrapped_ops t_wrapped_ops
           q_wrapped t_wrapped); reflexivity.
Defined.

(** ** Growth policy *)

(** C7.  On a reachable instance of either struct an append that returns
    has allocated a block exactly when [size == capacity] on entry, and then
    the capacity has become [max(2, 2 * capacity)]; otherwise the capacity
    is kept.  An append that does not return has aborted in
    [should_reallocate], on a full block.  No sequence of calls makes the
    capacity smaller. *)
Theorem growth_policy {T : Type} (T_default : T)
  (ops : list (@queue.op T)) (tops : list (@queue_trivial.op T))
  (q qt : state T) (o : @queue.op T) (ot : @queue_trivial.op T) :
  queue.run T_default queue.ctor ops = Ok q ->
  queue_trivial.run queue_trivial.ctor tops = Ok qt ->
  queue.is_append o = true ->
  queue_trivial.is_append ot = true ->
  match queue.step T_default q o with
  | Ok q' =>
      allocations (log_ q') =
        allocations (log_ q) + (if size_ q =? capacity_ q then 1 else 0) /\
      capacity_ q' =
        if size_ q =? capacity_ q then Z.max 2 (2 * capacity_ q)
        else capacity_ q
  | Fail f => f = Aborted /\ size_ q = capacity_ q
  end /\
  match queue_trivial.step qt ot with
  | Ok qt' =>
      allocations (log_ qt') =
        allocations (log_ qt) + (if size_ qt =? capacity_ qt then 1 else 0) /\
      capacity_ qt' =
        if size_ qt =? capacity_ qt then Z.max 2 (2 * capacity_ qt)
        else capacity_ qt
  | Fail f => f = Aborted /\ size_ qt = capacity_ qt
  end /\
  (forall more q',
     queue.run T_default q more = Ok q' -> capacity_ q <= capacity_ q') /\
  (forall more qt',
     queue_trivial.run qt more = Ok qt' -> capacity_ qt <= capacity_ qt').
Proof.
  intros Hq Hqt Ho Hot.
  apply queue_reachable_ring in Hq as Hring. pose proof Hring as [Hwf _].
  apply trivial_reachable_wf in Hqt as Hwft.
  split; [| split; [| split]].
  - destruct (queue.step T_default q o) as [q' | f] eqn:Hstep.
    + destruct (queue_append_inv T_default q o q' Hwf Ho Hstep)
        as (q1 & _ & Hra & Heq).
      rewrite Heq in Hstep. injection Hstep as <-.
      simpl. split; [| apply Hra].
      rewrite <- (ra_allocations _ _ Hra). unfold allocations.
      rewrite count_app. simpl. destruct o; simpl; try discriminate; lia.
    + destruct (queue_step_fail T_default q o f Hwf Hstep)
        as [(-> & _) | (_ & Hfull & ->)]; [discriminate | done].
  - destruct (queue_trivial.step qt ot) as [qt' | f] eqn:Hstep.
    + destruct (trivial_append_inv qt ot qt' Hwft Hot Hstep)
        as (q1 & _ & Hra & Heq).
      rewrite Heq in Hstep. injection Hstep as <-.
      simpl. split; apply Hra.
    + destruct (trivial_step_fail qt ot f Hwft Hstep)
        as [(Hna & _) | (_ & Hfull & ->)]; [congruence | done].
  - intros more q' Hrun. by apply (queue_run_ring T_default more q q').
  - intros more qt' Hrun. by apply (trivial_run_wf more qt qt').
Qed.

Lemma growth_policy_witness :
  queue.run 0 queue.ctor q_wrapped_ops = Ok q_wrapped /\
  queue_trivial.run queue_trivial.ctor t_wrapped_ops = Ok t_wrapped /\
  (exists q',
     queue.step 0 q_wrapped (queue.PushBack 4) = Ok q' /\
     allocations (log_ q') =
       allocations (log_ q_wrapped) +
       (if size_ q_wrapped =? capacity_ q_wrapped then 1 else 0) /\
     capacity_ q' =
       if size_ q_wrapped =? capacity_ q_wrapped
       then Z.max 2 (2 * capacity_ q_wrapped)
       else capacity_ q_wrapped) /\
  (exists qt',
     queue_trivial.step t_wrapped (queue_trivial.PushBack 4) = Ok qt' /\
     allocations (log_ qt') =
       allocations (log_ t_wrapped) +
       (if size_ t_wrapped =? capacity_ t_wrapped then 1 else 0) /\
     capacity_ qt' =
       if size_ t_wrapped =? capacity_ t_wrapped
       then Z.max 2 (2 * capacity_ t_wrapped)
       else capacity_ t_wrapped) /\
  (forall more q',
     queue.run 0 q_wrapped more = Ok q' ->
     capacity_ q_wrapped <= capacity_ q') /\
  (forall more qt',
     queue_trivial.run t_wrapped more = Ok qt' ->
     capacity_ t_wrapped <= capacity_ qt').
Proof.
  do 2 (split; [reflexivity |]).
  generalize (growth_policy 0 q_wrapped_ops t_wrapped_ops q_wrapped t_wrapped
                (queue.PushBack 4) (queue_trivial.PushBack 4)
                eq_refl eq_refl eq_refl eq_refl).
  destruct (queue.step 0 q_wrapped (queue.PushBack 4)) as [q' | f] eqn:E;
    [| vm_compute in E; discriminate E].
  destruct (queue_trivial.step t_wrapped (queue_trivial.PushBack 4))
    as [qt' | ft] eqn:Et; [| vm_compute in Et; discriminate Et].
  intros (H1 & H2 & H3 & H4).
  split; [exists q'; split; [reflexivity | exact H1] |].
  split; [exists qt'; split; [reflexivity | exact H2] |].
  split; [exact H3 | exact H4].
Defined.

(** ** Preconditions *)

(** C8.  On a reachable instance of either struct, [pop], [front()] and
    [back()] fail their assertion when [size == 0], and [operator[]] fails
    its assertion when [i < 0] or [i >= size]; when [size > 0],
    respectively [0 <= i < size], the assertion holds and the call
    completes. *)
Theorem preconditions_are_asserted {T : Type} (T_default : T)
  (ops : list (@queue.op T)) (tops : list (@queue_trivial.op T))
  (q qt : state T) (i : Z) (deinit : option T -> option T) :
  queue.run T_default queue.ctor ops = Ok q ->
  queue_trivial.run queue_trivial.ctor tops = Ok qt ->
  ((size_ q = 0 ->
    queue.pop q = Fail AssertionFailed /\
    queue.front q = Fail AssertionFailed /\
    queue.back q = Fail AssertionFailed) /\
   (i < 0 \/ i >= size_ q -> queue.subscript q i = Fail AssertionFailed) /\
   (size_ q > 0 ->
    exists q' kf kb,
      queue.pop q = Ok q' /\ queue.front q = Ok kf /\ queue.back q = Ok kb) /\
   (0 <= i < size_ q -> exists k, queue.subscript q i = Ok k)) /\
  ((size_ qt = 0 ->
    queue_trivial.pop qt = Fail AssertionFailed /\
    queue_trivial.pop_deinit qt deinit = Fail AssertionFailed /\
    queue_trivial.front qt = Fail AssertionFailed /\
    queue_trivial.back qt = Fail AssertionFailed) /\
   (i < 0 \/ i >= size_ qt ->
    queue_trivial.subscript qt i = Fail AssertionFailed) /\
   (size_ qt > 0 ->
    exists qt' qt'' kf kb,
      queue_trivial.pop qt = Ok qt' /\
      queue_trivial.pop_deinit qt deinit = Ok qt'' /\
      queue_trivial.front qt = Ok kf /\ queue_trivial.back qt = Ok kb) /\
   (0 <= i < size_ qt -> exists k, queue_trivial.subscript qt i = Ok k)).
Proof.
  intros Hq Hqt.
  apply queue_reachable_ring in Hq as [Hwf _].
  apply trivial_reachable_wf in Hqt as Hwft.
  split; (split; [| split; [| split]]).
  - intros H0. by rewrite queue_pop_empty, front_empty, back_empty.
  - intros Hi. apply subscript_out_of_range. lia.
  - intros Hpos. do 3 eexists.
    rewrite queue_pop_eq, front_ok, back_ok by (done || lia). done.
  - intros Hi. eexists. by apply subscript_ok.
  - intros H0.
    rewrite trivial_pop_empty, trivial_pop_deinit_empty by done.
    rewrite trivial_front_eq, trivial_back_eq.
    by rewrite front_empty, back_empty.
  - intros Hi. rewrite trivial_subscript_eq.
    apply subscript_out_of_range. lia.
  - intros Hpos. do 4 eexists.
    rewrite trivial_pop_eq, trivial_pop_deinit_eq by (done || lia).
    rewrite trivial_front_eq, trivial_back_eq.
    rewrite front_ok, back_ok by (done || lia). done.
  - intros Hi. eexists. rewrite trivial_subscript_eq. by apply subscript_ok.
Qed.

Lemma preconditions_are_asserted_witness :
  queue.run 0 queue.ctor q_wrapped_ops = Ok q_wrapped /\
  queue_trivial.run queue_trivial.ctor t_wrapped_ops = Ok t_wrapped /\
  ((size_ q_wrapped = 0 ->
    queue.pop q_wrapped = Fail AssertionFailed /\
    queue.front q_wrapped = Fail AssertionFailed /\
    queue.back q_wrapped = Fail AssertionFailed) /\
   (1 < 0 \/ 1 >= size_ q_wrapped ->
    queue.subscript q_wrapped 1 = Fail AssertionFailed) /\
   (size_ q_wrapped > 0 ->
    exists q' kf kb,
      queue.pop q_wrapped = Ok q' /\ queue.front q_wrapped = Ok kf /\
      queue.back q_wrapped = Ok kb) /\
   (0 <= 1 < size_ q_wrapped ->
    exists k, queue.subscript q_wrapped 1 = Ok k)) /\
  ((size_ t_wrapped = 0 ->
    queue_trivial.pop t_wrapped = Fail AssertionFailed /\
    queue_trivial.pop_deinit t_wrapped (fun _ => None) =
      Fail AssertionFailed /\
    queue_trivial.front t_wrapped = Fail AssertionFailed /\
    queue_trivial.back t_wrapped = Fail AssertionFailed) /\
   (1 < 0 \/ 1 >= size_ t_wrapped ->
    queue_trivial.subscript t_wrapped 1 = Fail AssertionFailed) /\
   (size_ t_wrapped > 0 ->
    exists qt' qt'' kf kb,
      queue_trivial.pop t_wrapped = Ok qt' /\
      queue_trivial.pop_deinit t_wrapped (fun _ => None) = Ok qt'' /\
      queue_trivial.front t_wrapped = Ok kf /\
      queue_trivial.back t_wrapped = Ok kb) /\
   (0 <= 1 < size_ t_wrapped ->
    exists k, queue_trivial.subscript t_wrapped 1 = Ok k)).
Proof.
  do 2 (split; [reflexivity |]).
  apply (preconditions_are_asserted 0 q_wrapped_ops t_wrapped_ops
           q_wrapped t_wrapped 1 (fun _ => None)); reflexivity.
Defined.

(** ** Indexed access after appends *)

Lemma lookup_map {A B : Type} (f : A -> B) (l : list A) (i : nat) :
  map f l !! i = option_map f (l !! i).
Proof.
  revert i. induction l as [| a l IH]; intros [| i]; simpl; try done.
Qed.

Lemma forallb_is_append_push_op {T : Type} (xs : list (T * bool)) :
  forallb queue.is_append (map queue.push_op xs) = true.
Proof.
  induction xs as [| [x m] xs IH]; [done |]. simpl. rewrite IH.
  by destruct m.
Qed.

(** C9.  Whatever values are pushed onto a fresh instance of either struct,
    by either overload of [queue::push_back]: when all the pushes return,
    [size()] is their number and [q[i]] holds the [i]-th of them for every
    [i] below it, however many times the block was reallocated; and a series
    of pushes that does not return has aborted in [should_reallocate]. *)
Theorem pushes_are_indexed_in_order {T : Type} (T_default : T)
  (xs : list (T * bool)) :
  match queue.run T_default queue.ctor (map queue.push_op xs) with
  | Ok q =>
      queue.size q = Z.of_nat (length xs) /\
      forall (i : nat) (x : T),
        map fst xs !! i = Some x -> queue.get q (Z.of_nat i) = Ok (Some x)
  | Fail f => f = Aborted
  end /\
  match queue_trivial.run queue_trivial.ctor
          (map queue_trivial.PushBack (map fst xs)) with
  | Ok qt =>
      queue_trivial.size qt = Z.of_nat (length xs) /\
      forall (i : nat) (x : T),
        map fst xs !! i = Some x ->
        queue_trivial.get qt (Z.of_nat i) = Ok (Some x)
  | Fail f => f = Aborted
  end.
Proof.
  split.
  - destruct (queue.run T_default queue.ctor (map queue.push_op xs))
      as [q | f] eqn:Hrun.
    + destruct (queue_run_appends T_default (map queue.push_op xs)
                  queue.ctor q ring_ctor (forallb_is_append_push_op xs) Hrun)
        as (_ & Hsize & _ & Hget).
      rewrite length_map in Hsize. split; [exact Hsize |].
      intros i x Hi. rewrite lookup_map in Hi.
      destruct (xs !! i) as [[x' m] |] eqn:E; [| discriminate].
      injection Hi as <-.
      pose proof (Hget i (queue.push_op (x', m))) as H.
      change (size_ queue.ctor + Z.of_nat i) with (Z.of_nat i) in H.
      rewrite H.
      * by destruct m.
      * by rewrite lookup_map, E.
    + apply (queue_run_appends_fail T_default (map queue.push_op xs)
               queue.ctor f ring_ctor (forallb_is_append_push_op xs) Hrun).
  - destruct (queue_trivial.run queue_trivial.ctor
                (map queue_trivial.PushBack (map fst xs))) as [qt | f] eqn:Hrun.
    + destruct (trivial_run_pushes (map fst xs) queue_trivial.ctor qt
                  ring_ctor eq_refl Hrun)
        as (_ & _ & Hsize & _ & Hget).
      rewrite length_map in Hsize. split; [exact Hsize |].
      intros i x Hi. rewrite trivial_get_eq.
      change (Z.of_nat i) with (size_ (@queue_trivial.ctor T) + Z.of_nat i).
      by apply Hget.
    + apply (trivial_run_pushes_fail (map fst xs) queue_trivial.ctor f
               ring_ctor Hrun).
Qed.

(** Five pushes, by both overloads, across two reallocations. *)
Lemma pushes_are_indexed_in_order_witness :
  exists q qt : state Z,
    queue.run 0 queue.ctor (map queue.push_op five_pushes) = Ok q /\
    queue_trivial.run queue_trivial.ctor
      (map queue_trivial.PushBack (map fst five_pushes)) = Ok qt /\
    allocations (log_ q) = 3 /\ allocations (log_ qt) = 3 /\
    queue.size q = 5 /\ queue_trivial.size qt = 5 /\
    forall (i : nat) (x : Z),
      map fst five_pushes !! i = Some x ->
      queue.get q (Z.of_nat i) = Ok (Some x) /\
      queue_trivial.get qt (Z.of_nat i) = Ok (Some x).
Proof.
  generalize (pushes_are_indexed_in_order 0 five_pushes).
  destruct (queue.run 0 queue.ctor (map queue.push_op five_pushes))
    as [q | f] eqn:E; [| vm_compute in E; discriminate E].
  destruct (queue_trivial.run queue_trivial.ctor
              (map queue_trivial.PushBack (map fst five_pushes)))
    as [qt | ft] eqn:Et; [| vm_compute in Et; discriminate Et].
  intros [[Hs Hg] [Hst Hgt]]. exists q, qt.
  split; [reflexivity |]. split; [reflexivity |].
  split; [vm_compute in E; injection E as <-; reflexivity |].
  split; [vm_compute in Et; injection Et as <-; reflexivity |].
  split; [exact Hs |]. split; [exact Hst |].
  intros i x Hi. split; [by apply Hg | by apply Hgt].
Defined.

(** ** Iterators *)

(** C10.  [operator==] and [operator!=] of [queue::iterator] compare the
    stored offsets and nothing else: two iterators are equal exactly when
    their offsets are, whatever buffer, front index and capacity they were
    built with, so that the [begin()]s of any two queues are equal; and
    [begin() == end()] exactly when [size == 0]. *)
Theorem iterator_equality_is_offset_equality {T : Type}
  (a b : queue.iterator.t T) (q r : state T)
  (b1 b2 : block T) (f1 f2 c1 c2 off : Z) :
  (queue.iterator.eqb a b = true <->
   queue.iterator.offset_ a = queue.iterator.offset_ b) /\
  queue.iterator.neqb a b = negb (queue.iterator.eqb a b) /\
  queue.iterator.eqb (queue.iterator.ctor b1 f1 off c1)
    (queue.iterator.ctor b2 f2 off c2) = true /\
  queue.iterator.eqb (queue.begin_ q) (queue.begin_ r) = true /\
  (queue.iterator.eqb (queue.begin_ q) (queue.end_ q) = true <->
   size_ q = 0).
Proof.
  unfold queue.iterator.eqb, queue.iterator.neqb.
  split; [apply Z.eqb_eq |]. split; [reflexivity |].
  split; [apply Z.eqb_refl |]. split; [reflexivity |].
  unfold queue.begin_, queue.end_, queue.iterator.ctor; simpl.
  destruct (size_ q); split; (reflexivity || discriminate).
Qed.

(** * Further properties of the two structs and of the loops over them *)

(** ** Removing from a ring *)

Section removes.
Context {T : Type}.
Implicit Types (q : state T) (v : option T) (l : list event).

(** The slot a remove rewrites is not one of the other live slots. *)
Lemma removed_slot_live q v l (i : Z) :
  wf q -> 0 < i < capacity_ q ->
  slot (buffer_ (removed q v l)) ((front_ q + i) mod capacity_ q) =
  slot (buffer_ q) ((front_ q + i) mod capacity_ q).
Proof.
  intros Hwf Hi. open_wf Hwf. simpl.
  pose proof (Z.mod_pos_bound (front_ q + i) (capacity_ q)).
  apply slot_insert_ne; try lia.
  intros E. rewrite <- (Z.mod_small (front_ q) (capacity_ q)) in E at 1 by lia.
  rewrite <- (Z.add_0_r (front_ q)) in E at 1.
  apply ring_slots_distinct in E; lia.
Qed.

(** After a remove every remaining element is one position nearer the
    front. *)
Lemma get_removed q v l (i : Z) :
  wf q -> 0 <= i < size_ q - 1 ->
  queue.get (removed q v l) i = queue.get q (i + 1).
Proof.
  intros Hwf Hi. open_wf Hwf.
  rewrite !get_ok; try done; try (simpl; lia).
  - f_equal. simpl front_. simpl capacity_.
    rewrite Z.add_mod_idemp_l by lia.
    replace (front_ q + 1 + i) with (front_ q + (i + 1)) by lia.
    apply removed_slot_live; [done | lia].
  - apply wf_removed; [done | lia].
Qed.

End removes.

(** ** struct queue as a first-in first-out sequence *)

Section refinement.
Context {T : Type}.
Variable T_default : T.
Implicit Types (q : state T) (l : list T) (o : @queue.op T).

Lemma fifo_step_append o :
  queue.is_append o = true ->
  exists x, queue.stored T_default o = Some x /\
            forall l, fifo_step T_default l o = Some (l ++ [x]).
Proof. destruct o; try discriminate; intros _; eexists; split; done. Qed.

(** One append on a ring, when it returns. *)
Lemma queue_append_get q o q' :
  ring q -> queue.is_append o = true ->
  queue.step T_default q o = Ok q' ->
  ring q' /\
  size_ q' = size_ q + 1 /\
  (forall i, 0 <= i < size_ q -> queue.get q' i = queue.get q i) /\
  queue.get q' (size_ q) = Ok (queue.stored T_default o).
Proof.
  intros Hring Ho Hstep.
  destruct (queue_run_appends T_default [o] q q' Hring)
    as (Hring' & Hsize & Hold & Hnew).
  { simpl. by rewrite Ho. }
  { simpl. by rewrite Hstep. }
  split; [done |]. split; [simpl in Hsize; lia |]. split; [done |].
  specialize (Hnew 0%nat o eq_refl). by rewrite Z.add_0_r in Hnew.
Qed.

Lemma represents_snoc q q' l x :
  represents q l -> ring q' -> size_ q' = size_ q + 1 ->
  (forall i, 0 <= i < size_ q -> queue.get q' i = queue.get q i) ->
  queue.get q' (size_ q) = Ok (Some x) ->
  represents q' (l ++ [x]).
Proof.
  intros (Hring & Hsize & Hget) Hring' Hsize' Hold Hnew.
  split; [done |]. split.
  - rewrite length_app. simpl. lia.
  - intros i y Hi. destruct (decide (i < length l)%nat) as [Hlt | Hge].
    + rewrite lookup_app_l in Hi by done. rewrite Hold by lia. by apply Hget.
    + rewrite lookup_app_r in Hi by lia.
      destruct (i - length l)%nat as [| n] eqn:E; [| by destruct n].
      injection Hi as <-. replace (Z.of_nat i) with (size_ q) by lia. done.
Qed.

Lemma represents_tail q x l v lg :
  represents q (x :: l) -> represents (removed q v lg) l.
Proof.
  intros (Hring & Hsize & Hget). simpl in Hsize.
  split; [apply ring_removed; [done | lia] |]. split; [simpl; lia |].
  intros i y Hi. pose proof (lookup_lt_Some _ _ _ Hi) as Hlt.
  rewrite get_removed; [| apply Hring | lia].
  replace (Z.of_nat i + 1) with (Z.of_nat (S i)) by lia. by apply Hget.
Qed.

(** Every call acts on the instance as on the sequence it holds, until an
    append is refused its block. *)
Lemma queue_refines_fifo (ops : list (@queue.op T)) :
  forall q l, represents q l ->
  match queue.run T_default q ops with
  | Ok q' => exists l', fifo_run T_default l ops = Some l' /\ represents q' l'
  | Fail f =>
      (f = AssertionFailed /\ fifo_run T_default l ops = None) \/ f = Aborted
  end.
Proof.
  induction ops as [| o ops IH]; intros q l Hrep; simpl.
  - by exists l.
  - pose proof Hrep as (Hring & Hsize & Hget). pose proof Hring as [Hwf _].
    destruct (queue.is_append o) eqn:Ho.
    + destruct (queue.step T_default q o) as [q' | f] eqn:Hstep.
      * destruct (queue_append_get q o q' Hring Ho Hstep)
          as (Hring' & Hsize' & Hold & Hnew).
        destruct (fifo_step_append o Ho) as (x & Hx & Hfifo).
        rewrite Hfifo. simpl. apply IH.
        apply (represents_snoc q q' l x); try done. by rewrite <- Hx.
      * simpl. right.
        destruct (queue_step_fail T_default q o f Hwf Hstep)
          as [(-> & _) | (_ & _ & ->)]; [discriminate | done].
    + destruct o as [data | data | | |]; try discriminate; simpl.
      * destruct l as [| x l].
        { rewrite queue_pop_empty by (simpl in Hsize; lia). simpl. by left. }
        rewrite queue_pop_eq by (done || simpl in Hsize; lia). simpl.
        apply IH. by apply (represents_tail q x).
      * destruct (queue_clear_spec q Hwf)
          as (q' & Hrun & Hring' & Hsize' & _).
        rewrite Hrun. simpl. apply IH. split; [done |]. split; [done |].
        intros i y Hi. discriminate.
Qed.

Lemma represents_ctor : represents (@queue.ctor T) [].
Proof. split; [apply ring_ctor |]. split; [done | intros i x Hi; discriminate]. Qed.

End refinement.

(** X1.  A [queue] behaves as the sequence of its live elements.  Run from
    a fresh instance, a series of [push_back], [emplace_back], [pop] and
    [clear] calls that returns leaves an instance whose [size()] is the
    length of the sequence the calls leave, whose [q[i]] is its [i]-th
    element, and whose [q[i]] fails its assertion from the length on.  A
    series that does not return has failed the assertion of a [pop] where
    the sequence is empty, or has aborted in [should_reallocate]. *)
Theorem queue_is_a_fifo {T : Type} (T_default : T)
  (ops : list (@queue.op T)) :
  match queue.run T_default queue.ctor ops with
  | Ok q =>
      exists l,
        fifo_run T_default [] ops = Some l /\
        queue.size q = Z.of_nat (length l) /\
        forall i : nat,
          queue.get q (Z.of_nat i) =
            match l !! i with
            | Some x => Ok (Some x)
            | None => Fail AssertionFailed
            end
  | Fail f =>
      (f = AssertionFailed /\ fifo_run T_default [] ops = None) \/
      f = Aborted
  end.
Proof.
  pose proof (queue_refines_fifo T_default ops queue.ctor [] represents_ctor)
    as H.
  destruct (queue.run T_default queue.ctor ops) as [q | f]; [| exact H].
  destruct H as (l & Hrun & Hring & Hsize & Hget).
  exists l. split; [done |]. split; [done |]. intros i.
  destruct (l !! i) as [x |] eqn:E; [by apply Hget |].
  apply lookup_ge_None_1 in E. unfold queue.get.
  rewrite subscript_out_of_range by lia. done.
Qed.

(** Pushes, pops across the wrap, a reallocation and a [clear]. *)
Lemma queue_is_a_fifo_witness :
  exists q,
    queue.run 0 queue.ctor fifo_calls = Ok q /\
    fifo_run 0 [] fifo_calls = Some [6; 0] /\
    queue.size q = 2 /\
    queue.get q 0 = Ok (Some 6) /\ queue.get q 1 = Ok (Some 0) /\
    queue.get q 2 = Fail AssertionFailed.
Proof.
  generalize (queue_is_a_fifo 0 fifo_calls).
  destruct (queue.run 0 queue.ctor fifo_calls) as [q | f] eqn:E;
    [| vm_compute in E; discriminate E].
  intros (l & Hl & Hsize & Hget). exists q.
  vm_compute in Hl. injection Hl as <-.
  split; [reflexivity |]. split; [reflexivity |]. split; [exact Hsize |].
  split; [exact (Hget 0%nat) |]. split; [exact (Hget 1%nat) |].
  exact (Hget 2%nat).
Defined.

(** ** No access outside the block *)

Section defined.
Context {T : Type}.
Variable T_default : T.
Implicit Types (q : state T).

Lemma accessors_defined q (i : Z) :
  wf q ->
  queue.front q <> Fail UndefinedBehaviour /\
  queue.back q <> Fail UndefinedBehaviour /\
  queue.subscript q i <> Fail UndefinedBehaviour /\
  queue.get q i <> Fail UndefinedBehaviour.
Proof.
  intros Hwf. open_wf Hwf.
  assert (queue.front q <> Fail UndefinedBehaviour /\
          queue.back q <> Fail UndefinedBehaviour) as [Hfront Hback].
  { destruct (Z.eq_dec (size_ q) 0) as [H0 | Hn0].
    - by rewrite front_empty, back_empty.
    - by rewrite front_ok, back_ok by (done || lia). }
  split; [done |]. split; [done |].
  destruct (Z.lt_ge_cases i 0) as [Hneg | Hnn];
    [| destruct (Z.lt_ge_cases i (size_ q)) as [Hin | Hout]].
  - unfold queue.get. by rewrite subscript_out_of_range by lia.
  - by rewrite get_ok, subscript_ok by (done || lia).
  - unfold queue.get. by rewrite subscript_out_of_range by lia.
Qed.

(** A series of calls that does not return has failed an assertion or has
    aborted. *)
Lemma queue_run_fail (ops : list (@queue.op T)) :
  forall q f, ring q -> queue.run T_default q ops = Fail f ->
  f = AssertionFailed \/ f = Aborted.
Proof.
  induction ops as [| o ops IH]; intros q f Hring Hrun; simpl in Hrun;
    [discriminate |].
  apply bind_Fail in Hrun as [Hstep | (q1 & Hstep & Hrun)].
  - apply queue_step_fail in Hstep; [tauto | apply Hring].
  - apply (IH q1); [| done]. by apply (queue_step_ring T_default q o).
Qed.

Lemma trivial_run_fail (ops : list (@queue_trivial.op T)) :
  forall q f, wf q -> queue_trivial.run q ops = Fail f ->
  f = AssertionFailed \/ f = Aborted.
Proof.
  induction ops as [| o ops IH]; intros q f Hwf Hrun; simpl in Hrun;
    [discriminate |].
  apply bind_Fail in Hrun as [Hstep | (q1 & Hstep & Hrun)].
  - apply trivial_step_fail in Hstep; [tauto | done].
  - apply (IH q1); [| done]. by apply (trivial_step_wf q o).
Qed.

Lemma iter_incr (n : nat) (it : queue.iterator.t T) :
  Nat.iter n queue.iterator.incr it =
  queue.iterator.mk (queue.iterator.buffer_ it) (queue.iterator.front_ it)
    (queue.iterator.capacity_ it) (queue.iterator.offset_ it + Z.of_nat n).
Proof.
  induction n as [| n IH].
  - simpl. rewrite Z.add_0_r. by destruct it.
  - rewrite Nat.iter_succ, IH, Nat2Z.inj_succ. unfold queue.iterator.incr.
    simpl. f_equal. lia.
Qed.

(** An iterator that [n] increments have taken from [begin()] to a position
    before [end()] denotes the slot of [q[n]]. *)
Lemma iterator_deref_live q (n : nat) :
  wf q -> Z.of_nat n < size_ q ->
  queue.iterator.deref (Nat.iter n queue.iterator.incr (queue.begin_ q)) =
  queue.subscript q (Z.of_nat n).
Proof.
  intros Hwf Hn. open_wf Hwf. rewrite iter_incr, subscript_ok by (done || lia).
  unfold queue.iterator.deref, queue.begin_, queue.iterator.ctor. simpl.
  rewrite Z.add_0_l, (Z.add_comm (Z.of_nat n) (front_ q)).
  pose proof (Z.mod_pos_bound (front_ q + Z.of_nat n) (capacity_ q)).
  by prims.
Qed.

(** Without a block [begin()] cannot be dereferenced. *)
Lemma iterator_deref_no_block q :
  capacity_ q = 0 ->
  queue.iterator.deref (queue.begin_ q) = Fail UndefinedBehaviour.
Proof.
  intros H0. unfold queue.iterator.deref, queue.begin_, queue.iterator.ctor.
  simpl. rewrite H0. reflexivity.
Qed.

End defined.

(** X2.  A series of [push_back], [emplace_back], [pop] and [clear] calls on
    a fresh instance of either struct reads and writes inside the block only
    and takes no remainder by a zero capacity: the series returns, fails an
    assertion or aborts in [should_reallocate].  On the instance it leaves,
    [front()], [back()] and [operator[]] with any index either fail their
    assertion or denote a slot of the block, and so does an iterator of
    [queue] between [begin()] and [end()].  The iterators are not covered
    beyond that: on a [queue] that has no block yet, [*begin()] takes the
    remainder by the capacity 0. *)
Theorem calls_stay_in_the_block {T : Type} (T_default : T)
  (ops : list (@queue.op T)) (tops : list (@queue_trivial.op T)) (i : Z)
  (n : nat) :
  match queue.run T_default queue.ctor ops with
  | Fail f => f = AssertionFailed \/ f = Aborted
  | Ok q =>
      queue.front q <> Fail UndefinedBehaviour /\
      queue.back q <> Fail UndefinedBehaviour /\
      queue.subscript q i <> Fail UndefinedBehaviour /\
      queue.get q i <> Fail UndefinedBehaviour /\
      (Z.of_nat n < size_ q ->
       queue.iterator.deref
         (Nat.iter n queue.iterator.incr (queue.begin_ q)) <>
       Fail UndefinedBehaviour) /\
      (capacity_ q = 0 ->
       queue.iterator.deref (queue.begin_ q) = Fail UndefinedBehaviour)
  end /\
  match queue_trivial.run queue_trivial.ctor tops with
  | Fail f => f = AssertionFailed \/ f = Aborted
  | Ok qt =>
      queue_trivial.front qt <> Fail UndefinedBehaviour /\
      queue_trivial.back qt <> Fail UndefinedBehaviour /\
      queue_trivial.subscript qt i <> Fail UndefinedBehaviour /\
      queue_trivial.get qt i <> Fail UndefinedBehaviour
  end.
Proof.
  split.
  - destruct (queue.run T_default queue.ctor ops) as [q | f] eqn:E.
    + apply queue_reachable_ring in E as [Hwf _].
      destruct (accessors_defined q i Hwf) as (H1 & H2 & H3 & H4).
      do 4 (split; [done |]). split.
      * intros Hn. rewrite iterator_deref_live by done.
        by destruct (accessors_defined q (Z.of_nat n) Hwf) as (_ & _ & ? & _).
      * apply iterator_deref_no_block.
    + by apply (queue_run_fail T_default ops queue.ctor f ring_ctor).
  - destruct (queue_trivial.run queue_trivial.ctor tops) as [qt | f] eqn:E.
    + rewrite trivial_front_eq, trivial_back_eq, trivial_subscript_eq,
        trivial_get_eq.
      apply accessors_defined. by apply trivial_reachable_wf in E.
    + by apply (trivial_run_fail tops queue_trivial.ctor f wf_ctor).
Qed.

(** The accessors and the iterators after the calls of [q_wrapped] and
    [t_wrapped], and [*begin()] on a fresh [queue]. *)
Lemma calls_stay_in_the_block_witness :
  (queue.front q_wrapped = Ok 1 /\ queue.back q_wrapped = Ok 0 /\
   queue.subscript q_wrapped 1 = Ok 0 /\
   queue.iterator.deref
     (Nat.iter 1 queue.iterator.incr (queue.begin_ q_wrapped)) = Ok 0) /\
  (queue_trivial.front t_wrapped = Ok 1 /\
   queue_trivial.subscript t_wrapped 1 = Ok 0) /\
  queue.iterator.deref (queue.begin_ (@queue.ctor Z)) =
    Fail UndefinedBehaviour.
Proof.
  split; [vm_compute; repeat split |]. split; [vm_compute; repeat split |].
  generalize (calls_stay_in_the_block 0 [] [] 0 0).
  change (queue.run 0 queue.ctor []) with (Ok (@queue.ctor Z)).
  cbv iota beta. intros [(_ & _ & _ & _ & _ & H) _]. apply H. reflexivity.
Defined.

(** ** pop *)

(** X3.  On a reachable non-empty instance [pop] completes, keeps the
    capacity, and moves every remaining element one position towards the
    front: [q'[i]] is the former [q[i + 1]].  [queue::pop] destroys the
    object in the front slot; [queue_trivial::pop] leaves the whole block
    as it is, and [pop(deinit)] rewrites the front slot by [deinit] and no
    other. *)
Theorem pop_shifts_positions {T : Type} (T_default : T)
  (ops : list (@queue.op T)) (tops : list (@queue_trivial.op T))
  (q qt : state T) (deinit : option T -> option T) :
  queue.run T_default queue.ctor ops = Ok q ->
  queue_trivial.run queue_trivial.ctor tops = Ok qt ->
  size_ q > 0 -> size_ qt > 0 ->
  (exists q',
     queue.pop q = Ok q' /\
     size_ q' = size_ q - 1 /\ capacity_ q' = capacity_ q /\
     read (buffer_ q') (front_ q) = Ok None /\
     log_ q' = log_ q ++ [Destruct] /\
     forall i, 0 <= i < size_ q - 1 -> queue.get q' i = queue.get q (i + 1)) /\
  (exists qt',
     queue_trivial.pop qt = Ok qt' /\
     size_ qt' = size_ qt - 1 /\ capacity_ qt' = capacity_ qt /\
     buffer_ qt' = buffer_ qt /\
     forall i, 0 <= i < size_ qt - 1 ->
       queue_trivial.get qt' i = queue_trivial.get qt (i + 1)) /\
  (exists qt',
     queue_trivial.pop_deinit qt deinit = Ok qt' /\
     size_ qt' = size_ qt - 1 /\ capacity_ qt' = capacity_ qt /\
     read (buffer_ qt') (front_ qt) =
       Ok (deinit (slot (buffer_ qt) (front_ qt))) /\
     (forall k, 0 <= k -> k <> front_ qt ->
        slot (buffer_ qt') k = slot (buffer_ qt) k) /\
     forall i, 0 <= i < size_ qt - 1 ->
       queue_trivial.get qt' i = queue_trivial.get qt (i + 1)).
Proof.
  intros Hq Hqt Hpos Hpost.
  apply queue_reachable_ring in Hq as [Hwf _].
  apply trivial_reachable_wf in Hqt as Hwft.
  split; [| split].
  - rewrite queue_pop_eq by (done || lia). eexists. split; [done |].
    simpl. open_wf Hwf. repeat split; try done.
    + rewrite read_ok by (rewrite length_insert; lia).
      f_equal. apply slot_insert_eq. lia.
    + intros i Hi. by apply get_removed.
  - rewrite trivial_pop_eq by (done || lia). open_wf Hwft.
    rewrite removed_same_slot by (done || lia).
    rewrite <- (removed_same_slot qt (log_ qt)) by (done || lia).
    eexists. split; [done |]. simpl. repeat split; try done.
    + apply list_insert_id. unfold slot.
      destruct (buffer_ qt !! Z.to_nat (front_ qt)) as [o |] eqn:E; [done |].
      apply lookup_ge_None_1 in E. lia.
    + intros i Hi. rewrite !trivial_get_eq. by apply get_removed.
  - rewrite trivial_pop_deinit_eq by (done || lia). open_wf Hwft.
    eexists. split; [done |]. simpl. repeat split; try done.
    + rewrite read_ok by (rewrite length_insert; lia).
      f_equal. apply slot_insert_eq. lia.
    + intros k Hk Hne. apply slot_insert_ne; lia.
    + intros i Hi. rewrite !trivial_get_eq. by apply get_removed.
Qed.

Lemma pop_shifts_positions_witness :
  queue.run 0 queue.ctor q_wrapped_ops = Ok q_wrapped /\
  queue_trivial.run queue_trivial.ctor t_wrapped_ops = Ok t_wrapped /\
  size_ q_wrapped > 0 /\ size_ t_wrapped > 0 /\
  (exists q',
     queue.pop q_wrapped = Ok q' /\
     size_ q' = size_ q_wrapped - 1 /\ capacity_ q' = capacity_ q_wrapped /\
     read (buffer_ q') (front_ q_wrapped) = Ok None /\
     log_ q' = log_ q_wrapped ++ [Destruct] /\
     forall i, 0 <= i < size_ q_wrapped - 1 ->
       queue.get q' i = queue.get q_wrapped (i + 1)) /\
  (exists qt',
     queue_trivial.pop t_wrapped = Ok qt' /\
     size_ qt' = size_ t_wrapped - 1 /\
     capacity_ qt' = capacity_ t_wrapped /\
     buffer_ qt' = buffer_ t_wrapped /\
     forall i, 0 <= i < size_ t_wrapped - 1 ->
       queue_trivial.get qt' i = queue_trivial.get t_wrapped (i + 1)) /\
  (exists qt',
     queue_trivial.pop_deinit t_wrapped (fun _ => Some 0) = Ok qt' /\
     size_ qt' = size_ t_wrapped - 1 /\
     capacity_ qt' = capacity_ t_wrapped /\
     read (buffer_ qt') (front_ t_wrapped) =
       Ok ((fun _ => Some 0) (slot (buffer_ t_wrapped) (front_ t_wrapped))) /\
     (forall k, 0 <= k -> k <> front_ t_wrapped ->
        slot (buffer_ qt') k = slot (buffer_ t_wrapped) k) /\
     forall i, 0 <= i < size_ t_wrapped - 1 ->
       queue_trivial.get qt' i = queue_trivial.get t_wrapped (i + 1)).
Proof.
  do 4 (split; [reflexivity |]).
  apply (pop_shifts_positions 0 q_wrapped_ops t_wrapped_ops q_wrapped
           t_wrapped (fun _ => Some 0)); reflexivity.
Defined.

(** ** front() *)

(** X4.  On a reachable non-empty instance of either struct [front()]
    denotes the slot of [q[0]], the oldest element. *)
Theorem front_is_position_zero {T : Type} (T_default : T)
  (ops : list (@queue.op T)) (tops : list (@queue_trivial.op T))
  (q qt : state T) :
  queue.run T_default queue.ctor ops = Ok q ->
  queue_trivial.run queue_trivial.ctor tops = Ok qt ->
  size_ q > 0 -> size_ qt > 0 ->
  (queue.front q = Ok (front_ q) /\ queue.front q = queue.subscript q 0) /\
  (queue_trivial.front qt = Ok (front_ qt) /\
   queue_trivial.front qt = queue_trivial.subscript qt 0).
Proof.
  intros Hq Hqt Hpos Hpost.
  apply queue_reachable_ring in Hq as [Hwf _].
  apply trivial_reachable_wf in Hqt as Hwft.
  change (@queue_trivial.front T) with (@queue.front T).
  change (@queue_trivial.subscript T) with (@queue.subscript T).
  rewrite !front_ok, !subscript_ok by (done || lia).
  rewrite !Z.add_0_r.
  destruct Hwf as (_ & ? & ? & _ & _ & ? & ?).
  destruct Hwft as (_ & ? & ? & _ & _ & ? & ?).
  rewrite !Z.mod_small by lia. done.
Qed.

Lemma front_is_position_zero_witness :
  queue.run 0 queue.ctor q_wrapped_ops = Ok q_wrapped /\
  queue_trivial.run queue_trivial.ctor t_wrapped_ops = Ok t_wrapped /\
  size_ q_wrapped > 0 /\ size_ t_wrapped > 0 /\
  (queue.front q_wrapped = Ok (front_ q_wrapped) /\
   queue.front q_wrapped = queue.subscript q_wrapped 0) /\
  (queue_trivial.front t_wrapped = Ok (front_ t_wrapped) /\
   queue_trivial.front t_wrapped = queue_trivial.subscript t_wrapped 0).
Proof.
  do 4 (split; [reflexivity |]).
  apply (front_is_position_zero 0 q_wrapped_ops t_wrapped_ops q_wrapped
           t_wrapped); reflexivity.
Defined.

(** ** The loops of example.cpp *)

Section loops.
Context {T : Type}.
Implicit Types (q : state T).

(** The iterator loop entered at offset [off] sees the elements from
    position [off] on. *)
Lemma iterate_spec q (n : nat) :
  wf q ->
  forall (fuel : nat) (off : Z),
    (n < fuel)%nat -> 0 <= off -> off + Z.of_nat n = size_ q ->
    exists vs,
      example.iterate fuel q
        (queue.iterator.mk (buffer_ q) (front_ q) (capacity_ q) off) =
        Some (Ok vs) /\
      length vs = n /\
      forall (j : nat) v,
        vs !! j = Some v -> queue.get q (off + Z.of_nat j) = Ok v.
Proof.
  intros Hwf. open_wf Hwf.
  induction n as [| n IH]; intros fuel off Hfuel Hoff Hsize;
    (destruct fuel as [| fuel]; [lia |]); simpl.
  - unfold queue.iterator.neqb. simpl.
    destruct (Z.eqb_spec off (size_ q)); [| lia]. simpl.
    exists []. repeat split. intros j v Hj. discriminate.
  - unfold queue.iterator.neqb, queue.iterator.deref. simpl.
    destruct (Z.eqb_spec off (size_ q)); [lia |]. simpl.
    pose proof (Z.mod_pos_bound (off + front_ q) (capacity_ q)) as Hm.
    prims.
    destruct (IH fuel (off + 1)) as (vs & Hrun & Hlen' & Hget); try lia.
    unfold queue.iterator.incr. simpl. rewrite Hrun. simpl.
    eexists. split; [done |]. split; [simpl; lia |].
    intros [| j] v Hj; simpl in Hj.
    + injection Hj as <-. rewrite Z.add_0_r, get_ok by (done || lia).
      by rewrite (Z.add_comm (front_ q) off).
    + rewrite <- (Hget j v Hj). f_equal. lia.
Qed.

(** The index loop entered at index [i] rewrites the elements from
    position [i] on, each once, and no other slot. *)
Lemma update_from_spec (f : option T -> option T) (n : nat) :
  forall (i : Z) q,
    wf q -> 0 <= i -> i + Z.of_nat n = size_ q ->
    exists b,
      example.update_from n i f q =
        Ok (mk_state b (front_ q) (back_ q) (capacity_ q) (size_ q) (log_ q)) /\
      length b = length (buffer_ q) /\
      (forall j, i <= j < size_ q ->
         slot b ((front_ q + j) mod capacity_ q) =
         f (slot (buffer_ q) ((front_ q + j) mod capacity_ q))) /\
      (forall k, 0 <= k ->
         (forall j, i <= j < size_ q -> k <> (front_ q + j) mod capacity_ q) ->
         slot b k = slot (buffer_ q) k).
Proof.
  induction n as [| n IH]; intros i q Hwf Hi Hsize; simpl.
  - exists (buffer_ q). split; [by destruct q |]. split; [done |].
    split; [intros j Hj; lia | done].
  - open_wf Hwf.
    pose proof (Z.mod_pos_bound (front_ q + i) (capacity_ q)) as Hm.
    rewrite subscript_ok by (done || lia). simpl. prims.
    set (k := (front_ q + i) mod capacity_ q) in *.
    set (q1 := mk_state (<[Z.to_nat k := f (slot (buffer_ q) k)]> (buffer_ q))
                 (front_ q) (back_ q) (capacity_ q) (size_ q) (log_ q)).
    assert (wf q1) as Hwf1.
    { unfold wf, q1; simpl. rewrite length_insert. done. }
    destruct (IH (i + 1) q1 Hwf1) as (b & Hrun & Hlen' & Hin & Hout);
      [lia | simpl; lia |].
    exists b. split; [exact Hrun |]. split.
    { rewrite Hlen'. simpl. apply length_insert. }
    simpl in Hin, Hout. split.
    + intros j Hj. destruct (Z.eq_dec j i) as [-> | Hne].
      * fold k. rewrite Hout.
        -- apply slot_insert_eq. lia.
        -- lia.
        -- intros j Hj' E. apply ring_slots_distinct in E; lia.
      * rewrite Hin by lia. f_equal.
        pose proof (Z.mod_pos_bound (front_ q + j) (capacity_ q)).
        apply slot_insert_ne; try lia.
        intros E. apply ring_slots_distinct in E; lia.
    + intros k0 Hk0 Hfree. rewrite Hout.
      * apply slot_insert_ne; try lia. intros E. apply (Hfree i); [lia | done].
      * done.
      * intros j Hj. apply Hfree. lia.
Qed.

End loops.

(** X5.  On a reachable [queue] the loop
    [for (it = q.begin(); it != q.end(); ++it)] ends after [size()] rounds,
    and the value the body reads through [*it] in round [j] is the one
    [q[j]] holds: the traversal visits the live elements from the oldest to
    the newest. *)
Theorem iteration_visits_positions_in_order {T : Type} (T_default : T)
  (ops : list (@queue.op T)) (q : state T) (fuel : nat) :
  queue.run T_default queue.ctor ops = Ok q ->
  (Z.to_nat (size_ q) < fuel)%nat ->
  exists vs,
    example.for_each fuel q = Some (Ok vs) /\
    Z.of_nat (length vs) = queue.size q /\
    forall (j : nat) v,
      vs !! j = Some v -> queue.get q (Z.of_nat j) = Ok v.
Proof.
  intros Hq Hfuel. apply queue_reachable_ring in Hq as [Hwf _].
  pose proof Hwf as (_ & Hsz & _).
  destruct (iterate_spec q (Z.to_nat (size_ q)) Hwf fuel 0)
    as (vs & Hrun & Hlen & Hget); try lia.
  exists vs. split; [exact Hrun |]. split; [unfold queue.size; lia |].
  intros j v Hj. by apply Hget.
Qed.

Lemma iteration_visits_positions_in_order_witness :
  queue.run 0 queue.ctor q_wrapped_ops = Ok q_wrapped /\
  (Z.to_nat (size_ q_wrapped) < 3)%nat /\
  exists vs,
    example.for_each 3 q_wrapped = Some (Ok vs) /\
    Z.of_nat (length vs) = queue.size q_wrapped /\
    forall (j : nat) v,
      vs !! j = Some v -> queue.get q_wrapped (Z.of_nat j) = Ok v.
Proof.
  split; [reflexivity |]. split; [vm_compute; lia |].
  apply (iteration_visits_positions_in_order 0 q_wrapped_ops q_wrapped 3);
    [reflexivity | vm_compute; lia].
Defined.

(** X6.  On a reachable [queue] the loop
    [for (i = 0; i < q.size(); i++) q[i] = f(q[i])] completes, rewrites
    every live element once ([q'[j]] is [f] of the former [q[j]]), and
    changes neither a slot outside the live range nor the indices, the
    capacity or the size. *)
Theorem index_loop_updates_each_element {T : Type} (T_default : T)
  (ops : list (@queue.op T)) (q : state T) (f : option T -> option T) :
  queue.run T_default queue.ctor ops = Ok q ->
  exists q',
    example.update_all f q = Ok q' /\
    front_ q' = front_ q /\ back_ q' = back_ q /\
    capacity_ q' = capacity_ q /\ size_ q' = size_ q /\
    (forall j, 0 <= j < size_ q ->
       queue.get q' j = let* v := queue.get q j in Ok (f v)) /\
    (forall k, 0 <= k ->
       (forall j, 0 <= j < size_ q -> k <> (front_ q + j) mod capacity_ q) ->
       slot (buffer_ q') k = slot (buffer_ q) k).
Proof.
  intros Hq. apply queue_reachable_ring in Hq as [Hwf _]. open_wf Hwf.
  destruct (update_from_spec f (Z.to_nat (size_ q)) 0 q Hwf)
    as (b & Hrun & Hlen' & Hin & Hout); try lia.
  eexists. split; [exact Hrun |]. simpl. repeat split; try done.
  intros j Hj. rewrite !get_ok; try done.
  - simpl. f_equal. by apply Hin.
  - unfold wf; simpl. rewrite Hlen'. done.
Qed.

Lemma index_loop_updates_each_element_witness :
  queue.run 0 queue.ctor q_wrapped_ops = Ok q_wrapped /\
  exists q',
    example.update_all (fun _ => Some 10) q_wrapped = Ok q' /\
    front_ q' = front_ q_wrapped /\ back_ q' = back_ q_wrapped /\
    capacity_ q' = capacity_ q_wrapped /\ size_ q' = size_ q_wrapped /\
    (forall j, 0 <= j < size_ q_wrapped ->
       queue.get q' j =
         let* v := queue.get q_wrapped j in Ok ((fun _ => Some 10) v)) /\
    (forall k, 0 <= k ->
       (forall j, 0 <= j < size_ q_wrapped ->
          k <> (front_ q_wrapped + j) mod capacity_ q_wrapped) ->
       slot (buffer_ q') k = slot (buffer_ q_wrapped) k).
Proof.
  split; [reflexivity |].
  apply (index_loop_updates_each_element 0 q_wrapped_ops q_wrapped
           (fun _ => Some 10)); reflexivity.
Defined.

(** ** emplace_back *)



(** X8.  On an instance of [queue_trivial] reached by appends and removes
    and not full, [emplace_back()] returns a reference to the slot of the
    new last position and leaves the whole block as it is, so the new
    element is whatever that slot held; [emplace_back(init)] rewrites that
    slot by [init] and no other.  Both keep the elements that were
    there. *)
Theorem trivial_emplace_back_in_place {T : Type}
  (tops : list (@queue_trivial.op T)) (qt : state T)
  (init : option T -> option T) :
  existsb queue_trivial.is_clear tops = false ->
  queue_trivial.run queue_trivial.ctor tops = Ok qt ->
  size_ qt < capacity_ qt ->
  (exists qt',
     queue_trivial.emplace_back qt = Ok (qt', back_ qt) /\
     buffer_ qt' = buffer_ qt /\
     queue_trivial.size qt' = queue_trivial.size qt + 1 /\
     queue_trivial.subscript qt' (queue_trivial.size qt) = Ok (back_ qt) /\
     forall i, 0 <= i < queue_trivial.size qt ->
       queue_trivial.get qt' i = queue_trivial.get qt i) /\
  (exists qt',
     queue_trivial.emplace_back_init qt init = Ok (qt', back_ qt) /\
     read (buffer_ qt') (back_ qt) =
       Ok (init (slot (buffer_ qt) (back_ qt))) /\
     (forall k, 0 <= k -> k <> back_ qt ->
        slot (buffer_ qt') k = slot (buffer_ qt) k) /\
     queue_trivial.size qt' = queue_trivial.size qt + 1 /\
     queue_trivial.subscript qt' (queue_trivial.size qt) = Ok (back_ qt) /\
     forall i, 0 <= i < queue_trivial.size qt ->
       queue_trivial.get qt' i = queue_trivial.get qt i).
Proof.
  intros Hnc Hqt Hroom.
  apply (trivial_run_ring tops _ _ ring_ctor Hnc) in Hqt as Hring.
  pose proof Hring as [Hwf Hback]. open_wf Hwf.
  change (@queue_trivial.subscript T) with (@queue.subscript T).
  change (@queue_trivial.get T) with (@queue.get T).
  unfold queue_trivial.size.
  assert (queue_trivial.should_reallocate qt = Ok qt) as Hkeep
    by (apply trivial_should_reallocate_keep; lia).
  split.
  - unfold queue_trivial.emplace_back. rewrite Hkeep. simpl. prims.
    rewrite <- (appended_same_slot qt (log_ qt)) by (done || lia).
    eexists. split; [done |]. split.
    { simpl. apply list_insert_id. unfold slot.
      destruct (buffer_ qt !! Z.to_nat (back_ qt)) as [o |] eqn:E; [done |].
      apply lookup_ge_None_1 in E. lia. }
    split; [simpl; lia |]. split.
    + rewrite subscript_ok; [| by apply wf_appended | simpl; lia].
      simpl. by rewrite <- Hback by lia.
    + intros i Hi. by apply get_appended_old.
  - unfold queue_trivial.emplace_back_init. rewrite Hkeep. simpl. prims.
    change (mk_state _ _ _ _ _ _)
      with (appended qt (init (slot (buffer_ qt) (back_ qt))) (log_ qt)).
    eexists. split; [done |]. split.
    { simpl. rewrite read_ok by (rewrite length_insert; lia).
      f_equal. apply slot_insert_eq. lia. }
    split; [intros k Hk Hne; simpl; apply slot_insert_ne; lia |].
    split; [simpl; lia |]. split.
    + rewrite subscript_ok; [| by apply wf_appended | simpl; lia].
      simpl. by rewrite <- Hback by lia.
    + intros i Hi. by apply get_appended_old.
Qed.

Lemma trivial_emplace_back_in_place_witness :
  existsb queue_trivial.is_clear [queue_trivial.PushBack 7] = false /\
  queue_trivial.run queue_trivial.ctor [queue_trivial.PushBack 7] = Ok t_one /\
  size_ t_one < capacity_ t_one /\
  (exists qt',
     queue_trivial.emplace_back t_one = Ok (qt', back_ t_one) /\
     buffer_ qt' = buffer_ t_one /\
     queue_trivial.size qt' = queue_trivial.size t_one + 1 /\
     queue_trivial.subscript qt' (queue_trivial.size t_one) =
       Ok (back_ t_one) /\
     forall i, 0 <= i < queue_trivial.size t_one ->
       queue_trivial.get qt' i = queue_trivial.get t_one i) /\
  (exists qt',
     queue_trivial.emplace_back_init t_one (fun _ => Some 0) =
       Ok (qt', back_ t_one) /\
     read (buffer_ qt') (back_ t_one) =
       Ok ((fun _ => Some 0) (slot (buffer_ t_one) (back_ t_one))) /\
     (forall k, 0 <= k -> k <> back_ t_one ->
        slot (buffer_ qt') k = slot (buffer_ t_one) k) /\
     queue_trivial.size qt' = queue_trivial.size t_one + 1 /\
     queue_trivial.subscript qt' (queue_trivial.size t_one) =
       Ok (back_ t_one) /\
     forall i, 0 <= i < queue_trivial.size t_one ->
       queue_trivial.get qt' i = queue_trivial.get t_one i).
Proof.
  do 3 (split; [reflexivity |]).
  apply (trivial_emplace_back_in_place [queue_trivial.PushBack 7] t_one
           (fun _ => Some 0)); reflexivity.
Defined.

(** ** Growth of queue_trivial, in general *)

(** X9.  When [queue_trivial::should_reallocate] finds a reachable instance
    full and returns, position [i] of the new queue holds what physical slot
    [i] of the old block held: the element of old position [j] is found at
    position [(front + j) mod capacity].  The positions are kept when
    [front_ == 0].  When the call does not return it has aborted. *)
Theorem trivial_growth_reads_physical_order {T : Type}
  (tops : list (@queue_trivial.op T)) (qt : state T) :
  queue_trivial.run queue_trivial.ctor tops = Ok qt ->
  size_ qt = capacity_ qt ->
  match queue_trivial.should_reallocate qt with
  | Ok qt' =>
      front_ qt' = 0 /\ back_ qt' = size_ qt /\ size_ qt' = size_ qt /\
      capacity_ qt' = Z.max 2 (2 * capacity_ qt) /\
      (forall i, 0 <= i < size_ qt ->
         queue_trivial.get qt' i = read (buffer_ qt) i) /\
      (forall j, 0 <= j < size_ qt ->
         queue_trivial.get qt' ((front_ qt + j) mod capacity_ qt) =
         queue_trivial.get qt j) /\
      (front_ qt = 0 ->
       forall j, 0 <= j < size_ qt ->
         queue_trivial.get qt' j = queue_trivial.get qt j)
  | Fail f => f = Aborted
  end.
Proof.
  intros Hqt Hfull. apply trivial_reachable_wf in Hqt as Hwf. open_wf Hwf.
  change (@queue_trivial.get T) with (@queue.get T).
  destruct (fits_dec qt) as [Hfits | [_ Hbig]];
    [| by rewrite (trivial_should_reallocate_abort qt Hwf Hfull Hbig)].
  destruct (trivial_should_reallocate_grow qt Hwf Hfull (Hfits Hfull))
    as (b & Hrun & Hlen' & Hslots).
  destruct (trivial_reallocated qt Hwf Hfits) as (q1 & Hrun1 & Hra).
  rewrite Hrun in Hrun1. injection Hrun1 as Hq1. rewrite <- Hq1 in Hra.
  pose proof (ra_wf _ _ Hra) as Hwf'.
  assert (forall i, 0 <= i < size_ qt ->
            queue.get
              (mk_state b 0 (size_ qt) (Z.max 2 (2 * capacity_ qt)) (size_ qt)
                 (log_ qt ++ [Malloc (Z.max 2 (2 * capacity_ qt));
                              Memcpy (size_ qt); Free])) i =
            Ok (slot (buffer_ qt) i)) as Hget.
  { intros i Hi. rewrite get_ok by (done || simpl; lia). simpl.
    rewrite Z.mod_small by lia. f_equal. by apply Hslots. }
  rewrite Hrun. simpl. repeat split; try done.
  - intros i Hi. rewrite Hget by done. by rewrite read_ok by lia.
  - intros j Hj.
    pose proof (Z.mod_pos_bound (front_ qt + j) (capacity_ qt)).
    rewrite Hget by lia. by rewrite get_ok.
  - intros Hfront j Hj. rewrite Hget, get_ok by done.
    rewrite Hfront, Z.mod_small by lia. done.
Qed.

Lemma trivial_growth_reads_physical_order_witness :
  queue_trivial.run queue_trivial.ctor t_wrapped_ops = Ok t_wrapped /\
  size_ t_wrapped = capacity_ t_wrapped /\
  exists qt',
    queue_trivial.should_reallocate t_wrapped = Ok qt' /\
    front_ qt' = 0 /\ back_ qt' = size_ t_wrapped /\
    size_ qt' = size_ t_wrapped /\
    capacity_ qt' = Z.max 2 (2 * capacity_ t_wrapped) /\
    (forall i, 0 <= i < size_ t_wrapped ->
       queue_trivial.get qt' i = read (buffer_ t_wrapped) i) /\
    (forall j, 0 <= j < size_ t_wrapped ->
       queue_trivial.get qt'
         ((front_ t_wrapped + j) mod capacity_ t_wrapped) =
       queue_trivial.get t_wrapped j) /\
    (front_ t_wrapped = 0 ->
     forall j, 0 <= j < size_ t_wrapped ->
       queue_trivial.get qt' j = queue_trivial.get t_wrapped j).
Proof.
  do 2 (split; [reflexivity |]).
  generalize (trivial_growth_reads_physical_order t_wrapped_ops t_wrapped
                eq_refl eq_refl).
  destruct (queue_trivial.should_reallocate t_wrapped) as [qt' | f] eqn:E;
    [| vm_compute in E; discriminate E].
  intros H. exists qt'. split; [reflexivity | exact H].
Defined.

(** ** back(), in general *)

(** X10.  On a non-empty instance of either struct reached by appends and
    removes, [back()] completes and denotes the slot
    [(front + 2 * size - 1) mod capacity]; this is the slot of the newest
    element, [q[size - 1]], exactly when the block is full. *)
Theorem back_is_the_newest_only_when_full {T : Type} (T_default : T)
  (ops : list (@queue.op T)) (tops : list (@queue_trivial.op T))
  (q qt : state T) :
  queue.run T_default queue.ctor ops = Ok q ->
  existsb queue_trivial.is_clear tops = false ->
  queue_trivial.run queue_trivial.ctor tops = Ok qt ->
  size_ q > 0 -> size_ qt > 0 ->
  (queue.back q = Ok ((front_ q + (2 * size_ q - 1)) mod capacity_ q) /\
   (queue.back q = queue.subscript q (size_ q - 1) <->
    size_ q = capacity_ q)) /\
  (queue_trivial.back qt =
     Ok ((front_ qt + (2 * size_ qt - 1)) mod capacity_ qt) /\
   (queue_trivial.back qt = queue_trivial.subscript qt (size_ qt - 1) <->
    size_ qt = capacity_ qt)).
Proof.
  intros Hq Hnc Hqt Hpos Hpost.
  apply queue_reachable_ring in Hq as Hring.
  apply (trivial_run_ring tops _ _ ring_ctor Hnc) in Hqt as Hringt.
  change (@queue_trivial.back T) with (@queue.back T).
  change (@queue_trivial.subscript T) with (@queue.subscript T).
  split; (split; [apply back_of_ring | apply back_is_newest_iff_full]);
    (done || lia).
Qed.

Lemma back_is_the_newest_only_when_full_witness :
  queue.run 0 queue.ctor [queue.PushBack 7] = Ok q_one /\
  existsb queue_trivial.is_clear [queue_trivial.PushBack 7] = false /\
  queue_trivial.run queue_trivial.ctor [queue_trivial.PushBack 7] = Ok t_one /\
  size_ q_one > 0 /\ size_ t_one > 0 /\
  (queue.back q_one =
     Ok ((front_ q_one + (2 * size_ q_one - 1)) mod capacity_ q_one) /\
   (queue.back q_one = queue.subscript q_one (size_ q_one - 1) <->
    size_ q_one = capacity_ q_one)) /\
  (queue_trivial.back t_one =
     Ok ((front_ t_one + (2 * size_ t_one - 1)) mod capacity_ t_one) /\
   (queue_trivial.back t_one = queue_trivial.subscript t_one (size_ t_one - 1)
    <-> size_ t_one = capacity_ t_one)).
Proof.
  do 5 (split; [reflexivity |]).
  apply (back_is_the_newest_only_when_full 0 [queue.PushBack 7]
           [queue_trivial.PushBack 7] q_one t_one); reflexivity.
Defined.

(** ** The capacity and the number of allocations *)

Section doubling.
Context {T : Type}.
Variable T_default : T.
Implicit Types (q : state T).

Lemma count_nonneg (p : event -> bool) (l : list event) : 0 <= count p l.
Proof. induction l as [| e l IH]; simpl; [| destruct (p e)]; lia. Qed.

Lemma doubled (c a : Z) :
  0 <= a -> c = (if a =? 0 then 0 else 2 ^ a) ->
  Z.max 2 (2 * c) = if a + 1 =? 0 then 0 else 2 ^ (a + 1).
Proof.
  intros Ha ->. destruct (Z.eqb_spec (a + 1) 0); [lia |].
  destruct (Z.eqb_spec a 0) as [-> | Hn0]; [done |].
  rewrite Z.pow_add_r, Z.pow_1_r by lia.
  pose proof (Z.pow_le_mono_r 2 1 a ltac:(lia) ltac:(lia)). lia.
Qed.

(** A call keeps the capacity and allocates nothing, or doubles the
    capacity (from 0 to 2) and allocates once. *)
Lemma queue_step_capacity q (o : @queue.op T) q' :
  ring q -> queue.step T_default q o = Ok q' ->
  (capacity_ q' = capacity_ q /\
   allocations (log_ q') = allocations (log_ q)) \/
  (capacity_ q' = Z.max 2 (2 * capacity_ q) /\
   allocations (log_ q') = allocations (log_ q) + 1).
Proof.
  intros Hring Hstep. pose proof Hring as [Hwf _].
  destruct (queue.is_append o) eqn:Ho.
  - destruct (queue_append_inv T_default q o _ Hwf Ho Hstep)
      as (q1 & _ & Hra & Heq).
    rewrite Heq in Hstep. injection Hstep as <-. simpl.
    pose proof (ra_capacity _ _ Hra) as Hcap.
    pose proof (ra_allocations _ _ Hra) as Hal.
    assert (allocations (log_ q1 ++ [queue.logged o]) = allocations (log_ q1))
      as ->.
    { unfold allocations. rewrite count_app. simpl.
      destruct o; simpl; try discriminate; lia. }
    destruct (size_ q =? capacity_ q); [right | left]; lia.
  - left. destruct o as [data | data | | |]; try discriminate; simpl in Hstep.
    + destruct (Z.eq_dec (size_ q) 0) as [H0 | Hn0].
      { rewrite queue_pop_empty in Hstep by done. discriminate. }
      open_wf Hwf.
      rewrite queue_pop_eq in Hstep by (done || lia). injection Hstep as <-.
      simpl. unfold allocations. rewrite count_app. simpl. lia.
    + destruct (queue_clear_spec q Hwf)
        as (q2 & Hrun & _ & _ & _ & _ & Hc & Hal & _).
      rewrite Hrun in Hstep. injection Hstep as <-. done.
Qed.

Lemma trivial_step_capacity q (o : @queue_trivial.op T) q' :
  wf q -> queue_trivial.step q o = Ok q' ->
  (capacity_ q' = capacity_ q /\
   allocations (log_ q') = allocations (log_ q)) \/
  (capacity_ q' = Z.max 2 (2 * capacity_ q) /\
   allocations (log_ q') = allocations (log_ q) + 1).
Proof.
  intros Hwf Hstep.
  destruct (queue_trivial.is_append o) eqn:Ho.
  - destruct (trivial_append_inv q o _ Hwf Ho Hstep) as (q1 & _ & Hra & Heq).
    rewrite Heq in Hstep. injection Hstep as <-. simpl.
    pose proof (ra_capacity _ _ Hra) as Hcap.
    pose proof (ra_allocations _ _ Hra) as Hal.
    destruct (size_ q =? capacity_ q); [right | left]; lia.
  - left. open_wf Hwf.
    destruct o as [data | init | | deinit | |]; try discriminate;
      simpl in Hstep.
    + destruct (Z.eq_dec (size_ q) 0) as [H0 | Hn0].
      { rewrite trivial_pop_deinit_empty in Hstep by done. discriminate. }
      rewrite trivial_pop_deinit_eq in Hstep by (done || lia).
      by injection Hstep as <-.
    + destruct (Z.eq_dec (size_ q) 0) as [H0 | Hn0].
      { rewrite trivial_pop_empty in Hstep by done. discriminate. }
      rewrite trivial_pop_eq in Hstep by (done || lia).
      by injection Hstep as <-.
    + by injection Hstep as <-.
Qed.

Lemma capacity_step q q' :
  capacity_ q =
    (if allocations (log_ q) =? 0 then 0 else 2 ^ allocations (log_ q)) ->
  (capacity_ q' = capacity_ q /\
   allocations (log_ q') = allocations (log_ q)) \/
  (capacity_ q' = Z.max 2 (2 * capacity_ q) /\
   allocations (log_ q') = allocations (log_ q) + 1) ->
  capacity_ q' =
    (if allocations (log_ q') =? 0 then 0 else 2 ^ allocations (log_ q')).
Proof.
  intros Hinv [[Hc Ha] | [Hc Ha]]; rewrite Hc, Ha; [done |].
  apply doubled; [apply count_nonneg | done].
Qed.

Lemma queue_run_capacity (ops : list (@queue.op T)) :
  forall q q', ring q ->
  capacity_ q =
    (if allocations (log_ q) =? 0 then 0 else 2 ^ allocations (log_ q)) ->
  queue.run T_default q ops = Ok q' ->
  capacity_ q' =
    (if allocations (log_ q') =? 0 then 0 else 2 ^ allocations (log_ q')).
Proof.
  induction ops as [| o ops IH]; intros q q' Hring Hinv Hrun; simpl in Hrun.
  - by injection Hrun as <-.
  - apply bind_Ok in Hrun as (q1 & Hstep & Hrun).
    apply (IH q1 q'); [| | done].
    + by apply (queue_step_ring T_default q o).
    + apply (capacity_step q q1 Hinv).
      by apply (queue_step_capacity q o).
Qed.

Lemma trivial_run_capacity (ops : list (@queue_trivial.op T)) :
  forall q q', wf q ->
  capacity_ q =
    (if allocations (log_ q) =? 0 then 0 else 2 ^ allocations (log_ q)) ->
  queue_trivial.run q ops = Ok q' ->
  capacity_ q' =
    (if allocations (log_ q') =? 0 then 0 else 2 ^ allocations (log_ q')).
Proof.
  induction ops as [| o ops IH]; intros q q' Hwf Hinv Hrun; simpl in Hrun.
  - by injection Hrun as <-.
  - apply bind_Ok in Hrun as (q1 & Hstep & Hrun).
    apply (IH q1 q'); [| | done].
    + by apply (trivial_step_wf q o).
    + apply (capacity_step q q1 Hinv).
      by apply (trivial_step_capacity q o).
Qed.

End doubling.

(** X11.  The capacity of a reachable instance of either struct is 0 as
    long as it has allocated no block and [2 ^ k] once it has allocated [k]
    blocks: the capacities an instance goes through are 0, 2, 4, 8, ... *)
Theorem capacity_is_two_to_the_allocations {T : Type} (T_default : T)
  (ops : list (@queue.op T)) (tops : list (@queue_trivial.op T))
  (q qt : state T) :
  queue.run T_default queue.ctor ops = Ok q ->
  queue_trivial.run queue_trivial.ctor tops = Ok qt ->
  capacity_ q =
    (if allocations (log_ q) =? 0 then 0 else 2 ^ allocations (log_ q)) /\
  capacity_ qt =
    (if allocations (log_ qt) =? 0 then 0 else 2 ^ allocations (log_ qt)).
Proof.
  intros Hq Hqt. split.
  - by apply (queue_run_capacity T_default ops queue.ctor q ring_ctor).
  - by apply (trivial_run_capacity tops queue_trivial.ctor qt wf_ctor).
Qed.

Lemma capacity_is_two_to_the_allocations_witness :
  queue.run 0 queue.ctor q_wrapped_ops = Ok q_wrapped /\
  queue_trivial.run queue_trivial.ctor t_wrapped_ops = Ok t_wrapped /\
  capacity_ q_wrapped =
    (if allocations (log_ q_wrapped) =? 0 then 0
     else 2 ^ allocations (log_ q_wrapped)) /\
  capacity_ t_wrapped =
    (if allocations (log_ t_wrapped) =? 0 then 0
     else 2 ^ allocations (log_ t_wrapped)).
Proof.
  do 2 (split; [reflexivity |]).
  apply (capacity_is_two_to_the_allocations 0 q_wrapped_ops t_wrapped_ops
           q_wrapped t_wrapped); reflexivity.
Defined.

(** ** Reuse of a slot around the ring *)

Section reuse.
Context {T : Type}.
Implicit Types (q : state T).

(** On a full ring, the element appended after a remove goes into the slot
    the remove left. *)
Lemma appended_after_removed q (v w : option T) (l l' : list event) :
  ring q -> size_ q = capacity_ q -> 0 < capacity_ q ->
  queue.subscript (appended (removed q v l) w l') (size_ q - 1) =
    Ok (front_ q) /\
  queue.get (appended (removed q v l) w l') (size_ q - 1) = Ok w /\
  forall i, 0 <= i < size_ q - 1 ->
    queue.get (appended (removed q v l) w l') i = queue.get q (i + 1).
Proof.
  intros Hring Hfull Hcap. pose proof Hring as [Hwf Hback]. open_wf Hwf.
  assert (ring (removed q v l)) as Hring1 by (apply ring_removed; [done | lia]).
  pose proof Hring1 as [Hwf1 Hback1].
  assert (size_ (removed q v l) = size_ q - 1) as Hsize1 by done.
  split; [| split].
  - rewrite subscript_ok; [| apply wf_appended; [done | simpl; lia]
                           | simpl; lia].
    change (front_ (appended (removed q v l) w l'))
      with (front_ (removed q v l)).
    change (capacity_ (appended (removed q v l) w l'))
      with (capacity_ (removed q v l)).
    rewrite <- Hsize1, <- Hback1 by (simpl; lia). simpl.
    rewrite Hback, Hfull by lia.
    replace (front_ q + capacity_ q) with (front_ q + 1 * capacity_ q) by lia.
    rewrite Z.mod_add, Z.mod_small by lia. done.
  - rewrite <- Hsize1. apply get_appended_new; [done | simpl; lia].
  - intros i Hi. rewrite get_appended_old by (done || simpl; lia).
    by apply get_removed.
Qed.

End reuse.

(** X12.  On a full reachable instance, [pop()] followed by [push_back(x)]
    allocates nothing and keeps the capacity and the size: [x] goes into
    the slot the removed element occupied and is the last element, and the
    others have moved one position towards the front.  In [queue] after
    any calls, in [queue_trivial] after appends and removes. *)
Theorem push_after_pop_reuses_the_slot {T : Type} (T_default : T)
  (ops : list (@queue.op T)) (tops : list (@queue_trivial.op T))
  (q qt : state T) (x : T) :
  queue.run T_default queue.ctor ops = Ok q ->
  existsb queue_trivial.is_clear tops = false ->
  queue_trivial.run queue_trivial.ctor tops = Ok qt ->
  size_ q = capacity_ q -> 0 < capacity_ q ->
  size_ qt = capacity_ qt -> 0 < capacity_ qt ->
  (exists q1 q2,
     queue.pop q = Ok q1 /\ queue.push_back q1 x = Ok q2 /\
     capacity_ q2 = capacity_ q /\ size_ q2 = size_ q /\
     allocations (log_ q2) = allocations (log_ q) /\
     queue.subscript q2 (size_ q - 1) = Ok (front_ q) /\
     queue.get q2 (size_ q - 1) = Ok (Some x) /\
     forall i, 0 <= i < size_ q - 1 -> queue.get q2 i = queue.get q (i + 1)) /\
  (exists qt1 qt2,
     queue_trivial.pop qt = Ok qt1 /\ queue_trivial.push_back qt1 x = Ok qt2 /\
     capacity_ qt2 = capacity_ qt /\ size_ qt2 = size_ qt /\
     allocations (log_ qt2) = allocations (log_ qt) /\
     queue_trivial.subscript qt2 (size_ qt - 1) = Ok (front_ qt) /\
     queue_trivial.get qt2 (size_ qt - 1) = Ok (Some x) /\
     forall i, 0 <= i < size_ qt - 1 ->
       queue_trivial.get qt2 i = queue_trivial.get qt (i + 1)).
Proof.
  intros Hq Hnc Hqt Hfull Hcap Hfullt Hcapt.
  apply queue_reachable_ring in Hq as Hring.
  apply (trivial_run_ring tops _ _ ring_ctor Hnc) in Hqt as Hringt.
  split.
  - pose proof Hring as [Hwf _].
    set (q1 := removed q None (log_ q ++ [Destruct])).
    assert (wf q1) as Hwf1 by (apply wf_removed; [done | lia]).
    assert (fits q1) as Hfits1 by (unfold fits, q1; simpl; lia).
    destruct (queue_push_back_eq q1 x Hwf1 Hfits1) as (q1' & _ & Hra & Heq).
    rewrite (ra_keep _ _ Hra) in Heq by (simpl; lia).
    exists q1. eexists. split; [apply queue_pop_eq; [done | lia] |].
    split; [exact Heq |]. split; [done |]. split; [simpl; lia |]. split.
    + simpl. unfold allocations. rewrite !count_app. simpl. lia.
    + by apply appended_after_removed.
  - pose proof Hringt as [Hwf _].
    set (q1 := removed qt (slot (buffer_ qt) (front_ qt)) (log_ qt)).
    assert (wf q1) as Hwf1 by (apply wf_removed; [done | lia]).
    assert (fits q1) as Hfits1 by (unfold fits, q1; simpl; lia).
    destruct (trivial_append_eq q1 (queue_trivial.PushBack x) Hwf1 eq_refl
                Hfits1) as (q1' & _ & Hra & Heq).
    rewrite (ra_keep _ _ Hra) in Heq by (simpl; lia). simpl in Heq.
    exists q1. eexists. split; [apply trivial_pop_eq; [done | lia] |].
    split; [exact Heq |]. split; [done |]. split; [simpl; lia |].
    split; [done |].
    change (@queue_trivial.subscript T) with (@queue.subscript T).
    change (@queue_trivial.get T) with (@queue.get T).
    by apply appended_after_removed.
Qed.

Lemma push_after_pop_reuses_the_slot_witness :
  queue.run 0 queue.ctor q_wrapped_ops = Ok q_wrapped /\
  existsb queue_trivial.is_clear t_wrapped_ops = false /\
  queue_trivial.run queue_trivial.ctor t_wrapped_ops = Ok t_wrapped /\
  size_ q_wrapped = capacity_ q_wrapped /\ 0 < capacity_ q_wrapped /\
  size_ t_wrapped = capacity_ t_wrapped /\ 0 < capacity_ t_wrapped /\
  (exists q1 q2,
     queue.pop q_wrapped = Ok q1 /\ queue.push_back q1 9 = Ok q2 /\
     capacity_ q2 = capacity_ q_wrapped /\ size_ q2 = size_ q_wrapped /\
     allocations (log_ q2) = allocations (log_ q_wrapped) /\
     queue.subscript q2 (size_ q_wrapped - 1) = Ok (front_ q_wrapped) /\
     queue.get q2 (size_ q_wrapped - 1) = Ok (Some 9) /\
     forall i, 0 <= i < size_ q_wrapped - 1 ->
       queue.get q2 i = queue.get q_wrapped (i + 1)) /\
  (exists qt1 qt2,
     queue_trivial.pop t_wrapped = Ok qt1 /\
     queue_trivial.push_back qt1 9 = Ok qt2 /\
     capacity_ qt2 = capacity_ t_wrapped /\ size_ qt2 = size_ t_wrapped /\
     allocations (log_ qt2) = allocations (log_ t_wrapped) /\
     queue_trivial.subscript qt2 (size_ t_wrapped - 1) =
       Ok (front_ t_wrapped) /\
     queue_trivial.get qt2 (size_ t_wrapped - 1) = Ok (Some 9) /\
     forall i, 0 <= i < size_ t_wrapped - 1 ->
       queue_trivial.get qt2 i = queue_trivial.get t_wrapped (i + 1)).
Proof.
  do 7 (split; [reflexivity |]).
  apply (push_after_pop_reuses_the_slot 0 q_wrapped_ops t_wrapped_ops
           q_wrapped t_wrapped 9); reflexivity.
Defined.

(** ** Which slots of a queue hold a value *)

Section objects.
Context {T : Type}.
Variable T_default : T.
Implicit Types (q : state T).

Lemma occupied_ctor : occupied (@queue.ctor T).
Proof. intros k Hk. simpl in Hk. lia. Qed.

(** The slots of the new block beyond the live elements are as [malloc]
    left them. *)
Lemma should_reallocate_grow_rest q q1 :
  wf q -> size_ q = capacity_ q -> queue.should_reallocate q = Ok q1 ->
  forall k, size_ q <= k -> slot (buffer_ q1) k = None.
Proof.
  intros Hwf Hfull Hrun k Hk.
  pose proof (should_reallocate_fits q q1 Hwf Hrun Hfull) as Hfit.
  destruct (should_reallocate_grow q Hwf Hfull Hfit)
    as (b & Hrun' & _ & _ & Hrest).
  rewrite Hrun' in Hrun. injection Hrun as <-. simpl. by apply Hrest.
Qed.

Lemma occupied_reallocated q q1 :
  wf q -> occupied q -> queue.should_reallocate q = Ok q1 -> occupied q1.
Proof.
  intros Hwf Hocc Hrun. open_wf Hwf.
  destruct (Z.eq_dec (size_ q) (capacity_ q)) as [Hfull | Hroom].
  - pose proof (should_reallocate_grow_rest q q1 Hwf Hfull Hrun) as Hrest.
    pose proof (should_reallocate_fits q q1 Hwf Hrun Hfull) as Hfit.
    destruct (should_reallocate_grow q Hwf Hfull Hfit)
      as (b & Hrun' & Hlen' & Hs & _).
    rewrite Hrun' in Hrun. injection Hrun as <-. simpl in Hrest.
    intros k Hk. simpl in Hk |- *.
    destruct (Z.lt_ge_cases k (size_ q)) as [Hlt | Hge].
    + rewrite Hs by lia. split.
      * intros _. exists k. rewrite Z.mod_small by lia. lia.
      * intros _.
        pose proof (Z.mod_pos_bound (front_ q + k) (capacity_ q)) as Hm.
        apply Hocc; [lia |]. exists k. lia.
    + rewrite Hrest by lia. split; [done |].
      intros (i & Hi & E). rewrite Z.mod_small in E by lia. lia.
  - rewrite should_reallocate_keep in Hrun by done. by injection Hrun as <-.
Qed.

Lemma occupied_appended q (x : T) (l : list event) :
  ring q -> size_ q < capacity_ q -> occupied q ->
  occupied (appended q (Some x) l).
Proof.
  intros [Hwf Hback] Hroom Hocc k Hk. open_wf Hwf. simpl in Hk |- *.
  destruct (Z.eq_dec k (back_ q)) as [-> | Hne].
  - rewrite slot_insert_eq by lia. split; [| done].
    intros _. exists (size_ q). split; [lia | by apply Hback; lia].
  - rewrite slot_insert_ne by lia. rewrite (Hocc k Hk). split.
    + intros (i & Hi & E). exists i. split; [lia | done].
    + intros (i & Hi & E). exists i. split; [| done].
      destruct (Z.eq_dec i (size_ q)) as [-> | ?]; [| lia].
      rewrite <- Hback in E by lia. done.
Qed.

Lemma occupied_removed q (l : list event) :
  wf q -> 0 < size_ q -> occupied q -> occupied (removed q None l).
Proof.
  intros Hwf Hpos Hocc k Hk. open_wf Hwf. simpl in Hk |- *.
  assert (forall i, ((front_ q + 1) mod capacity_ q + i) mod capacity_ q =
                    (front_ q + (i + 1)) mod capacity_ q) as Hshift.
  { intros i. rewrite Z.add_mod_idemp_l by lia. f_equal. lia. }
  destruct (Z.eq_dec k (front_ q)) as [-> | Hne].
  - rewrite slot_insert_eq by lia. split; [done |].
    intros (i & Hi & E). rewrite Hshift in E.
    rewrite <- (Z.mod_small (front_ q) (capacity_ q)) in E at 1 by lia.
    rewrite <- (Z.add_0_r (front_ q)) in E at 1.
    apply ring_slots_distinct in E; lia.
  - rewrite slot_insert_ne by lia. rewrite (Hocc k Hk). split.
    + intros (i & Hi & E). exists (i - 1). rewrite Hshift.
      destruct (Z.eq_dec i 0) as [-> | ?].
      * rewrite Z.add_0_r, Z.mod_small in E by lia. done.
      * split; [lia |]. rewrite E. f_equal. lia.
    + intros (i & Hi & E). exists (i + 1). rewrite Hshift in E. lia.
Qed.

(** The loop of [clear] on a queue whose objects are the live elements:
    it destroys each of them and leaves no object in the block. *)
Lemma queue_pop_while_objects (fuel : nat) :
  forall q, wf q -> occupied q -> size_ q <= Z.of_nat fuel ->
  exists q',
    queue.pop_while fuel q = Ok q' /\ wf q' /\ occupied q' /\
    size_ q' = 0 /\
    log_ q' = log_ q ++ replicate (Z.to_nat (size_ q)) Destruct.
Proof.
  induction fuel as [| fuel IH]; intros q Hwf Hocc Hfuel.
  - exists q. pose proof Hwf as (_ & Hsz & _). simpl.
    replace (Z.to_nat (size_ q)) with 0%nat by lia. simpl.
    rewrite app_nil_r.
    split; [done |]. split; [done |]. split; [done |]. split; [lia | done].
  - simpl. destruct (Z.ltb_spec 0 (size_ q)) as [Hpos | Hzero].
    + rewrite queue_pop_eq by done. simpl.
      destruct (IH (removed q None (log_ q ++ [Destruct])))
        as (q' & Hrun & Hwf' & Hocc' & Hsize & Hlog).
      { by apply wf_removed. }
      { by apply occupied_removed. }
      { simpl. lia. }
      exists q'. split; [exact Hrun |]. split; [exact Hwf' |].
      split; [exact Hocc' |]. split; [exact Hsize |].
      rewrite Hlog. simpl. rewrite <- app_assoc. f_equal.
      replace (Z.to_nat (size_ q)) with (S (Z.to_nat (size_ q - 1))) by lia.
      done.
    + exists q. pose proof Hwf as (_ & Hsz & _).
      replace (Z.to_nat (size_ q)) with 0%nat by lia. simpl.
      rewrite app_nil_r.
    split; [done |]. split; [done |]. split; [done |]. split; [lia | done].
Qed.

Lemma queue_clear_objects q :
  wf q -> occupied q ->
  exists q',
    queue.clear q = Ok q' /\ occupied q' /\ size_ q' = 0 /\
    capacity_ q' = capacity_ q /\
    log_ q' = log_ q ++ replicate (Z.to_nat (size_ q)) Destruct /\
    forall k, 0 <= k < capacity_ q' -> slot (buffer_ q') k = None.
Proof.
  intros Hwf Hocc.
  destruct (queue_pop_while_objects (Z.to_nat (size_ q)) q Hwf Hocc
              ltac:(lia)) as (q' & Hrun & Hwf' & Hocc' & Hsize & Hlog).
  destruct (queue_clear_spec q Hwf) as (q2 & Hclear & _ & _ & _ & _ & Hc & _).
  unfold queue.clear in *. rewrite Hrun in *. simpl in *.
  injection Hclear as <-. simpl in Hc.
  assert (forall k, 0 <= k < capacity_ q' -> slot (buffer_ q') k = None)
    as Hnone.
  { intros k Hk. destruct (slot (buffer_ q') k) as [x |] eqn:E; [| done].
    assert (slot (buffer_ q') k <> None) as Hsome by (by rewrite E).
    apply (Hocc' k Hk) in Hsome as (i & Hi & _). lia. }
  eexists. split; [done |]. simpl. split; [| by repeat split].
  intros k Hk. simpl in Hk |- *. rewrite Hnone by done. split; [done |].
  intros (i & Hi & _). lia.
Qed.

Lemma queue_step_occupied q (o : @queue.op T) q' :
  ring q -> occupied q -> queue.step T_default q o = Ok q' -> occupied q'.
Proof.
  intros Hring Hocc Hstep. pose proof Hring as [Hwf _].
  destruct (queue.is_append o) eqn:Ho.
  - destruct (queue_append_inv T_default q o _ Hwf Ho Hstep)
      as (q1 & Hre & Hra & Heq).
    rewrite Heq in Hstep. injection Hstep as <-.
    destruct (fifo_step_append T_default o Ho) as (x & -> & _).
    apply occupied_appended; [by apply Hra | apply Hra |].
    by apply (occupied_reallocated q).
  - destruct o as [data | data | | |]; try discriminate; simpl in Hstep.
    + destruct (Z.eq_dec (size_ q) 0) as [H0 | Hn0].
      { rewrite queue_pop_empty in Hstep by done. discriminate. }
      open_wf Hwf.
      rewrite queue_pop_eq in Hstep by (done || lia). injection Hstep as <-.
      apply occupied_removed; (done || lia).
    + destruct (queue_clear_objects q Hwf Hocc) as (q2 & Hrun & Hocc2 & _).
      rewrite Hrun in Hstep. by injection Hstep as <-.
Qed.

Lemma queue_run_occupied (ops : list (@queue.op T)) :
  forall q q', ring q -> occupied q ->
  queue.run T_default q ops = Ok q' -> occupied q'.
Proof.
  induction ops as [| o ops IH]; intros q q' Hring Hocc Hrun; simpl in Hrun.
  - by injection Hrun as <-.
  - apply bind_Ok in Hrun as (q1 & Hstep & Hrun).
    apply (IH q1 q'); [| | done].
    + by apply (queue_step_ring T_default q o).
    + by apply (queue_step_occupied q o).
Qed.

End objects.

(** X13.  In a reachable [queue] the slots that hold a value are exactly
    those of the live elements: every position below [size()] denotes a
    slot that an assignment or [T()] has written and that no destructor
    call has been made on since, and a slot of the block that no position
    denotes is as [malloc] returned it or as the destructor call of [pop]
    left it.  (Whether the written slot holds a constructed object is
    another matter: [push_back] writes it without a constructor call.) *)
Theorem written_slots_are_the_live_elements {T : Type} (T_default : T)
  (ops : list (@queue.op T)) (q : state T) :
  queue.run T_default queue.ctor ops = Ok q ->
  (forall i, 0 <= i < queue.size q -> exists x, queue.get q i = Ok (Some x)) /\
  (forall k, 0 <= k < capacity_ q ->
     (forall i, 0 <= i < queue.size q -> queue.subscript q i <> Ok k) ->
     read (buffer_ q) k = Ok None).
Proof.
  intros Hq. apply queue_reachable_ring in Hq as Hring.
  apply (queue_run_occupied T_default ops _ _ ring_ctor occupied_ctor) in Hq
    as Hocc.
  pose proof Hring as [Hwf _]. open_wf Hwf. unfold queue.size. split.
  - intros i Hi. rewrite get_ok by done.
    pose proof (Z.mod_pos_bound (front_ q + i) (capacity_ q)) as Hm.
    destruct (slot (buffer_ q) ((front_ q + i) mod capacity_ q)) as [x |] eqn:E;
      [by exists x |].
    exfalso. apply (proj2 (Hocc ((front_ q + i) mod capacity_ q) ltac:(lia)));
      [by exists i | done].
  - intros k Hk Hfree. rewrite read_ok by lia. f_equal.
    destruct (slot (buffer_ q) k) as [x |] eqn:E; [| done].
    exfalso.
    assert (slot (buffer_ q) k <> None) as Hsome by (by rewrite E).
    apply (Hocc k Hk) in Hsome as (i & Hi & ->).
    apply (Hfree i Hi). by apply subscript_ok.
Qed.

(** After three pushes, a [pop] and an [emplace_back()] the block of four
    slots holds the three live elements in slots 1, 2 and 3; slot 0, which
    [pop] left, holds none. *)
Lemma written_slots_are_the_live_elements_witness :
  queue.run 0 queue.ctor q_popped_ops = Ok q_popped /\
  (queue.get q_popped 0 = Ok (Some 2) /\ queue.get q_popped 1 = Ok (Some 3) /\
   queue.get q_popped 2 = Ok (Some 0)) /\
  (forall i, 0 <= i < queue.size q_popped ->
     exists x, queue.get q_popped i = Ok (Some x)) /\
  read (buffer_ q_popped) 0 = Ok None.
Proof.
  split; [reflexivity |]. split; [vm_compute; repeat split |].
  destruct (written_slots_are_the_live_elements 0 q_popped_ops q_popped
              eq_refl) as [Hlive Hrest].
  split; [exact Hlive |]. apply Hrest; [simpl; lia |].
  intros i Hi. change (queue.size q_popped) with 3 in Hi.
  assert (i = 0 \/ i = 1 \/ i = 2) as [-> | [-> | ->]] by lia;
    vm_compute; discriminate.
Defined.

(** ** queue::clear *)

(** X14.  On a reachable [queue], [clear()] completes and calls the
    destructor once for each live element and nothing else; afterwards the
    queue is empty with [front_ = back_ = 0], the capacity is what it was,
    and no slot of the block holds an object. *)
Theorem clear_destroys_every_element {T : Type} (T_default : T)
  (ops : list (@queue.op T)) (q : state T) :
  queue.run T_default queue.ctor ops = Ok q ->
  exists q',
    queue.clear q = Ok q' /\
    queue.size q' = 0 /\ queue.empty q' = 1 /\
    front_ q' = 0 /\ back_ q' = 0 /\ capacity_ q' = capacity_ q /\
    log_ q' = log_ q ++ replicate (Z.to_nat (queue.size q)) Destruct /\
    forall k, 0 <= k < capacity_ q' -> read (buffer_ q') k = Ok None.
Proof.
  intros Hq. apply queue_reachable_ring in Hq as Hring.
  apply (queue_run_occupied T_default ops _ _ ring_ctor occupied_ctor) in Hq
    as Hocc.
  pose proof Hring as [Hwf _].
  destruct (queue_clear_objects q Hwf Hocc)
    as (q' & Hrun & _ & Hsize & Hcap & Hlog & Hnone).
  destruct (queue_clear_spec q Hwf)
    as (q2 & Hrun2 & [Hwf2 _] & _ & Hfront & Hback & _).
  rewrite Hrun in Hrun2. injection Hrun2 as <-.
  exists q'. unfold queue.size, queue.empty. rewrite Hsize.
  repeat split; try done.
  intros k Hk. destruct Hwf2 as (Hlen & _).
  rewrite read_ok by lia. f_equal. by apply Hnone.
Qed.

Lemma clear_destroys_every_element_witness :
  queue.run 0 queue.ctor q_wrapped_ops = Ok q_wrapped /\
  exists q',
    queue.clear q_wrapped = Ok q' /\
    queue.size q' = 0 /\ queue.empty q' = 1 /\
    front_ q' = 0 /\ back_ q' = 0 /\ capacity_ q' = capacity_ q_wrapped /\
    log_ q' =
      log_ q_wrapped ++ replicate (Z.to_nat (queue.size q_wrapped)) Destruct /\
    forall k, 0 <= k < capacity_ q' -> read (buffer_ q') k = Ok None.
Proof.
  split; [reflexivity |].
  apply (clear_destroys_every_element 0 q_wrapped_ops q_wrapped); reflexivity.
Defined.

(** ** queue::~queue *)

Section destruction.
Context {T : Type}.
Variable T_default : T.
Implicit Types (q : state T).

Lemma destroy_elements_ok q (n : nat) :
  wf q ->
  forall (i : Z) (b : block T),
    length b = length (buffer_ q) -> 0 <= i -> i + Z.of_nat n <= size_ q ->
    exists b', queue.destroy_elements n i q b = Ok b'.
Proof.
  intros Hwf. open_wf Hwf.
  induction n as [| n IH]; intros i b Hblk Hi Hin; simpl; [by exists b |].
  pose proof (Z.mod_pos_bound (front_ q + i) (capacity_ q)) as Hm.
  prims. apply IH; [by rewrite length_insert | lia | lia].
Qed.

Lemma queue_dtor_ok q :
  wf q ->
  queue.dtor q =
    Ok (log_ q ++ if capacity_ q =? 0 then []
                  else replicate (Z.to_nat (size_ q)) Destruct ++ [Free]).
Proof.
  intros Hwf. open_wf Hwf. unfold queue.dtor.
  destruct (Z.eqb_spec (capacity_ q) 0) as [H0 | Hn0].
  - destruct (buffer_ q) as [| o b]; [| simpl in Hlen; lia].
    simpl. by rewrite app_nil_r.
  - destruct (buffer_ q) as [| o b] eqn:E; [simpl in Hlen; lia |].
    simpl is_null. cbv iota. rewrite <- E.
    destruct (destroy_elements_ok q (Z.to_nat (size_ q)) Hwf 0 (buffer_ q))
      as (b' & ->); (done || lia).
Qed.

Lemma queue_reallocated_destructs q q1 :
  wf q -> queue.should_reallocate q = Ok q1 ->
  count is_destruct (log_ q1) = count is_destruct (log_ q).
Proof.
  intros Hwf Hrun.
  destruct (Z.eq_dec (size_ q) (capacity_ q)) as [Hfull | Hroom].
  - pose proof (should_reallocate_fits q q1 Hwf Hrun Hfull) as Hfit.
    destruct (should_reallocate_grow q Hwf Hfull Hfit) as (b & Hrun' & _).
    rewrite Hrun' in Hrun. injection Hrun as <-. simpl.
    rewrite count_app. simpl. rewrite count_app.
    rewrite count_replicate_false by done. simpl. lia.
  - rewrite should_reallocate_keep in Hrun by done. by injection Hrun as <-.
Qed.

(** Destructor calls so far plus live elements: each append adds one. *)
Lemma queue_step_destructs q (o : @queue.op T) q' :
  ring q -> occupied q -> queue.step T_default q o = Ok q' ->
  count is_destruct (log_ q') + size_ q' =
  count is_destruct (log_ q) + size_ q +
  (if queue.is_append o then 1 else 0).
Proof.
  intros Hring Hocc Hstep. pose proof Hring as [Hwf _].
  destruct (queue.is_append o) eqn:Ho.
  - destruct (queue_append_inv T_default q o _ Hwf Ho Hstep)
      as (q1 & Hre & Hra & Heq).
    rewrite Heq in Hstep. injection Hstep as <-. simpl.
    rewrite count_app, (queue_reallocated_destructs q q1 Hwf Hre).
    rewrite (ra_size _ _ Hra).
    destruct o; simpl; try discriminate; lia.
  - destruct o as [data | data | | |]; try discriminate; simpl in Hstep.
    + destruct (Z.eq_dec (size_ q) 0) as [H0 | Hn0].
      { rewrite queue_pop_empty in Hstep by done. discriminate. }
      open_wf Hwf.
      rewrite queue_pop_eq in Hstep by (done || lia). injection Hstep as <-.
      simpl. rewrite count_app. simpl. lia.
    + destruct (queue_clear_objects q Hwf Hocc)
        as (q2 & Hrun & _ & Hsize & _ & Hlog & _).
      rewrite Hrun in Hstep. injection Hstep as <-.
      rewrite Hlog, Hsize, count_app.
      rewrite count_replicate_true by done.
      pose proof Hwf as (_ & Hsz & _). lia.
Qed.

Lemma queue_run_destructs (ops : list (@queue.op T)) :
  forall q q', ring q -> occupied q ->
  queue.run T_default q ops = Ok q' ->
  count is_destruct (log_ q') + size_ q' =
  count is_destruct (log_ q) + size_ q + appends ops.
Proof.
  induction ops as [| o ops IH]; intros q q' Hring Hocc Hrun; simpl in Hrun.
  - injection Hrun as <-. simpl. lia.
  - apply bind_Ok in Hrun as (q1 & Hstep & Hrun).
    rewrite (IH q1 q'); [| | | done].
    + rewrite (queue_step_destructs q o q1) by done. simpl. lia.
    + by apply (queue_step_ring T_default q o).
    + by apply (queue_step_occupied T_default q o).
Qed.

End destruction.

(** X15.  Destroying a reachable [queue] completes: if the instance never
    allocated it calls nothing, otherwise it calls the destructor once for
    each live element and then [free] once.  Over the whole life of the
    instance the destructor has then been called as many times as elements
    were appended. *)
Theorem destructor_destroys_what_is_left {T : Type} (T_default : T)
  (ops : list (@queue.op T)) (q : state T) :
  queue.run T_default queue.ctor ops = Ok q ->
  exists l,
    queue.dtor q = Ok l /\
    l = log_ q ++ (if capacity_ q =? 0 then []
                   else replicate (Z.to_nat (queue.size q)) Destruct
                        ++ [Free]) /\
    count is_destruct l = appends ops.
Proof.
  intros Hq. apply queue_reachable_ring in Hq as Hring.
  pose proof (queue_run_destructs T_default ops _ _ ring_ctor occupied_ctor Hq)
    as Hcount. simpl in Hcount.
  pose proof Hring as [Hwf _]. open_wf Hwf.
  eexists. split; [by apply queue_dtor_ok |]. split; [done |].
  unfold queue.size. rewrite count_app.
  destruct (Z.eqb_spec (capacity_ q) 0) as [H0 | Hn0]; simpl; [lia |].
  rewrite count_app, count_replicate_true by done. simpl. lia.
Qed.

Lemma destructor_destroys_what_is_left_witness :
  queue.run 0 queue.ctor q_wrapped_ops = Ok q_wrapped /\
  exists l,
    queue.dtor q_wrapped = Ok l /\
    l = log_ q_wrapped ++
        (if capacity_ q_wrapped =? 0 then []
         else replicate (Z.to_nat (queue.size q_wrapped)) Destruct ++ [Free]) /\
    count is_destruct l = appends q_wrapped_ops.
Proof.
  split; [reflexivity |].
  apply (destructor_destroys_what_is_left 0 q_wrapped_ops q_wrapped);
    reflexivity.
Defined.

(** ** Constructor calls *)

Section constructions.
Context {T : Type}.
Variable T_default : T.
Implicit Types (q : state T).

Lemma queue_reallocated_constructs q q1 :
  wf q -> queue.should_reallocate q = Ok q1 ->
  count is_construct (log_ q1) = count is_construct (log_ q).
Proof.
  intros Hwf Hrun.
  destruct (Z.eq_dec (size_ q) (capacity_ q)) as [Hfull | Hroom].
  - pose proof (should_reallocate_fits q q1 Hwf Hrun Hfull) as Hfit.
    destruct (should_reallocate_grow q Hwf Hfull Hfit) as (b & Hrun' & _).
    rewrite Hrun' in Hrun. injection Hrun as <-. simpl.
    rewrite count_app. simpl. rewrite count_app.
    rewrite count_replicate_false by done. simpl. lia.
  - rewrite should_reallocate_keep in Hrun by done. by injection Hrun as <-.
Qed.

Lemma queue_step_constructs q (o : @queue.op T) q' :
  ring q -> occupied q -> queue.step T_default q o = Ok q' ->
  count is_construct (log_ q') =
  count is_construct (log_ q) +
  (match o with queue.EmplaceBack => 1 | _ => 0 end).
Proof.
  intros Hring Hocc Hstep. pose proof Hring as [Hwf _].
  destruct (queue.is_append o) eqn:Ho.
  - destruct (queue_append_inv T_default q o _ Hwf Ho Hstep)
      as (q1 & Hre & Hra & Heq).
    rewrite Heq in Hstep. injection Hstep as <-. simpl.
    rewrite count_app, (queue_reallocated_constructs q q1 Hwf Hre).
    destruct o; simpl; try discriminate; lia.
  - destruct o as [data | data | | |]; try discriminate; simpl in Hstep.
    + destruct (Z.eq_dec (size_ q) 0) as [H0 | Hn0].
      { rewrite queue_pop_empty in Hstep by done. discriminate. }
      open_wf Hwf.
      rewrite queue_pop_eq in Hstep by (done || lia). injection Hstep as <-.
      simpl. rewrite count_app. simpl. lia.
    + destruct (queue_clear_objects q Hwf Hocc)
        as (q2 & Hrun & _ & _ & _ & Hlog & _).
      rewrite Hrun in Hstep. injection Hstep as <-.
      rewrite Hlog, count_app, count_replicate_false by done. lia.
Qed.

Lemma queue_run_constructs (ops : list (@queue.op T)) :
  forall q q', ring q -> occupied q ->
  queue.run T_default q ops = Ok q' ->
  count is_construct (log_ q') =
  count is_construct (log_ q) + emplacements ops.
Proof.
  induction ops as [| o ops IH]; intros q q' Hring Hocc Hrun; simpl in Hrun.
  - injection Hrun as <-. simpl. lia.
  - apply bind_Ok in Hrun as (q1 & Hstep & Hrun).
    rewrite (IH q1 q'); [| | | done].
    + rewrite (queue_step_constructs q o q1) by done. simpl. lia.
    + by apply (queue_step_ring T_default q o).
    + by apply (queue_step_occupied T_default q o).
Qed.

End constructions.

(** X16.  A [queue] calls a constructor of [T] in [emplace_back()] and
    nowhere else: after any series of calls on a fresh instance, the
    constructor calls it has made are as many as the [emplace_back()] calls
    of the series; [push_back], growth, [pop] and [clear] make none. *)
Theorem constructors_are_called_by_emplace_back_only {T : Type}
  (T_default : T) (ops : list (@queue.op T)) (q : state T) :
  queue.run T_default queue.ctor ops = Ok q ->
  count is_construct (log_ q) = emplacements ops.
Proof.
  intros Hq.
  by rewrite (queue_run_constructs T_default ops _ _ ring_ctor occupied_ctor
                Hq).
Qed.

Lemma constructors_are_called_by_emplace_back_only_witness :
  queue.run 0 queue.ctor q_wrapped_ops = Ok q_wrapped /\
  count is_construct (log_ q_wrapped) = emplacements q_wrapped_ops.
Proof.
  split; [reflexivity |].
  apply (constructors_are_called_by_emplace_back_only 0 q_wrapped_ops
           q_wrapped); reflexivity.
Defined.

(** ** Filling and draining a queue_trivial *)

Section drain.
Context {T : Type}.
Implicit Types (q : state T).

Lemma trivial_run_app (ops1 ops2 : list (@queue_trivial.op T)) :
  forall q,
    queue_trivial.run q (ops1 ++ ops2) =
    let* q' := queue_trivial.run q ops1 in queue_trivial.run q' ops2.
Proof.
  induction ops1 as [| o ops1 IH]; intros q; simpl; [done |].
  destruct (queue_trivial.step q o) as [q1 | f]; simpl; [apply IH | done].
Qed.

Lemma trivial_run_pops (k : nat) :
  forall q, wf q -> Z.of_nat k <= size_ q ->
  exists q',
    queue_trivial.run q (replicate k queue_trivial.Pop) = Ok q' /\
    size_ q' = size_ q - Z.of_nat k /\
    forall i, 0 <= i < size_ q - Z.of_nat k ->
      queue.get q' i = queue.get q (i + Z.of_nat k).
Proof.
  induction k as [| k IH]; intros q Hwf Hk.
  - exists q. simpl. split; [done |]. split; [lia |].
    intros i Hi. by rewrite Z.add_0_r.
  - simpl. rewrite trivial_pop_eq by (done || lia). simpl.
    set (q1 := removed q (slot (buffer_ q) (front_ q)) (log_ q)).
    destruct (IH q1) as (q' & Hrun & Hsize & Hget).
    { apply wf_removed; [done | lia]. }
    { simpl. lia. }
    exists q'. split; [exact Hrun |]. simpl in Hsize, Hget.
    split; [lia |]. intros i Hi. rewrite Hget by lia.
    unfold q1. rewrite get_removed by (done || lia). f_equal. lia.
Qed.

End drain.

(** X17.  A [queue_trivial] that is filled and then drained is first-in
    first-out: after [push_back] of the values [xs] on a fresh instance and
    [k] calls of [pop()], [k] not above their number, when the calls have
    returned [size()] is the number of values left and [q[i]] is the value
    pushed as number [k + i].  The pops cannot fail: calls that do not
    return have aborted in the [should_reallocate] of a push. *)
Theorem trivial_fill_then_drain {T : Type} (xs : list T) (k : nat) :
  (k <= length xs)%nat ->
  match queue_trivial.run queue_trivial.ctor
          (map queue_trivial.PushBack xs ++ replicate k queue_trivial.Pop) with
  | Ok qt =>
      queue_trivial.size qt = Z.of_nat (length xs) - Z.of_nat k /\
      forall (i : nat) (x : T),
        xs !! (k + i)%nat = Some x ->
        queue_trivial.get qt (Z.of_nat i) = Ok (Some x)
  | Fail f =>
      f = Aborted /\
      queue_trivial.run queue_trivial.ctor (map queue_trivial.PushBack xs) =
        Fail Aborted
  end.
Proof.
  intros Hk. rewrite trivial_run_app.
  destruct (queue_trivial.run queue_trivial.ctor
              (map queue_trivial.PushBack xs)) as [q1 | f] eqn:Hrun1; simpl.
  - destruct (trivial_run_pushes xs queue_trivial.ctor q1 ring_ctor eq_refl
                Hrun1) as ([Hwf1 _] & _ & Hsize1 & _ & Hget1).
    simpl in Hsize1.
    destruct (trivial_run_pops k q1 Hwf1) as (qt & Hrun & Hsize & Hget);
      [lia |].
    rewrite Hrun. unfold queue_trivial.size.
    split; [lia |]. intros i x Hi.
    pose proof (lookup_lt_Some _ _ _ Hi) as Hlt.
    change (@queue_trivial.get T) with (@queue.get T).
    rewrite Hget by lia.
    replace (Z.of_nat i + Z.of_nat k) with (Z.of_nat (k + i)) by lia.
    change (Z.of_nat (k + i))
      with (size_ (@queue_trivial.ctor T) + Z.of_nat (k + i)).
    by apply Hget1.
  - pose proof (trivial_run_pushes_fail xs queue_trivial.ctor f ring_ctor
                  Hrun1) as ->.
    done.
Qed.

Lemma trivial_fill_then_drain_witness :
  (2 <= length [1; 2; 3; 4; 5])%nat /\
  exists qt : state Z,
    queue_trivial.run queue_trivial.ctor
      (map queue_trivial.PushBack [1; 2; 3; 4; 5] ++
       replicate 2 queue_trivial.Pop) = Ok qt /\
    queue_trivial.size qt = 3 /\
    queue_trivial.get qt 0 = Ok (Some 3) /\
    queue_trivial.get qt 1 = Ok (Some 4) /\
    queue_trivial.get qt 2 = Ok (Some 5).
Proof.
  split; [simpl; lia |].
  generalize (trivial_fill_then_drain [1; 2; 3; 4; 5] 2 ltac:(simpl; lia)).
  destruct (queue_trivial.run queue_trivial.ctor
              (map queue_trivial.PushBack [1; 2; 3; 4; 5] ++
               replicate 2 queue_trivial.Pop)) as [qt | f] eqn:E;
    [| vm_compute in E; discriminate E].
  intros [Hsize Hget]. exists qt. split; [reflexivity |].
  split; [exact Hsize |].
  split; [exact (Hget 0%nat 3 eq_refl) |].
  split; [exact (Hget 1%nat 4 eq_refl) | exact (Hget 2%nat 5 eq_refl)].
Defined.

(** ** The largest queue *)

Section limit.
Context {T : Type}.
Variable T_default : T.
Implicit Types (q : state T).

(** A capacity that is a power of two and an [int] is at most [2 ^ 30]. *)
Lemma capacity_limit q :
  wf q ->
  capacity_ q =
    (if allocations (log_ q) =? 0 then 0 else 2 ^ allocations (log_ q)) ->
  capacity_ q <= 1073741824.
Proof.
  intros Hwf Hcap. open_wf Hwf.
  destruct (allocations (log_ q) =? 0); [lia |].
  destruct (Z_le_gt_dec 31 (allocations (log_ q))) as [Hbig | Hsmall].
  - pose proof (Z.pow_le_mono_r 2 31 _ ltac:(lia) Hbig) as H.
    change (2 ^ 31) with 2147483648 in H. lia.
  - pose proof (Z.pow_le_mono_r 2 (allocations (log_ q)) 30 ltac:(lia)
                  ltac:(lia)) as H.
    change (2 ^ 30) with 1073741824 in H. lia.
Qed.

(** Below [2 ^ 30] elements twice the capacity is an [int]. *)
Lemma fits_below_limit q : wf q -> size_ q < 1073741824 -> fits q.
Proof. intros Hwf Hlt Hfull. lia. Qed.

Lemma queue_run_limit (ops : list (@queue.op T)) :
  forall q, ring q ->
  capacity_ q =
    (if allocations (log_ q) =? 0 then 0 else 2 ^ allocations (log_ q)) ->
  forallb queue.is_append ops = true ->
  (size_ q + Z.of_nat (length ops) <= 1073741824 ->
   exists q', queue.run T_default q ops = Ok q') /\
  (1073741824 < size_ q + Z.of_nat (length ops) ->
   queue.run T_default q ops = Fail Aborted).
Proof.
  induction ops as [| o ops IH]; intros q Hring Hcap Happ.
  - pose proof Hring as [Hwf _]. pose proof (capacity_limit q Hwf Hcap).
    open_wf Hwf. split; [by exists q | simpl; lia].
  - apply andb_true_iff in Happ as [Ho Happ].
    pose proof Hring as [Hwf _]. pose proof (capacity_limit q Hwf Hcap) as Hlim.
    open_wf Hwf.
    change (length (o :: ops)) with (S (length ops)).
    rewrite Nat2Z.inj_succ.
    change (queue.run T_default q (o :: ops))
      with (let* q' := queue.step T_default q o in queue.run T_default q' ops).
    destruct (Z.eq_dec (size_ q) 1073741824) as [Hlast | Hless].
    + rewrite (queue_append_abort T_default q o Hwf Ho) by lia.
      split; [lia | done].
    + destruct (queue_append_eq T_default q o Hwf Ho) as (q1 & _ & Hra & Heq).
      { apply fits_below_limit; [done | lia]. }
      pose proof (queue_step_ring T_default q o _ Hring Heq) as [Hring2 _].
      pose proof (capacity_step q _ Hcap
                    (queue_step_capacity T_default q o _ Hring Heq)) as Hcap2.
      destruct (IH _ Hring2 Hcap2 Happ) as [Hret Habort].
      rewrite Heq. simpl bind. simpl size_ in Hret, Habort.
      rewrite (ra_size _ _ Hra) in Hret, Habort.
      split; intros H; [apply Hret | apply Habort]; lia.
Qed.

Lemma trivial_run_limit (ops : list (@queue_trivial.op T)) :
  forall q, wf q ->
  capacity_ q =
    (if allocations (log_ q) =? 0 then 0 else 2 ^ allocations (log_ q)) ->
  forallb queue_trivial.is_append ops = true ->
  (size_ q + Z.of_nat (length ops) <= 1073741824 ->
   exists q', queue_trivial.run q ops = Ok q') /\
  (1073741824 < size_ q + Z.of_nat (length ops) ->
   queue_trivial.run q ops = Fail Aborted).
Proof.
  induction ops as [| o ops IH]; intros q Hwf Hcap Happ.
  - pose proof (capacity_limit q Hwf Hcap).
    open_wf Hwf. split; [by exists q | simpl; lia].
  - apply andb_true_iff in Happ as [Ho Happ].
    pose proof (capacity_limit q Hwf Hcap) as Hlim.
    open_wf Hwf.
    change (length (o :: ops)) with (S (length ops)).
    rewrite Nat2Z.inj_succ.
    change (queue_trivial.run q (o :: ops))
      with (let* q' := queue_trivial.step q o in queue_trivial.run q' ops).
    destruct (Z.eq_dec (size_ q) 1073741824) as [Hlast | Hless].
    + rewrite (trivial_append_abort q o Hwf Ho) by lia.
      split; [lia | done].
    + destruct (trivial_append_eq q o Hwf Ho) as (q1 & _ & Hra & Heq).
      { apply fits_below_limit; [done | lia]. }
      pose proof (trivial_step_wf q o _ Hwf Heq) as [Hwf2 _].
      pose proof (capacity_step q _ Hcap
                    (trivial_step_capacity q o _ Hwf Heq)) as Hcap2.
      destruct (IH _ Hwf2 Hcap2 Happ) as [Hret Habort].
      rewrite Heq. simpl bind. simpl size_ in Hret, Habort.
      rewrite (ra_size _ _ Hra) in Hret, Habort.
      split; intros H; [apply Hret | apply Habort]; lia.
Qed.

Lemma forallb_is_append_PushBack (xs : list T) :
  forallb queue_trivial.is_append (map queue_trivial.PushBack xs) = true.
Proof. induction xs as [| x xs IH]; [done | exact IH]. Qed.

End limit.

(** X18.  Growth stops at the capacity [2 ^ 30].  A reachable instance of
    either struct has at most [2 ^ 30] slots, and the sums its member
    functions take of [front_] or [back_] and a position stay in [int].  On
    an instance that holds [2 ^ 30] elements an append aborts:
    [capacity_ *= 2] leaves the [int] -2147483648, [malloc] is asked for
    that count of slots and returns the null pointer, whatever the block
    and the indices are. *)
Theorem growth_stops_at_the_largest_capacity {T : Type} (T_default : T)
  (ops : list (@queue.op T)) (tops : list (@queue_trivial.op T))
  (q qt : state T) (o : @queue.op T) (ot : @queue_trivial.op T) :
  queue.run T_default queue.ctor ops = Ok q ->
  queue_trivial.run queue_trivial.ctor tops = Ok qt ->
  queue.is_append o = true ->
  queue_trivial.is_append ot = true ->
  (size_ q <= capacity_ q <= 1073741824 /\
   front_ q + size_ q <= INT_MAX /\ back_ q + size_ q <= INT_MAX /\
   (size_ q = 1073741824 -> queue.step T_default q o = Fail Aborted)) /\
  (size_ qt <= capacity_ qt <= 1073741824 /\
   front_ qt + size_ qt <= INT_MAX /\ back_ qt + size_ qt <= INT_MAX /\
   (size_ qt = 1073741824 -> queue_trivial.step qt ot = Fail Aborted)) /\
  int (1073741824 * 2) = -2147483648 /\
  @malloc T (-2147483648) = None /\
  forall (b : block T) (f bk : Z) (l : list event),
    queue.should_reallocate (mk_state b f bk 1073741824 1073741824 l) =
      Fail Aborted /\
    queue_trivial.should_reallocate
      (mk_state b f bk 1073741824 1073741824 l) = Fail Aborted.
Proof.
  intros Hq Hqt Ho Hot.
  pose proof (queue_run_capacity T_default ops queue.ctor q ring_ctor eq_refl
                Hq) as Hcap.
  pose proof (trivial_run_capacity tops queue_trivial.ctor qt wf_ctor eq_refl
                Hqt) as Hcapt.
  apply queue_reachable_ring in Hq as [Hwf _].
  apply trivial_reachable_wf in Hqt as Hwft.
  pose proof (capacity_limit q Hwf Hcap) as Hlim.
  pose proof (capacity_limit qt Hwft Hcapt) as Hlimt.
  split; [| split; [| split; [reflexivity | split; [reflexivity |]]]].
  - open_wf Hwf. split; [lia |]. split; [lia |]. split; [lia |].
    intros Hsize. apply queue_append_abort; (done || lia).
  - pose proof Hwft as (Hlen & Hsz & Hf & Hb & Hz & Hp & Hmax).
    split; [lia |]. split; [lia |]. split; [lia |].
    intros Hsize. apply trivial_append_abort; (done || lia).
  - intros b f bk l. split; reflexivity.
Qed.

Lemma growth_stops_at_the_largest_capacity_witness :
  queue.run 0 queue.ctor q_wrapped_ops = Ok q_wrapped /\
  queue_trivial.run queue_trivial.ctor t_wrapped_ops = Ok t_wrapped /\
  size_ q_wrapped <= capacity_ q_wrapped <= 1073741824 /\
  size_ t_wrapped <= capacity_ t_wrapped <= 1073741824 /\
  queue.push_back (mk_state [] 0 0 1073741824 1073741824 []) 7 =
    Fail Aborted /\
  queue_trivial.push_back (mk_state [] 0 0 1073741824 1073741824 []) 7 =
    Fail Aborted.
Proof.
  do 2 (split; [reflexivity |]).
  destruct (growth_stops_at_the_largest_capacity 0 q_wrapped_ops
              t_wrapped_ops q_wrapped t_wrapped (queue.PushBack 4)
              (queue_trivial.PushBack 4) eq_refl eq_refl eq_refl eq_refl)
    as ((H1 & _) & (H2 & _) & _ & _ & H3).
  split; [exact H1 |]. split; [exact H2 |].
  destruct (H3 [] 0 0 []) as [Hq Ht].
  unfold queue.push_back, queue_trivial.push_back.
  rewrite Hq, Ht. split; reflexivity.
Defined.

(** X19.  How many pushes return.  [malloc] here grants every request for a
    count of slots that is not negative, and then the pushes onto a fresh
    instance of either struct, by either overload of [queue::push_back],
    all return when there are at most [2 ^ 30] of them; when there are more,
    the series aborts. *)
Theorem pushes_return_up_to_the_largest_capacity {T : Type} (T_default : T)
  (xs : list (T * bool)) :
  (Z.of_nat (length xs) <= 1073741824 ->
   exists q qt : state T,
     queue.run T_default queue.ctor (map queue.push_op xs) = Ok q /\
     queue_trivial.run queue_trivial.ctor
       (map queue_trivial.PushBack (map fst xs)) = Ok qt) /\
  (1073741824 < Z.of_nat (length xs) ->
   queue.run T_default queue.ctor (map queue.push_op xs) = Fail Aborted /\
   queue_trivial.run queue_trivial.ctor
     (map queue_trivial.PushBack (map fst xs)) = Fail Aborted).
Proof.
  destruct (queue_run_limit T_default (map queue.push_op xs) queue.ctor
              ring_ctor eq_refl (forallb_is_append_push_op xs))
    as [Hret Habort].
  destruct (trivial_run_limit (map queue_trivial.PushBack (map fst xs))
              queue_trivial.ctor wf_ctor eq_refl
              (forallb_is_append_PushBack (map fst xs)))
    as [Hrett Habortt].
  rewrite !length_map in *.
  change (size_ (@queue.ctor T)) with 0 in *.
  change (size_ (@queue_trivial.ctor T)) with 0 in *.
  rewrite Z.add_0_l in *.
  split; intros H.
  - destruct (Hret H) as [q Hq]. destruct (Hrett H) as [qt Hqt].
    by exists q, qt.
  - split; [by apply Habort | by apply Habortt].
Qed.

Lemma pushes_return_up_to_the_largest_capacity_witness :
  Z.of_nat (length five_pushes) <= 1073741824 /\
  exists q qt : state Z,
    queue.run 0 queue.ctor (map queue.push_op five_pushes) = Ok q /\
    queue_trivial.run queue_trivial.ctor
      (map queue_trivial.PushBack (map fst five_pushes)) = Ok qt.
Proof.
  split; [simpl; lia |].
  apply (pushes_return_up_to_the_largest_capacity 0 five_pushes).
  simpl. lia.
Defined.
